(** * Seegnify: training trait, attention, storage codec and graph

    A shallow embedding of [utils/training.hh] (class [Training]) and of
    the attention constructors of the transformer model header, with the
    parts of the library they rest on (storage codec, tensor back end,
    graph, Conv2D, backward pass, GRU cell) modelled from the
    specification, and the properties stated about them. *)

From Stdlib Require Import Reals Lra.
From Stdlib Require Import ZArith List Lia Bool String.
From Stdlib Require Import Floats.SpecFloat.
From coqutil Require Import Byte Word.LittleEndianList.
From stdpp Require Import base list strings pretty.

Local Open Scope string_scope.
Local Open Scope list_scope.
Local Open Scope Z_scope.

(** ** Machine integers *)

(** [int] is 32 bits wide, two's complement; [size_t] is 64 bits wide. *)
Definition INT_MAX : Z := 2 ^ 31 - 1.
Definition INT_MIN : Z := - 2 ^ 31.

(** Conversion of an integer value to [int] (wrap-around). *)
Definition to_int (z : Z) : Z := (z + 2 ^ 31) mod 2 ^ 32 - 2 ^ 31.

(** Conversion of an integer value to [size_t], as the usual arithmetic
    conversions do when an [int] meets a [size_t] in a comparison. *)
Definition to_size_t (z : Z) : Z := z mod 2 ^ 64.

Definition is_int (z : Z) : Prop := INT_MIN <= z <= INT_MAX.

(** ** The scalar type [DTYPE] *)

(** Modelled from the spec: the tensor back end's scalar [R] ("binary32 by
    default"); the header that fixes [DTYPE] is not among the sources.  A
    scalar is held as its 32-bit pattern, which is what the codec copies,
    and arithmetic goes through the IEEE 754 binary32 reading of the
    pattern ([prec = 24], [emax = 128], round to nearest even).  NaN
    payloads are not tracked by [spec_float]: an arithmetic result that is
    a NaN is the canonical quiet NaN. *)
Module F32.

Definition prec : Z := 24.
Definition emax : Z := 128.

Definition sign_bit (s : bool) : Z := if s then 2 ^ 31 else 0.

(** The number a word stands for: sign in bit 31, exponent field in bits
    30..23 (bias 127), mantissa field in bits 22..0. *)
Definition of_bits (w : Z) : spec_float :=
  let s := Z.testbit w 31 in
  let e := Z.land (Z.shiftr w 23) 255 in
  let m := Z.land w (2 ^ 23 - 1) in
  if e =? 0 then
    match m with
    | Zpos p => S754_finite s p (-149)
    | _ => S754_zero s
    end
  else if e =? 255 then
    (if m =? 0 then S754_infinity s else S754_nan)
  else
    match m + 2 ^ 23 with
    | Zpos p => S754_finite s p (e - 150)
    | _ => S754_nan
    end.

(** The word of a number. *)
Definition to_bits (x : spec_float) : Z :=
  match x with
  | S754_zero s => sign_bit s
  | S754_infinity s => sign_bit s + 255 * 2 ^ 23
  | S754_nan => 255 * 2 ^ 23 + 2 ^ 22
  | S754_finite s m e =>
      if 2 ^ 23 <=? Zpos m
      then sign_bit s + (e + 150) * 2 ^ 23 + (Zpos m - 2 ^ 23)
      else sign_bit s + Zpos m
  end.

(** Modelled from the spec: the sum, the difference and the product of two
    scalars of the back end, rounded to nearest even. *)
Definition add (a b : Z) : Z :=
  to_bits (SFadd prec emax (of_bits a) (of_bits b)).

Definition sub (a b : Z) : Z :=
  to_bits (SFsub prec emax (of_bits a) (of_bits b)).

Definition mul (a b : Z) : Z :=
  to_bits (SFmul prec emax (of_bits a) (of_bits b)).

(** The scalar an integer literal converts to. *)
Definition of_Z (z : Z) : Z :=
  to_bits (binary_normalize prec emax z 0 false).

Definition zero : Z := 0.

(** Neither an infinity nor a NaN. *)
Definition is_finite (w : Z) : bool :=
  negb (Z.land (Z.shiftr w 23) 255 =? 255).

(** [+0] or [-0]. *)
Definition is_zero (w : Z) : bool :=
  match of_bits w with
  | S754_zero _ => true
  | _ => false
  end.

Definition is_nan (w : Z) : bool :=
  match of_bits w with
  | S754_nan => true
  | _ => false
  end.

Definition is_word (w : Z) : Prop := 0 <= w < 2 ^ 32.

End F32.

(** ** Tensors *)

(** Modelled from the spec: the dense 2-D tensor of the back end, with its
    row and column counts and its scalars in row-major order. *)
Record Tensor : Type := mkTensor {
  rows : Z;
  cols : Z;
  data : list Z
}.

(** A tensor as the back end builds it: the dimensions fit the [int]
    fields of the codec, and there is one 32-bit scalar per cell. *)
Definition wf_tensor (T : Tensor) : Prop :=
  0 <= rows T <= INT_MAX /\ 0 <= cols T <= INT_MAX /\
  Z.of_nat (length (data T)) = rows T * cols T /\
  Forall F32.is_word (data T).

(** The empty tensor of a variable made without dimensions. *)
Definition empty_tensor : Tensor := mkTensor 0 0 [].

(** Same rows, same columns (and as many scalars). *)
Definition same_shape (A B : Tensor) : bool :=
  (rows A =? rows B) && (cols A =? cols B)
  && (length (data A) =? length (data B))%nat.

(** Modelled from the spec: the coefficient-wise [A - B] and [A + B] of
    the tensor back end, which asserts that the two operands have the same
    dimensions; [None] is the failed assertion. *)
Definition tensor_sub (A B : Tensor) : option Tensor :=
  if same_shape A B
  then Some (mkTensor (rows A) (cols A) (zip_with F32.sub (data A) (data B)))
  else None.

Definition tensor_add (A B : Tensor) : option Tensor :=
  if same_shape A B
  then Some (mkTensor (rows A) (cols A) (zip_with F32.add (data A) (data B)))
  else None.

(** [Tensor::Zero(r, c)]. *)
Definition tensor_zero (r c : Z) : Tensor :=
  mkTensor r c (replicate (Z.to_nat (r * c)) F32.zero).

(** Every scalar is a zero; no scalar is an infinity or a NaN. *)
Definition all_zero (T : Tensor) : Prop :=
  Forall (fun w => F32.is_zero w = true) (data T).

Definition all_finite (T : Tensor) : Prop :=
  Forall (fun w => F32.is_finite w = true) (data T).

(** ** Storage codec *)

(** Modelled from the spec: the codec of [utils/storage.hh], which is not
    among the sources.  An [int] is 4 bytes, little-endian, two's
    complement; a string is its length as an [int] and its bytes; a tensor
    is its rows and columns as [int]s and then [rows * cols] scalars of 4
    bytes each in row-major order.  An input stream is the list of the
    bytes still to read; a read that finds malformed or too few bytes is
    the CodecError of the spec, here [None]. *)
Module Storage.

(** Modelled from the spec: [write_int] of the codec, 4 bytes,
    little-endian, two's complement. *)
Definition write_int (value : Z) : list byte := le_split 4 value.

(** Modelled from the spec: [read_int] of the codec. *)
Definition read_int (s : list byte) : option (Z * list byte) :=
  if (4 <=? length s)%nat
  then Some (to_int (le_combine (take 4 s)), drop 4 s)
  else None.

(** Modelled from the spec: [write_string] and [read_string] of the codec,
    the length as an [int] and then the bytes. *)
Definition write_string (str : list byte) : list byte :=
  write_int (Z.of_nat (length str)) ++ str.

Definition read_string (s : list byte) : option (list byte * list byte) :=
  '(n, s1) ← read_int s;
  if n <? 0 then None
  else if (Z.to_nat n <=? length s1)%nat
       then Some (take (Z.to_nat n) s1, drop (Z.to_nat n) s1)
       else None.

(** The scalars of a tensor, 4 bytes each, least significant byte first. *)
Definition write_values (l : list Z) : list byte :=
  flat_map (le_split 4) l.

Fixpoint read_values (n : nat) (s : list byte)
  : option (list Z * list byte) :=
  match n with
  | O => Some ([], s)
  | S n' =>
      if (4 <=? length s)%nat
      then '(l, s') ← read_values n' (drop 4 s);
           Some (le_combine (take 4 s) :: l, s')
      else None
  end.

(** Modelled from the spec: [write_tensor] of the codec, rows, columns and
    the scalars in row-major order. *)
Definition write_tensor (T : Tensor) : list byte :=
  write_int (rows T) ++ write_int (cols T) ++ write_values (data T).

(** Modelled from the spec: [read_tensor] of the codec; dimensions below
    zero and a stream shorter than [rows * cols] scalars are malformed. *)
Definition read_tensor (s : list byte) : option (Tensor * list byte) :=
  '(r, s1) ← read_int s;
  '(c, s2) ← read_int s1;
  if (r <? 0) || (c <? 0) then None
  else if Z.of_nat (length s2) <? 4 * (r * c) then None
  else '(l, s3) ← read_values (Z.to_nat (r * c)) s2;
       Some (mkTensor r c l, s3).

End Storage.

Import Storage.

(** ** Graph *)

(** Modelled from the spec: the graph of [main/graph.hh], which is not
    among the sources.  The training trait uses its insertion-ordered list
    of variables, here the list of their value tensors, and the factory
    that appends an empty variable. *)
Record Graph : Type := mkGraph {
  variables : list Tensor
}.

(** Modelled from the spec: [Graph::new_variable()], a new variable whose
    tensor is empty, last in the list. *)
Definition new_variable (g : Graph) : Graph :=
  mkGraph (variables g ++ [empty_tensor]).

(** ** Distributed training ([utils/training.hh]) *)

(** How a call can end other than by returning: the exception of
    [get_update], a failed read of the codec, the failed dimension
    assertion of a tensor operation, and an access past the end of a
    vector of variables (undefined behaviour). *)
Inductive error : Type :=
  | VariableCountMismatch
  | CodecError
  | ShapeMismatch
  | OutOfRange.

(** A call returns ([Done]) or ends in an error ([Fail]). *)
Inductive outcome (A : Type) : Type :=
  | Done (a : A)
  | Fail (e : error).
Arguments Done {A} a.
Arguments Fail {A} e.

(** The state of a [Training]: the live graph, the snapshot of the
    weights last set, and the index of the worker. *)
Record Training : Type := mkTraining {
  _curr : Graph;
  _prev : Graph;
  _worker : Z
}.

(** The state after the variables of [_curr], or of [_prev], took the
    values [vars]. *)
Definition set_curr (t : Training) (vars : list Tensor) : Training :=
  mkTraining (mkGraph vars) (_prev t) (_worker t).

Definition set_prev (t : Training) (vars : list Tensor) : Training :=
  mkTraining (_curr t) (mkGraph vars) (_worker t).

(** [get_weights]: the count, then every variable of [_curr]. *)
Definition get_weights (t : Training) : list byte :=
  let curr_vars := variables (_curr t) in
  write_int (Z.of_nat (length curr_vars)) ++ flat_map write_tensor curr_vars.

(** [for (int i = g.variables().size(); i < size; i++) g.new_variable();]
    run [n] times. *)
Fixpoint create_variables (n : nat) (g : Graph) : Graph :=
  match n with
  | O => g
  | S n' => create_variables n' (new_variable g)
  end.

(** [if (g.variables().size() < size) { for ... }]: the comparison is made
    in [size_t], the loop counter is an [int]. *)
Definition ensure_variables (g : Graph) (size : Z) : Graph :=
  let count := Z.of_nat (length (variables g)) in
  if to_size_t count <? to_size_t size
  then create_variables (Z.to_nat (size - to_int count)) g
  else g.

(** The loading loop of [set_weights], from index [i], [n] rounds to go. *)
Fixpoint load_weights (n i : nat) (s : list byte) (t : Training)
  : Training * outcome unit :=
  match n with
  | O => (t, Done tt)
  | S n' =>
      match read_tensor s with
      | None => (t, Fail CodecError)
      | Some (T, s') =>
          match variables (_curr t) !! i with
          | None => (t, Fail OutOfRange)
          | Some _ =>
              let t1 := set_curr t (<[i := T]> (variables (_curr t))) in
              match variables (_prev t1) !! i with
              | None => (t1, Fail OutOfRange)
              | Some _ =>
                  load_weights n' (S i) s'
                    (set_prev t1 (<[i := T]> (variables (_prev t1))))
              end
          end
      end
  end.

(** [set_weights]: the state it leaves, and how it ends. *)
Definition set_weights (weights : list byte) (t : Training)
  : Training * outcome unit :=
  match read_int weights with
  | None => (t, Fail CodecError)
  | Some (size, s) =>
      let t1 :=
        mkTraining (ensure_variables (_curr t) size)
                   (ensure_variables (_prev t) size) (_worker t) in
      load_weights (Z.to_nat size) 0 s t1
  end.

(** The writing loop of [get_update], from index [i], [n] rounds to go. *)
Fixpoint write_updates (n i : nat) (curr_vars prev_vars : list Tensor)
  (out : list byte) : outcome (list byte) :=
  match n with
  | O => Done out
  | S n' =>
      match curr_vars !! i, prev_vars !! i with
      | Some curr, Some prev =>
          match tensor_sub curr prev with
          | None => Fail ShapeMismatch
          | Some d =>
              write_updates n' (S i) curr_vars prev_vars
                (out ++ write_tensor d)
          end
      | _, _ => Fail OutOfRange
      end
  end.

(** [get_update]: the state it leaves, and the buffer it returns or the
    error it ends in. *)
Definition get_update (t : Training) : Training * outcome (list byte) :=
  let curr_vars := variables (_curr t) in
  let prev_vars := variables (_prev t) in
  if negb (length curr_vars =? length prev_vars)%nat
  then (t, Fail VariableCountMismatch)
  else
    let size := to_int (Z.of_nat (length curr_vars)) in
    (t, write_updates (Z.to_nat size) 0 curr_vars prev_vars (write_int size)).

(** The loop of [upd_weights], from index [i], [n] rounds to go.  The
    increment is read before the variable is looked up. *)
Fixpoint apply_updates (n i : nat) (s : list byte) (t : Training)
  : Training * outcome unit :=
  match n with
  | O => (t, Done tt)
  | S n' =>
      match read_tensor s with
      | None => (t, Fail CodecError)
      | Some (D, s') =>
          match variables (_curr t) !! i with
          | None => (t, Fail OutOfRange)
          | Some v =>
              match tensor_add v D with
              | None => (t, Fail ShapeMismatch)
              | Some v' =>
                  apply_updates n' (S i) s'
                    (set_curr t (<[i := v']> (variables (_curr t))))
              end
          end
      end
  end.

(** [upd_weights]: the state it leaves, and how it ends. *)
Definition upd_weights (update : list byte) (t : Training)
  : Training * outcome unit :=
  match read_int update with
  | None => (t, Fail CodecError)
  | Some (size, s) => apply_updates (Z.to_nat size) 0 s t
  end.

(** The counts of variables fit an [int], as every loop of the trait
    takes them to do. *)
Definition wf_graph (g : Graph) : Prop :=
  Z.of_nat (length (variables g)) <= INT_MAX.

Definition wf_training (t : Training) : Prop :=
  wf_graph (_curr t) /\ wf_graph (_prev t).

(** ** Buffers and tensors of the statements *)

(** The buffer that holds a count and then the tensors [Ts]: what
    [get_weights] returns for variables of values [Ts], and what
    [set_weights] and [upd_weights] take. *)
Definition weights_buffer (Ts : list Tensor) : list byte :=
  write_int (Z.of_nat (length Ts)) ++ flat_map write_tensor Ts.

(** The tensor of the dimensions of [T] whose every scalar is [+0]. *)
Definition zeros_like (T : Tensor) : Tensor :=
  mkTensor (rows T) (cols T) (replicate (length (data T)) F32.zero).

(** [T + D], scalar by scalar, in the dimensions of [T]. *)
Definition plus_delta (T D : Tensor) : Tensor :=
  mkTensor (rows T) (cols T) (zip_with F32.add (data T) (data D)).

(** [(T + D) - T], scalar by scalar, every operation rounded to binary32:
    the increment [D] as it comes back after it was added to [T]. *)
Definition rounded_delta (T D : Tensor) : Tensor :=
  mkTensor (rows T) (cols T)
    (zip_with (fun w d => F32.sub (F32.add w d) w) (data T) (data D)).

(** [A - B], scalar by scalar, in the dimensions of [A]: the difference
    of two tensors of the same dimensions. *)
Definition tensor_minus (A B : Tensor) : Tensor :=
  mkTensor (rows A) (cols A) (zip_with F32.sub (data A) (data B)).

(** The differences [curr[i] - prev[i]] of two lists of variables, index
    by index; [None] when the dimensions of a pair differ. *)
Fixpoint differences (cs ps : list Tensor) : option (list Tensor) :=
  match cs, ps with
  | c :: cs', p :: ps' =>
      d ← tensor_sub c p;
      ds ← differences cs' ps';
      Some (d :: ds)
  | _, _ => Some []
  end.

(** ** Concrete states and buffers *)

(** A trait with two variables, whose values moved since the snapshot. *)
Definition st_two : Training :=
  mkTraining
    (mkGraph [mkTensor 1 2 [F32.of_Z 3; F32.of_Z 5]; mkTensor 1 1 [F32.of_Z 7]])
    (mkGraph [mkTensor 1 2 [F32.of_Z 1; F32.of_Z 1]; mkTensor 1 1 [F32.of_Z 7]])
    0.

(** A worker whose model holds one 1x1 variable, before any weights
    came, and the same worker when the snapshot holds one variable that
    never took a value. *)
Definition st_one : Training :=
  mkTraining (mkGraph [mkTensor 1 1 [F32.of_Z 5]]) (mkGraph []) 0.

Definition st_shapes : Training :=
  mkTraining (mkGraph [mkTensor 1 1 [F32.of_Z 5]]) (mkGraph [empty_tensor]) 0.

(** A worker whose model made two variables, before any weights came. *)
Definition st_fresh : Training :=
  mkTraining
    (mkGraph [mkTensor 1 2 [F32.of_Z 1; F32.of_Z 2]; mkTensor 1 1 [F32.of_Z 5]])
    (mkGraph [])
    0.

(** A trait with no variable at all. *)
Definition st_empty : Training := mkTraining (mkGraph []) (mkGraph []) 0.

(** Weights of one variable, the 1x1 tensor [5]. *)
Definition buf_one : list byte := weights_buffer [mkTensor 1 1 [F32.of_Z 5]].

(** Weights of one variable whose scalar is a NaN. *)
Definition f32_nan : Z := 255 * 2 ^ 23 + 2 ^ 22.
Definition buf_nan : list byte := weights_buffer [mkTensor 1 1 [f32_nan]].

(** The 2x3 tensor [[1,2,3],[4,5,6]]. *)
Definition tensor_2x3 : Tensor :=
  mkTensor 2 3 (map F32.of_Z [1; 2; 3; 4; 5; 6]).

(** ** Attention (the transformer model header) *)

(** The constructors of the header build nodes in a graph; a node is held
    here as the expression it computes. *)
Module Transformer.

(** Modelled from the spec: the node classes of [main/graph.hh], which is
    not among the sources, each with the arguments its factory is given in
    the header: a null pointer, a function of the caller, a named
    variable, the bias constant of an attention, and the operators. *)
Inductive Function : Type :=
  | Null
  | Arg (name : string)
  | Var (rows cols : Z) (name : string)
  | Bias (mask : Function)
  | Product (a b : Function)
  | Transpose (a : Function)
  | DivSqrt (a : Function) (n : Z)
  | Add (a b : Function)
  | RowwiseSoftmax (a : Function) (rows cols : Z)
  | Dropout (a : Function) (rate : Z)
  | Split (x : Function) (r c rows cols : Z)
  | Join (a b : Function) (rows cols : Z)
  | Broadcast (a target : Function).

(** [dropout > 0] on a binary32 scalar. *)
Definition positive_rate (rate : Z) : bool :=
  SFltb (S754_zero false) (F32.of_bits rate).

(** The node [_attention] that the constructor of
    [ScaledDotProductAttention] leaves; [Bias mask] is the constant
    [_bias], which [forward] fills from the mask, and [Null] is the null
    pointer a caller may pass for the mask. *)
Definition ScaledDotProductAttention (q k v : Function)
  (mask : Function) (trg_size seq_size head_size : Z) (dropout : Z)
  : Function :=
  let L := trg_size in
  let S := seq_size in
  let D := head_size in
  let _attention := Product q (Transpose k) in
  let _bias := Bias mask in
  let _attention := Add (DivSqrt _attention D) _bias in
  let _attention := RowwiseSoftmax _attention L S in
  let _attention :=
    if positive_rate dropout then Dropout _attention dropout else _attention in
  Product _attention v.

(** [linear]: [x W^T], plus the broadcast bias when there is one. *)
Definition linear (x : Function) (W : Function) (b : option Function)
  : Function :=
  let y := Product x (Transpose W) in
  match b with
  | Some b => Add y (Broadcast b y)
  | None => y
  end.

(** [split_heads]: head [i] is the block of [x] of [S] rows and [D]
    columns from column [i * D]. *)
Definition split_heads (x : Function) (num_heads seq_size head_size : Z)
  : list Function :=
  let S := seq_size in
  let D := head_size in
  map (fun i => Split x 0 (Z.of_nat i * D) S D) (seq 0 (Z.to_nat num_heads)).

(** The loop of [join_heads] from head [i] on, [joined] being what is
    joined so far. *)
Fixpoint join_loop (heads : list Function) (i : Z) (S D : Z)
  (joined : option Function) : option Function :=
  match heads with
  | [] => joined
  | h :: heads' =>
      let head := Transpose h in
      join_loop heads' (i + 1) S D
        (Some match joined with
              | Some j => Join j head ((i + 1) * D) S
              | None => head
              end)
  end.

(** [join_heads]; [None] is the null pointer dereferenced when there is no
    head. *)
Definition join_heads (heads : list Function) (seq_size head_size : Z)
  : option Function :=
  match join_loop heads 0 seq_size head_size None with
  | Some joined => Some (Transpose joined)
  | None => None
  end.

(** The vector [heads] of the constructor of [MultiHeadAttention]. *)
Definition attention_heads (q k v : Function) (mask : Function)
  (trg_size seq_size emb_size num_heads : Z) (bias : bool) (dropout : Z)
  : list Function :=
  let L := trg_size in
  let S := seq_size in
  let E := emb_size in
  let H := num_heads in
  let D := Z.quot emb_size num_heads in
  let Wq := Var E E "MHA.Wq" in
  let Wk := Var E E "MHA.Wk" in
  let Wv := Var E E "MHA.Wv" in
  let bq := if bias then Some (Var 1 E "MHA.bq") else None in
  let bk := if bias then Some (Var 1 E "MHA.bk") else None in
  let bv := if bias then Some (Var 1 E "MHA.bv") else None in
  let q_heads := split_heads (linear q Wq bq) H S D in
  let k_heads := split_heads (linear k Wk bk) H S D in
  let v_heads := split_heads (linear v Wv bv) H S D in
  zip_with (fun qk v => ScaledDotProductAttention (fst qk) (snd qk) v mask
                          L S H dropout)
    (zip q_heads k_heads) v_heads.

(** The node [_attention] that the constructor of [MultiHeadAttention]
    leaves. *)
Definition MultiHeadAttention (q k v : Function) (mask : Function)
  (trg_size seq_size emb_size num_heads : Z) (bias : bool) (dropout : Z)
  : option Function :=
  let S := seq_size in
  let E := emb_size in
  let H := num_heads in
  let Wo := Var E E "MHA.Wo" in
  let bo := if bias then Some (Var 1 E "MHA.bo") else None in
  let heads :=
    attention_heads q k v mask trg_size seq_size emb_size num_heads
      bias dropout in
  match join_heads heads S H with
  | Some joined => Some (linear joined Wo bo)
  | None => None
  end.

(** The number whose square root divides the logits of a head: the [n]
    of the [DivSqrt] node under the row-wise softmax. *)
Definition logit_scale (head : Function) : option Z :=
  match head with
  | Product (RowwiseSoftmax (Add (DivSqrt _ n) _) _ _) _
  | Product (Dropout (RowwiseSoftmax (Add (DivSqrt _ n) _) _ _) _) _ => Some n
  | _ => None
  end.

End Transformer.

(** ** Conv2D *)

(** Modelled from the spec: the node [Conv2D] of [main/graph.hh], which is
    not among the sources.  The input is a row vector that holds the input
    channels one after the other, each in row-major order; the kernel [K]
    has [out_ch * k_r] rows and [in_ch * k_c] columns; the output is a row
    vector that holds the output channels in the same layout.  A cell
    outside the input is the zero of the padding.  The products and sums
    are those of binary32. *)
Module Conv.

(** The arguments of the constructor of [Conv2D]. *)
Record Conv2D : Type := mkConv2D {
  in_rows : Z; in_cols : Z;
  in_channels : Z; out_channels : Z;
  k_rows : Z; k_cols : Z;
  stride : Z; padding : Z; dilation : Z
}.

(** [floor((size + 2 * pad - dilation * (k - 1) - 1) / stride) + 1]. *)
Definition out_size (size k stride padding dilation : Z) : Z :=
  (size + 2 * padding - dilation * (k - 1) - 1) / stride + 1.

Definition out_rows (c : Conv2D) : Z :=
  out_size (in_rows c) (k_rows c) (stride c) (padding c) (dilation c).

Definition out_cols (c : Conv2D) : Z :=
  out_size (in_cols c) (k_cols c) (stride c) (padding c) (dilation c).

(** [0, 1, ..., n - 1]. *)
Definition range (n : Z) : list Z := map Z.of_nat (seq 0 (Z.to_nat n)).

(** The scalar of a row-major tensor at row [r] and column [c]. *)
Definition cell (T : Tensor) (r c : Z) : Z :=
  nth (Z.to_nat (r * cols T + c)) (data T) F32.zero.

(** The scalar of the padded input at channel [ch], row [r], column [c]. *)
Definition input_cell (cv : Conv2D) (x : Tensor) (ch r c : Z) : Z :=
  if (0 <=? r) && (r <? in_rows cv) && (0 <=? c) && (c <? in_cols cv)
  then cell x 0 ((ch * in_rows cv + r) * in_cols cv + c)
  else F32.zero.

(** The sum of a list of scalars, from the left. *)
Definition sum (l : list Z) : Z := fold_left F32.add l F32.zero.

(** The output scalar at channel [oc], row [r], column [c]. *)
Definition output_cell (cv : Conv2D) (x K : Tensor) (oc r c : Z) : Z :=
  sum (ic ← range (in_channels cv);
       kr ← range (k_rows cv);
       kc ← range (k_cols cv);
       [F32.mul (cell K (oc * k_rows cv + kr) (ic * k_cols cv + kc))
          (input_cell cv x ic
             (r * stride cv - padding cv + kr * dilation cv)
             (c * stride cv - padding cv + kc * dilation cv))]).

(** Modelled from the spec: [Conv2D::forward], the row vector of the
    output cells, channel by channel, row by row. *)
Definition forward (cv : Conv2D) (x K : Tensor) : Tensor :=
  mkTensor 1 (out_channels cv * out_rows cv * out_cols cv)
    (oc ← range (out_channels cv);
     r ← range (out_rows cv);
     c ← range (out_cols cv);
     [output_cell cv x K oc r c]).

(** The row-major reshape of a row vector, as [ConstTensorMap] reads it. *)
Definition reshape (y : Tensor) (r c : Z) : Tensor := mkTensor r c (data y).

End Conv.

(** The layer and the tensors of the single-channel forward test. *)
Definition conv_single : Conv.Conv2D := Conv.mkConv2D 2 3 1 1 2 2 1 1 2.
Definition conv_single_x : Tensor :=
  mkTensor 1 6 (map F32.of_Z [1; 2; 3; 4; 5; 6]).
Definition conv_single_K : Tensor := mkTensor 2 2 (map F32.of_Z [1; 2; 3; 4]).

(** The layer and the tensors of the multi-channel forward test. *)
Definition conv_multi : Conv.Conv2D := Conv.mkConv2D 2 3 2 3 2 2 1 1 2.
Definition conv_multi_x : Tensor :=
  mkTensor 1 12 (map F32.of_Z [1; 2; 3; 4; 5; 6; 7; 8; 9; 10; 11; 12]).
Definition conv_multi_K : Tensor :=
  mkTensor 6 4
    (map F32.of_Z [1; 2; 5; 6;  3; 4; 7; 8;  9; 10; 11; 12;
                   13; 14; 15; 16;  17; 18; 19; 20;  21; 22; 23; 24]).

(** ** Backward pass *)

(** Modelled from the spec: the backward pass of [main/graph.hh], which is
    not among the sources.  A graph is the list of its nodes in the order
    they were made.  A node carries its [backprop] flag, the zero of the
    dimensions of its value, and its derivative registrations: for each
    node it depends on, the index of that node and a pullback; called
    with the gradient of the node that holds the registration, the
    pullback gives a tensor to add into the gradient of the parent. *)
Module Backprop.

Section Backward.

Context {G : Type} (gadd : G -> G -> G).

(** Modelled from the spec: what the backward pass uses of a node: its
    [backprop] flag, the zero of the dimensions of its value, and its
    derivative registrations, "each registration is a pair (parent_node,
    pullback)", the parent given by its index. *)
Record Node : Type := mkNode {
  backprop : bool;
  zero : G;
  derivative : list (nat * (G -> G))
}.

(** What the pass holds for a node: whether the node is reached from the
    seeded output, and its gradient accumulator. *)
Record Slot : Type := mkSlot {
  reached : bool;
  gradient : G
}.

(** Modelled from the spec: "zero every node's gradient". *)
Definition zero_grad (nodes : list Node) : list Slot :=
  map (fun nd => mkSlot false (zero nd)) nodes.

(** Modelled from the spec: "set F.gradient = seed". *)
Definition seed_grad (nodes : list Node) (F : nat) (seed : G) : list Slot :=
  <[F := mkSlot true seed]> (zero_grad nodes).

(** Modelled from the spec: one registration invoked with the gradient
    [g] of its node: "the pullback is computed and added into the parent's
    gradient accumulator". *)
Definition accumulate (g : G) (table : list Slot) (reg : nat * (G -> G))
  : list Slot :=
  match table !! fst reg with
  | Some s => <[fst reg := mkSlot true (gadd (gradient s) (snd reg g))]> table
  | None => table
  end.

(** Modelled from the spec: the pass at node [i].  A node that is not
    reached from the seeded output has nothing to pass on; a reached node
    invokes "each registered pullback once"; "a node with backprop ==
    false is skipped (its gradient and pullbacks suppressed)". *)
Definition visit (nodes : list Node) (table : list Slot) (i : nat)
  : list Slot :=
  match nodes !! i, table !! i with
  | Some nd, Some s =>
      if reached s then
        if backprop nd
        then fold_left (accumulate (gradient s)) (derivative nd) table
        else <[i := mkSlot true (zero nd)]> table
      else table
  | _, _ => table
  end.

(** Modelled from the spec: [Graph::backward(F, seed)]; the nodes are
    visited from the last one made to the first, which is a reverse
    topological order. *)
Definition backward (nodes : list Node) (F : nat) (seed : G) : list Slot :=
  fold_left (visit nodes) (rev (seq 0 (length nodes)))
    (seed_grad nodes F seed).

(** The table when the nodes from [i] on are visited. *)
Definition visited_from (nodes : list Node) (F : nat) (seed : G) (i : nat)
  : list Slot :=
  fold_left (visit nodes) (rev (seq i (length nodes - i)))
    (seed_grad nodes F seed).

(** The nodes are in the order they were made: a registration names a
    node made before the one that holds it. *)
Definition ordered (nodes : list Node) : Prop :=
  forall c nd reg,
    nodes !! c = Some nd -> In reg (derivative nd) -> (fst reg < c)%nat.

(** The nodes reached forward-wise from the seeded output [F]: [F], and
    the parents named by the registrations of a reached node whose flag
    is on. *)
Inductive flows (nodes : list Node) (F : nat) : nat -> Prop :=
  | flows_seed : (F < length nodes)%nat -> flows nodes F F
  | flows_step (c : nat) (nd : Node) (reg : nat * (G -> G)) :
      flows nodes F c ->
      nodes !! c = Some nd -> backprop nd = true ->
      In reg (derivative nd) -> (fst reg < length nodes)%nat ->
      flows nodes F (fst reg).

(** Whether node [c] is marked in the table. *)
Definition is_reached (table : list Slot) (c : nat) : bool :=
  match table !! c with
  | Some s => reached s
  | None => false
  end.

(** What the registrations of node [c] add to the accumulator of node
    [m], given a test [active] of the nodes that are reached and the
    table that holds the gradient of [c]: nothing when [c] is not reached
    or its flag is off, else each pullback registered for [m], applied to
    the gradient of [c]. *)
Definition contribution (nodes : list Node) (active : nat -> bool)
  (table : list Slot) (m c : nat) : list G :=
  match nodes !! c, table !! c with
  | Some nd, Some s =>
      if active c && backprop nd
      then map (fun reg => snd reg (gradient s))
             (List.filter (fun reg => (fst reg =? m)%nat) (derivative nd))
      else []
  | _, _ => []
  end.

(** The tensors added to the accumulator of node [m] by the nodes from
    [i] on, from the last node made to the first. *)
Definition contributions_from (nodes : list Node) (active : nat -> bool)
  (table : list Slot) (m i : nat) : list G :=
  flat_map (contribution nodes active table m)
    (rev (seq i (length nodes - i))).

Definition contributions (nodes : list Node) (active : nat -> bool)
  (table : list Slot) (m : nat) : list G :=
  contributions_from nodes active table m 0.

(** What holds of the table when the nodes from [i] on are visited: the
    nodes marked are reached forward-wise from [F]; the parents of the
    visited nodes that pass their gradient on are marked; a node that is
    not marked, and a visited node whose flag is off, hold zero; the
    other accumulators hold what the visited nodes added to them. *)
Definition invariant (nodes : list Node) (F : nat) (seed : G) (i : nat)
  (T : list Slot) : Prop :=
  length T = length nodes
  /\ (forall m s, T !! m = Some s -> reached s = true -> flows nodes F m)
  /\ (exists s, T !! F = Some s /\ reached s = true)
  /\ (forall c nd sc reg,
        (i <= c)%nat -> nodes !! c = Some nd -> T !! c = Some sc ->
        reached sc = true -> backprop nd = true -> In reg (derivative nd) ->
        exists sp, T !! fst reg = Some sp /\ reached sp = true)
  /\ (forall m nd s,
        nodes !! m = Some nd -> T !! m = Some s -> reached s = false ->
        gradient s = zero nd)
  /\ (forall m nd s,
        nodes !! m = Some nd -> T !! m = Some s -> (i <= m)%nat ->
        backprop nd = false -> gradient s = zero nd)
  /\ (forall m nd s,
        nodes !! m = Some nd -> T !! m = Some s ->
        (m < i)%nat \/ backprop nd = true ->
        gradient s
        = fold_left gadd (contributions_from nodes (is_reached T) T m i)
            (if (m =? F)%nat then seed else zero nd)).

End Backward.

End Backprop.

(** *** The linear layer of the back-propagation test *)

(** Modelled from the spec: the matrix product of the tensor back end.
    The pullbacks of [Linear] are [dL/dW = g^T x], [dL/db = column-sum g]
    and [dL/dx = g W]. *)
Definition matmul (A B : Tensor) : Tensor :=
  mkTensor (rows A) (cols B)
    (i ← Conv.range (rows A);
     j ← Conv.range (cols B);
     [Conv.sum (map (fun k => F32.mul (Conv.cell A i k) (Conv.cell B k j))
                  (Conv.range (cols A)))]).

(** Modelled from the spec: the transpose of the tensor back end. *)
Definition transpose (A : Tensor) : Tensor :=
  mkTensor (cols A) (rows A)
    (j ← Conv.range (cols A);
     i ← Conv.range (rows A);
     [Conv.cell A i j]).

(** Modelled from the spec: the column sums of the tensor back end. *)
Definition colsum (A : Tensor) : Tensor :=
  mkTensor 1 (cols A)
    (map (fun j => Conv.sum (map (fun i => Conv.cell A i j)
                               (Conv.range (rows A))))
       (Conv.range (cols A))).

(** The tensor of the integers [l], row by row. *)
Definition tensor_of (r c : Z) (l : list Z) : Tensor :=
  mkTensor r c (map F32.of_Z l).

(** The graph of the test: [x] (flag off), [W], [b], and [y = x W^T + b],
    which holds the three registrations of [Linear]. *)
Definition bp_x : Tensor := tensor_of 1 2 [1; 2].
Definition bp_W : Tensor := tensor_of 3 2 [1; 2; 3; 4; 5; 6].

Definition bp_linear : list (nat * (Tensor -> Tensor)) :=
  [ (0%nat, fun g => matmul g bp_W);
    (1%nat, fun g => matmul (transpose g) bp_x);
    (2%nat, colsum) ].

Definition bp_nodes : list (Backprop.Node (G := Tensor)) :=
  [ Backprop.mkNode false (tensor_zero 1 2) [];
    Backprop.mkNode true (tensor_zero 3 2) [];
    Backprop.mkNode true (tensor_zero 1 3) [];
    Backprop.mkNode true (tensor_zero 1 3) bp_linear ].

(** The same graph with the flag of [x] on. *)
Definition bp_nodes_on : list (Backprop.Node (G := Tensor)) :=
  <[0%nat := Backprop.mkNode true (tensor_zero 1 2) []]> bp_nodes.

(** The same graph with the flag of [y] off. *)
Definition bp_nodes_off : list (Backprop.Node (G := Tensor)) :=
  <[3%nat := Backprop.mkNode false (tensor_zero 1 3) bp_linear]> bp_nodes.

(** ** GRU cell *)

Module GRU.

Local Open Scope R_scope.

(** The logistic function of the gates. *)
Definition sigmoid (x : R) : R := 1 / (1 + exp (- x)).

Definition vadd : list R -> list R -> list R := zip_with Rplus.
Definition vmul : list R -> list R -> list R := zip_with Rmult.
Definition scale (a : R) : list R -> list R := map (Rmult a).

(** Product of the row vector [x] with the matrix [W] (a list of rows of
    [n] columns). *)
Fixpoint vecmat (n : nat) (x : list R) (W : list (list R)) : list R :=
  match x, W with
  | xi :: x', row :: W' => vadd (scale xi row) (vecmat n x' W')
  | _, _ => repeat 0 n
  end.

(** Modelled from the spec: the parameters of a GRU node, six matrices and
    three biases, with [out_size] the size of the state. *)
Record Cell := mkCell {
  out_size : nat;
  Wz : list (list R); Uz : list (list R); bz : list R;
  Wr : list (list R); Ur : list (list R); br : list R;
  Wh : list (list R); Uh : list (list R); bh : list R
}.

(** [x W + h U + b], the affine map under each activation. *)
Definition affine (n : nat) (W U : list (list R)) (b x h : list R) : list R :=
  vadd (vadd (vecmat n x W) (vecmat n h U)) b.

Definition update_pre (g : Cell) (x h : list R) : list R :=
  affine (out_size g) (Wz g) (Uz g) (bz g) x h.

Definition reset_pre (g : Cell) (x h : list R) : list R :=
  affine (out_size g) (Wr g) (Ur g) (br g) x h.

Definition candidate_pre (g : Cell) (x h r : list R) : list R :=
  affine (out_size g) (Wh g) (Uh g) (bh g) x (vmul r h).

Definition blend (z h c : list R) : list R :=
  vadd (vmul z h) (vmul (map (fun zi => 1 - zi) z) c).

(** Modelled from the spec: the forward pass of the GRU node of
    [main/graph.hh], which is not among the sources.  The cell has six
    parameter matrices [Wz], [Uz], [Wr], [Ur], [Wh], [Uh] and three biases,
    and its update equations are the standard Cho-et-al form:

      z = sigmoid (x Wz + h Uz + bz)
      r = sigmoid (x Wr + h Ur + br)
      c = tanh (x Wh + (r . h) Uh + bh)
      y = z . h + (1 - z) . c

    with [x] and [h] row vectors and [.] the element-wise product.  The
    equations are taken over the real numbers: the rounding of the
    single-precision back end and of its exponential are not part of the
    model. *)
Definition forward (g : Cell) (x h : list R) : list R :=
  let z := map sigmoid (update_pre g x h) in
  let r := map sigmoid (reset_pre g x h) in
  let c := map tanh (candidate_pre g x h r) in
  blend z h c.

(** Component-wise distance at most [eps]. *)
Definition close (eps : R) (u v : list R) : Prop :=
  Forall2 (fun a b => Rabs (a - b) <= eps) u v.

(** Component-wise enclosure between [lo] and [hi]. *)
Definition inside (lo hi v : list R) : Prop :=
  Forall3 (fun l a u => l <= a <= u) lo v hi.

(** The comparison of the tests, [a.isApprox(b, prec)] of the matrix
    library: [|a - b|^2 <= prec^2 * min (|a|^2, |b|^2)]. *)
Definition squaredNorm (v : list R) : R :=
  fold_right Rplus 0 (map (fun a => a * a) v).

Definition isApprox (a b : list R) (prec : R) : Prop :=
  squaredNorm (zip_with Rminus a b)
    <= prec * prec * Rmin (squaredNorm a) (squaredNorm b).

(** The fixture of [test_gru_forward]. *)
Definition gru_test : Cell := {|
  out_size := 4;
  Wz := [[1; -4; 7; -9]; [2; -5; 8; -9]; [3; -6; 7; -9]];
  Uz := [[3; -6; 9; -9]; [2; -5; 8; -9]; [1; -4; 7; -9]; [-1; 1; -1; 1]];
  bz := [1; 2; -3; -4];
  Wr := [[2; -5; 8; -10]; [2; -5; 8; 10]; [3; -6; 9; -10]];
  Ur := [[3; -6; 9; -10]; [2; -5; 8; -10]; [1; -4; 7; -10]; [-1; 1; -1; 1]];
  br := [-1; 2; -3; -4];
  Wh := [[-4; -7; -7; 10]; [2; 5; 8; -12]; [3; -6; 5; 10]];
  Uh := [[3; 6; 9; -9]; [-2; 5; -8; 11]; [1; -4; 7; -10]; [-3; 2; -2; -3]];
  bh := [-1; 2; -3; -4]
|}.

Definition gru_x : list R := [1 / 100; - 2 / 100; 3 / 100].
Definition gru_h : list R := [1 / 100; - 2 / 100; 3 / 100; - 3 / 100].
Definition gru_y_hat : list R :=
  [- 1752 / 10000; 1165 / 10000; - 9301 / 10000; - 9866 / 10000].

(** Tolerance allowed to every stage of an evaluation of the fixture, and
    the enclosures of the stages under that tolerance. *)
Definition gru_eps : R := 1 / 10000.

Definition gru_az_lo : list R :=
  [11099000 / 10000000; 17699000 / 10000000; - 27101000 / 10000000; - 43901000 / 10000000].
Definition gru_az_hi : list R :=
  [11101000 / 10000000; 17701000 / 10000000; - 27099000 / 10000000; - 43899000 / 10000000].
Definition gru_z_lo : list R :=
  [7520102 / 10000000; 8543450 / 10000000; 622798 / 10000000; 121474 / 10000000].
Definition gru_z_hi : list R :=
  [7522480 / 10000000; 8545704 / 10000000; 624920 / 10000000; 123503 / 10000000].
Definition gru_ar_lo : list R :=
  [- 8801000 / 10000000; 17599000 / 10000000; - 26401000 / 10000000; - 48301000 / 10000000].
Definition gru_ar_hi : list R :=
  [- 8799000 / 10000000; 17601000 / 10000000; - 26399000 / 10000000; - 48299000 / 10000000].
Definition gru_r_lo : list R :=
  [2930568 / 10000000; 8530969 / 10000000; 665016 / 10000000; 78222 / 10000000].
Definition gru_r_hi : list R :=
  [2932988 / 10000000; 8533224 / 10000000; 667145 / 10000000; 80243 / 10000000].
Definition gru_ah_lo : list R :=
  [- 9444854 / 10000000; 15736639 / 10000000; - 29027948 / 10000000; - 35935382 / 10000000].
Definition gru_ah_hi : list R :=
  [- 9442445 / 10000000; 15739388 / 10000000; - 29024800 / 10000000; - 35931847 / 10000000].
Definition gru_c_lo : list R :=
  [- 7373765 / 10000000; 9175064 / 10000000; - 9940970 / 10000000; - 9985888 / 10000000].
Definition gru_c_hi : list R :=
  [- 7370661 / 10000000; 9177503 / 10000000; - 9938927 / 10000000; - 9983872 / 10000000].
Definition gru_y_lo : list R :=
  [- 1754420 / 10000000; 1162409 / 10000000; - 9304167 / 10000000; - 9869232 / 10000000].
Definition gru_y_hi : list R :=
  [- 1749869 / 10000000; 1166883 / 10000000; - 9298073 / 10000000; - 9863271 / 10000000].

End GRU.

(** ** Certified bounds on the exponential

    Fixed point with denominator [P]: the integer [a] stands for [a / P].
    [exp_lb P k num den] is a lower bound of [exp (num / den)], computed
    as [(1 + x / 2^k)^(2^k)] by [k] squarings rounded down. *)
Fixpoint sq_iter (P : Z) (k : nat) (a : Z) : Z :=
  match k with
  | O => a
  | S k' => sq_iter P k' (a * a / P)
  end.

Definition exp_lb (P : Z) (k : nat) (num den : Z) : Z :=
  sq_iter P k (P + num * P / (den * 2 ^ Z.of_nat k)).

Definition exp_ok (P : Z) (k : nat) (num den : Z) : bool :=
  (0 <? P) && (0 <? den) &&
  (0 <=? P + num * P / (den * 2 ^ Z.of_nat k)) &&
  (0 <? exp_lb P k num den).

Definition P64 : Z := 18446744073709551616.

(** ** Helpers of the unit tests ([utils/unittest.cc]) *)

(** Modelled from the spec: the place of the coefficient [(r, c)] of a
    tensor of the back end, whose layout is row-major (the test "Matrix
    Map" fixes it); [None] is an index out of range, which the back end
    asserts against. *)
Definition coeff_index (T : Tensor) (r c : Z) : option nat :=
  if (0 <=? r) && (r <? rows T) && (0 <=? c) && (c <? cols T)
  then Some (Z.to_nat (r * cols T + c))
  else None.

(** A tensor holds as many scalars as its dimensions say. *)
Definition sized (T : Tensor) : Prop :=
  length (data T) = Z.to_nat (rows T * cols T).

(** Modelled from the spec: [T(r, c)] read, and [T(r, c) = v]. *)
Definition coeff (T : Tensor) (r c : Z) : option Z :=
  i ← coeff_index T r c; data T !! i.

Definition set_coeff (T : Tensor) (r c : Z) (v : Z) : option Tensor :=
  i ← coeff_index T r c;
  Some (mkTensor (rows T) (cols T) (<[i := v]> (data T))).

(** The loop of the helper [tensor]: [t(i / cols, i % cols) = *it] for
    every value of the list, [i] counting from the index given.  The
    division is the one of [int]; by zero it is undefined ([None]). *)
Fixpoint tensor_fill (vals : list Z) (i : Z) (t : Tensor) : option Tensor :=
  match vals with
  | [] => Some t
  | v :: vals' =>
      if cols t =? 0 then None
      else
        t' ← set_coeff t (Z.quot i (cols t)) (Z.rem i (cols t)) v;
        tensor_fill vals' (to_int (i + 1)) t'
  end.

(** [tensor(rows, cols, vals)].  [Tensor t(rows, cols)] leaves the
    coefficients uninitialised: [fresh] is what the storage holds then. *)
Definition tensor (rows cols : Z) (vals : list Z) (fresh : list Z)
  : option Tensor :=
  if (rows <? 0) || (cols <? 0) then None
  else tensor_fill vals 0 (mkTensor rows cols fresh).

(** ** Order of the scalars *)

(** Modelled from the spec: [a > b] on two scalars of the back end, the
    comparison of IEEE 754 binary32, false when either side is a NaN. *)
Definition f32_gt (a b : Z) : bool := SFltb (F32.of_bits b) (F32.of_bits a).

(** The place of a number that is not a NaN in the order: its class and
    sign, then exponent and mantissa, compared in this order. *)
Definition order_key (x : spec_float) : Z * Z * Z :=
  match x with
  | S754_zero _ | S754_nan => (0, 0, 0)
  | S754_infinity s => (if s then -2 else 2, 0, 0)
  | S754_finite s m e =>
      if s then (-1, - e, Z.neg m) else (1, e, Z.pos m)
  end.

Definition key_compare (a b : Z * Z * Z) : comparison :=
  match fst (fst a) ?= fst (fst b) with
  | Eq =>
      match snd (fst a) ?= snd (fst b) with
      | Eq => snd a ?= snd b
      | c => c
      end
  | c => c
  end.

Definition not_nan (x : spec_float) : Prop := x <> S754_nan.

(** ** The CIFAR10 training client *)

Module CIFAR10.

(** The loop of [get_output], [n] rounds to go from row [i]: the row of
    the largest coefficient of column 0 so far, and that coefficient. *)
Fixpoint get_output_loop (n : nat) (i : Z) (out : Tensor) (max_i max_v : Z)
  : option Z :=
  match n with
  | O => Some max_i
  | S n' =>
      v ← coeff out i 0;
      if f32_gt v max_v
      then get_output_loop n' (i + 1) out i v
      else get_output_loop n' (i + 1) out max_i max_v
  end.

(** [get_output]: [OUTPUT], the number of classes, is a constant of the
    model header, which is not among the sources. *)
Definition get_output (OUTPUT : Z) (out : Tensor) : option Z :=
  get_output_loop (Z.to_nat OUTPUT) 0 out (-1) F32.zero.

(** [in.block(0, 0, INPUT, 1) = ...]: the values [vs] written down
    column 0 from row [i]. *)
Fixpoint set_column (vs : list Z) (i : Z) (T : Tensor) : option Tensor :=
  match vs with
  | [] => Some T
  | v :: vs' => T' ← set_coeff T i 0 v; set_column vs' (i + 1) T'
  end.

(** [(label == i)] as a scalar: one or zero. *)
Definition one_hot (label i : Z) : Z :=
  if label =? i then F32.of_Z 1 else F32.of_Z 0.

(** The loop [out(i, 0) = (label == i)] of [set_input], [n] rounds to go
    from row [i]. *)
Fixpoint set_label (n : nat) (i : Z) (label : Z) (out : Tensor)
  : option Tensor :=
  match n with
  | O => Some out
  | S n' =>
      out' ← set_coeff out i 0 (one_hot label i);
      set_label n' (i + 1) label out'
  end.

(** [set_input], on two distinct tensors: the first [INPUT] scalars of
    the image go to column 0 of [in], divided by their norm plus
    [EPSILON], and [out] takes the label one-hot.  [INPUT], [OUTPUT] are
    constants of the model header; [normalized] is the division by the
    norm, which the matrix library computes. *)
Definition set_input (INPUT OUTPUT : Z) (normalized : list Z -> list Z)
  (inp out : Tensor) (image : list Z) (label : Z)
  : option (Tensor * Tensor) :=
  if (INPUT <? 0) || (Z.of_nat (length image) <? INPUT) then None
  else
    inp' ← set_column (normalized (take (Z.to_nat INPUT) image)) 0 inp;
    out' ← set_label (Z.to_nat OUTPUT) 0 label out;
    Some (inp', out').

(** What the loop of [get_output] has established before row [i]: no
    coefficient above is greater than [max_v]; either none was greater
    than zero, or [max_i] is the first row that holds the greatest one. *)
Definition argmax_upto (out : Tensor) (i max_i max_v : Z) : Prop :=
  F32.is_nan max_v = false
  /\ (forall j w, 0 <= j < i -> coeff out j 0 = Some w ->
      f32_gt w max_v = false)
  /\ ((max_i = -1 /\ max_v = F32.zero)
      \/ (0 <= max_i < i /\ coeff out max_i 0 = Some max_v
          /\ f32_gt max_v F32.zero = true
          /\ forall j w, 0 <= j < max_i -> coeff out j 0 = Some w ->
             F32.is_nan w = false -> f32_gt max_v w = true)).

End CIFAR10.

(** ** Positional encoding (the transformer model header) *)

(** The loop [for (int i = 0; i < emb_size; i += 2) div_term(i / 2) = ...]
    of the constructor of [PositionalEncoding], [n] rounds at most from
    [i]: the indices of [div_term] it writes, in order.  The values, which
    go through [exp], are left out. *)
Fixpoint div_term_indices (n : nat) (i emb_size : Z) : list Z :=
  match n with
  | O => []
  | S n' =>
      if i <? emb_size
      then Z.quot i 2 :: div_term_indices n' (to_int (i + 2)) emb_size
      else []
  end.

(** [Tensor div_term(1, emb_size / 2)]: the number of coefficients of
    [div_term]. *)
Definition div_term_size (emb_size : Z) : Z := Z.quot emb_size 2.

(** ** The unit test harness (class [UnitTest] and its macros) *)

Module UnitTest.

(** [std::endl] as it reaches the stream: a line feed. *)
Definition endl : string := String (Ascii.ascii_of_nat 10) "".

(** The members of a [UnitTest]: whether the body ran to its end, the log
    of the failures, and the position of the assertion under way ([-1] and
    the null pointer outside an assertion). *)
Record UnitTest : Type := mkUnitTest {
  _done : bool;
  _log : string;
  _line : Z;
  _file : option string
}.

(** What the constructor writes to [std::cout]. *)
Definition header (text : string) : string := "test [" +:+ text +:+ "]: ".

(** The constructor: the state it leaves and what it writes. *)
Definition create (text : string) : UnitTest * string :=
  (mkUnitTest false "" (-1) None, header text).

Definition finish (u : UnitTest) : UnitTest :=
  mkUnitTest true (_log u) (_line u) (_file u).

Definition set_position (line : Z) (file : option string) (u : UnitTest)
  : UnitTest :=
  mkUnitTest (_done u) (_log u) line file.

(** [log]: the position, when a file is set, then the message and
    [std::endl], appended to [_log]. *)
Definition log (msg : string) (u : UnitTest) : UnitTest :=
  let position :=
    match _file u with
    | Some file => pretty (_line u) +:+ ":" +:+ file +:+ " "
    | None => ""
    end in
  mkUnitTest (_done u) (_log u +:+ position +:+ msg +:+ endl)
    (_line u) (_file u).

(** [end_log], which the destructor calls: what it writes to
    [std::cout]. *)
Definition end_log (u : UnitTest) : string :=
  let log_str := _log u in
  (if negb (_done u) then "UNFINISHED" +:+ endl
   else if (String.length log_str =? 0)%nat then "OK" +:+ endl
   else "FAILED" +:+ endl) +:+ log_str.

(** How the evaluation of an expression or of a statement of a test body
    ends: it yields a value, or it throws a [std::exception] whose
    [what()] is the string. *)
Inductive evaluation (A : Type) : Type :=
  | Returns (a : A)
  | Throws (what : string).
Arguments Returns {A} a.
Arguments Throws {A} what.

(** A statement of a test body, as far as the harness sees it: the macro
    [ASSERT(expr)] at a line of a file, or any other statement. *)
Inductive statement : Type :=
  | ASSERT (line : Z) (file : string) (expr : evaluation bool)
  | Statement (run : evaluation unit).

(** The macro [ASSERT]: the position is set, the expression evaluated, a
    failure logged, the position reset.  An exception of the expression
    leaves the position set. *)
Definition run_assert (line : Z) (file : string) (expr : evaluation bool)
  (u : UnitTest) : UnitTest * option string :=
  let u := set_position line (Some file) u in
  match expr with
  | Throws what => (u, Some what)
  | Returns b =>
      let u := if negb b then log "assert failure" u else u in
      (set_position (-1) None u, None)
  end.

(** The statements between [TEST_BEGIN] and [TEST_END], up to the first
    exception. *)
Fixpoint run_body (body : list statement) (u : UnitTest)
  : UnitTest * option string :=
  match body with
  | [] => (u, None)
  | ASSERT line file expr :: body' =>
      match run_assert line file expr u with
      | (u', None) => run_body body' u'
      | thrown => thrown
      end
  | Statement (Returns _) :: body' => run_body body' u
  | Statement (Throws what) :: _ => (u, Some what)
  end.

(** [TEST_BEGIN(text) body TEST_END()]: everything written to
    [std::cout].  The body runs in a [try]; [finish] follows it; the
    handler logs [what()]; the destructor reports at the end of the
    block. *)
Definition TEST (text : string) (body : list statement) : string :=
  let '(u, out) := create text in
  let '(u, thrown) := run_body body u in
  let u :=
    match thrown with
    | None => finish u
    | Some what => log what u
    end in
  out +:+ end_log u.

(** The statements that complete, and the assertions that hold. *)
Definition completes (s : statement) : bool :=
  match s with
  | ASSERT _ _ (Returns _) | Statement (Returns _) => true
  | _ => false
  end.

Definition holds (s : statement) : bool :=
  match s with
  | ASSERT _ _ (Returns b) => b
  | Statement (Returns _) => true
  | _ => false
  end.

(** The line of the log for a failed assertion, and the lines of the
    failed assertions of a body. *)
Definition failure_line (line : Z) (file : string) : string :=
  pretty line +:+ ":" +:+ file +:+ " assert failure" +:+ endl.

Fixpoint failure_lines (body : list statement) : string :=
  match body with
  | [] => ""
  | ASSERT line file (Returns false) :: body' =>
      failure_line line file +:+ failure_lines body'
  | _ :: body' => failure_lines body'
  end.

(** The line of the log for the exception of a statement. *)
Definition exception_line (s : statement) : string :=
  match s with
  | ASSERT line file (Throws what) =>
      pretty line +:+ ":" +:+ file +:+ " " +:+ what +:+ endl
  | Statement (Throws what) => what +:+ endl
  | _ => ""
  end.

(** Outside an assertion no position is set. *)
Definition idle (u : UnitTest) : Prop := _line u = -1 /\ _file u = None.

End UnitTest.

(** * Properties *)

(** ** Scalars and codec *)

Example f32_one : F32.of_Z 1 = 0x3F800000.
Proof. reflexivity. Qed.

Example f32_add_small : F32.add (F32.of_Z 20) (F32.of_Z 16) = F32.of_Z 36.
Proof. vm_compute. reflexivity. Qed.

(** [0.1f + 0.2f = 0.3f], by their bit patterns. *)
Example f32_add_tenths : F32.add 0x3DCCCCCD 0x3E4CCCCD = 0x3E99999A.
Proof. vm_compute. reflexivity. Qed.

Example f32_nan_is_nan : F32.is_nan f32_nan = true.
Proof. reflexivity. Qed.

Example f32_add_rounds :
  F32.sub (F32.add (F32.of_Z 16777216) (F32.of_Z 1)) (F32.of_Z 16777216)
  = F32.zero.
Proof. vm_compute. reflexivity. Qed.

(** *** The binary32 reading of a word *)

(** A word splits into its sign bit, its exponent field and its mantissa
    field. *)
Lemma f32_fields (w : Z) :
  F32.is_word w ->
  let e := Z.land (Z.shiftr w 23) 255 in
  let m := Z.land w (2 ^ 23 - 1) in
  0 <= e <= 255 /\ 0 <= m < 2 ^ 23 /\
  w = F32.sign_bit (Z.testbit w 31) + e * 2 ^ 23 + m.
Proof.
  unfold F32.is_word. intros Hw. cbn zeta.
  change 255 with (Z.ones 8). change (2 ^ 23 - 1) with (Z.ones 23).
  rewrite !Z.land_ones, Z.shiftr_div_pow2 by lia.
  assert (Hs : F32.sign_bit (Z.testbit w 31) = 2 ^ 31 * (w / 2 ^ 31)).
  { destruct (Z.testbit w 31) eqn:Hb; unfold F32.sign_bit.
    - apply Z.testbit_true in Hb; [| lia].
      assert (w / 2 ^ 31 < 2) by (apply Z.div_lt_upper_bound; lia).
      assert (0 <= w / 2 ^ 31) by (apply Z.div_pos; lia).
      assert (w / 2 ^ 31 = 1).
      { destruct (Z.eq_dec (w / 2 ^ 31) 0) as [E | E]; [| lia].
        rewrite E in Hb. discriminate Hb. }
      lia.
    - apply Z.testbit_false in Hb; [| lia].
      assert (w / 2 ^ 31 < 2) by (apply Z.div_lt_upper_bound; lia).
      assert (0 <= w / 2 ^ 31) by (apply Z.div_pos; lia).
      assert (w / 2 ^ 31 = 0).
      { destruct (Z.eq_dec (w / 2 ^ 31) 1) as [E | E]; [| lia].
        rewrite E in Hb. discriminate Hb. }
      lia. }
  rewrite Hs.
  change (2 ^ 31) with (2 ^ 23 * 2 ^ 8). rewrite <- Z.div_div by lia.
  pose proof (Z.div_mod w (2 ^ 23) ltac:(lia)).
  pose proof (Z.div_mod (w / 2 ^ 23) (2 ^ 8) ltac:(lia)).
  pose proof (Z.mod_pos_bound w (2 ^ 23) ltac:(lia)).
  pose proof (Z.mod_pos_bound (w / 2 ^ 23) (2 ^ 8) ltac:(lia)).
  change (Z.ones 8) with 255. lia.
Qed.

(** The pattern of the reading of a word is the word, NaNs apart (a NaN
    reads back as the canonical one). *)
Lemma f32_to_bits_of_bits (w : Z) :
  F32.is_word w -> F32.is_nan w = false -> F32.to_bits (F32.of_bits w) = w.
Proof.
  intros Hw Hnan. destruct (f32_fields w Hw) as (He & Hm & Heq).
  unfold F32.is_nan in Hnan. unfold F32.of_bits in *.
  set (e := Z.land (Z.shiftr w 23) 255) in *.
  set (m := Z.land w (2 ^ 23 - 1)) in *.
  destruct (Z.eqb_spec e 0) as [E0 | E0].
  - destruct m as [| p | p] eqn:Em; cbn [F32.to_bits]; try lia.
    replace (2 ^ 23 <=? Z.pos p) with false by (symmetry; apply Z.leb_gt; lia).
    lia.
  - destruct (Z.eqb_spec e 255) as [E255 | E255].
    + destruct (Z.eqb_spec m 0) as [M0 | M0]; [| discriminate Hnan].
      cbn [F32.to_bits]. lia.
    + destruct (m + 2 ^ 23) as [| p | p] eqn:Em; try lia.
      cbn [F32.to_bits].
      replace (2 ^ 23 <=? Z.pos p) with true by (symmetry; apply Z.leb_le; lia).
      lia.
Qed.

Lemma digits2_pos_bounds (p : positive) :
  2 ^ (Z.pos (digits2_pos p) - 1) <= Z.pos p < 2 ^ Z.pos (digits2_pos p).
Proof.
  induction p as [p IH | p IH |]; cbn [digits2_pos];
    rewrite ?Pos2Z.inj_succ.
  - replace (Z.succ (Z.pos (digits2_pos p)) - 1)
      with (Z.succ (Z.pos (digits2_pos p) - 1)) by lia.
    rewrite !Z.pow_succ_r by lia. lia.
  - replace (Z.succ (Z.pos (digits2_pos p)) - 1)
      with (Z.succ (Z.pos (digits2_pos p) - 1)) by lia.
    rewrite !Z.pow_succ_r by lia. lia.
  - cbn. lia.
Qed.

(** The reading of a word is a binary32 number: its mantissa and its
    exponent are in the bounds of the format. *)
Lemma f32_of_bits_valid (w : Z) :
  F32.is_word w -> valid_binary F32.prec F32.emax (F32.of_bits w) = true.
Proof.
  intros Hw. destruct (f32_fields w Hw) as (He & Hm & _).
  unfold F32.of_bits.
  set (e := Z.land (Z.shiftr w 23) 255) in *.
  set (m := Z.land w (2 ^ 23 - 1)) in *.
  destruct (Z.eqb_spec e 0) as [E0 | E0].
  - destruct m as [| p | p] eqn:Em; try reflexivity.
    cbn [valid_binary]. unfold bounded, canonical_mantissa, fexp, emin,
      F32.prec, F32.emax.
    pose proof (digits2_pos_bounds p) as [Hlo _].
    assert (Hd : Z.pos (digits2_pos p) <= 23).
    { destruct (Z_le_gt_dec (Z.pos (digits2_pos p)) 23) as [H | H]; [exact H |].
      pose proof (Z.pow_le_mono_r 2 23 (Z.pos (digits2_pos p) - 1)
                    ltac:(lia) ltac:(lia)). lia. }
    apply andb_true_iff. split; [apply Z.eqb_eq | apply Z.leb_le]; lia.
  - destruct (Z.eqb_spec e 255) as [E255 | E255].
    + destruct (m =? 0); reflexivity.
    + destruct (m + 2 ^ 23) as [| p | p] eqn:Em; try reflexivity.
      cbn [valid_binary]. unfold bounded, canonical_mantissa, fexp, emin,
        F32.prec, F32.emax.
      pose proof (digits2_pos_bounds p) as [Hlo Hhi].
      assert (Hd : Z.pos (digits2_pos p) = 24).
      { destruct (Z_le_gt_dec (Z.pos (digits2_pos p)) 23) as [H | H].
        - pose proof (Z.pow_le_mono_r 2 (Z.pos (digits2_pos p)) 23
                        ltac:(lia) H). lia.
        - destruct (Z_le_gt_dec 25 (Z.pos (digits2_pos p))) as [H' | H'];
            [| lia].
          pose proof (Z.pow_le_mono_r 2 24 (Z.pos (digits2_pos p) - 1)
                        ltac:(lia) ltac:(lia)). lia. }
      apply andb_true_iff. split; [apply Z.eqb_eq | apply Z.leb_le]; lia.
Qed.

Example write_int_minus2 :
  write_int (-2) = [Byte.xfe; Byte.xff; Byte.xff; Byte.xff].
Proof. reflexivity. Qed.

Example read_int_short : read_int [Byte.x01; Byte.x00] = None.
Proof. reflexivity. Qed.

(** *** Round trips *)

Lemma to_int_id (z : Z) : is_int z -> to_int z = z.
Proof.
  unfold is_int, to_int, INT_MIN, INT_MAX. intros H.
  rewrite Z.mod_small by lia. lia.
Qed.

Lemma to_int_mod (z : Z) : to_int (z mod 2 ^ 32) = to_int z.
Proof.
  unfold to_int. f_equal.
  rewrite Zplus_mod_idemp_l. reflexivity.
Qed.

Lemma to_int_range (z : Z) : is_int (to_int z).
Proof.
  unfold is_int, to_int, INT_MIN, INT_MAX.
  pose proof (Z.mod_pos_bound (z + 2 ^ 31) (2 ^ 32)). lia.
Qed.

Lemma le_split_4_app (z : Z) (rest : list byte) :
  take 4 (le_split 4 z ++ rest) = le_split 4 z /\
  drop 4 (le_split 4 z ++ rest) = rest /\
  (4 <=? length (le_split 4 z ++ rest))%nat = true.
Proof.
  pose proof (length_le_split 4 z) as Hl.
  split; [| split].
  - rewrite take_app_length'; auto.
  - rewrite drop_app_length'; auto.
  - apply Nat.leb_le. rewrite length_app. lia.
Qed.

Lemma read_int_write_int (x : Z) (rest : list byte) :
  is_int x -> read_int (write_int x ++ rest) = Some (x, rest).
Proof.
  intros Hx. unfold read_int, write_int.
  destruct (le_split_4_app x rest) as (Ht & Hd & Hl).
  rewrite Hl, Ht, Hd, le_combine_split.
  change (Z.of_nat 4 * 8) with 32.
  rewrite to_int_mod, to_int_id; auto.
Qed.

Lemma read_string_write_string (str rest : list byte) :
  Z.of_nat (length str) <= INT_MAX ->
  read_string (write_string str ++ rest) = Some (str, rest).
Proof.
  intros Hlen. unfold read_string, write_string.
  rewrite <- app_assoc, read_int_write_int
    by (unfold is_int, INT_MIN, INT_MAX in *; lia).
  cbn. replace (Z.of_nat (length str) <? 0) with false
    by (symmetry; apply Z.ltb_ge; lia).
  rewrite Nat2Z.id.
  replace (length str <=? length (str ++ rest))%nat with true
    by (symmetry; apply Nat.leb_le; rewrite length_app; lia).
  rewrite take_app_length, drop_app_length. reflexivity.
Qed.

Lemma read_values_write_values (l : list Z) (rest : list byte) :
  Forall F32.is_word l ->
  read_values (length l) (write_values l ++ rest) = Some (l, rest).
Proof.
  induction 1 as [| w l Hw Hl IH]; [reflexivity |].
  cbn [length write_values flat_map read_values].
  rewrite <- app_assoc.
  destruct (le_split_4_app w (flat_map (le_split 4) l ++ rest))
    as (Ht & Hd & Hlen).
  rewrite Hlen, Ht, Hd. fold (write_values l). rewrite IH. cbn.
  rewrite le_combine_split. change (Z.of_nat 4 * 8) with 32.
  unfold F32.is_word in Hw. rewrite Z.mod_small by lia. reflexivity.
Qed.

Lemma length_write_values (l : list Z) :
  length (write_values l) = (4 * length l)%nat.
Proof.
  induction l as [| w l IH]; [reflexivity |].
  cbn [write_values flat_map]. rewrite length_app, length_le_split.
  fold (write_values l). rewrite IH. cbn [length]. lia.
Qed.

Lemma read_tensor_write_tensor (T : Tensor) (rest : list byte) :
  wf_tensor T -> read_tensor (write_tensor T ++ rest) = Some (T, rest).
Proof.
  destruct T as [r c l]. unfold wf_tensor. cbn [rows cols data].
  intros (Hr & Hc & Hlen & Hall).
  unfold read_tensor, write_tensor. cbn [rows cols data].
  rewrite <- !app_assoc.
  rewrite read_int_write_int by (unfold is_int, INT_MIN, INT_MAX in *; lia).
  cbn [mbind option_bind].
  rewrite read_int_write_int by (unfold is_int, INT_MIN, INT_MAX in *; lia).
  cbn [mbind option_bind].
  replace (r <? 0) with false by (symmetry; apply Z.ltb_ge; lia).
  replace (c <? 0) with false by (symmetry; apply Z.ltb_ge; lia).
  cbn [orb]. rewrite <- Hlen, Nat2Z.id.
  replace (Z.of_nat (length (write_values l ++ rest)) <? 4 * Z.of_nat (length l))
    with false
    by (symmetry; apply Z.ltb_ge; rewrite length_app, length_write_values; lia).
  rewrite read_values_write_values by assumption. reflexivity.
Qed.

(** C2. Reading back what the codec wrote returns the value written, and
    leaves the stream where the value ended: for every [int], for every
    string whose length is an [int], and for every tensor, with its rows,
    its columns and the bit pattern of every scalar in row-major order. *)
Theorem codec_round_trip :
  (forall x rest, is_int x -> read_int (write_int x ++ rest) = Some (x, rest)) /\
  (forall str rest,
     Z.of_nat (length str) <= INT_MAX ->
     read_string (write_string str ++ rest) = Some (str, rest)) /\
  (forall T rest,
     wf_tensor T -> read_tensor (write_tensor T ++ rest) = Some (T, rest)).
Proof.
  split; [| split].
  - exact read_int_write_int.
  - exact read_string_write_string.
  - exact read_tensor_write_tensor.
Qed.

Lemma codec_round_trip_witness :
  read_int (write_int (-7)) = Some (-7, []) /\
  read_string (write_string [Byte.x68; Byte.x69]) = Some ([Byte.x68; Byte.x69], []) /\
  read_tensor (write_tensor tensor_2x3) = Some (tensor_2x3, []).
Proof.
  destruct codec_round_trip as (Hi & Hs & Ht).
  split; [| split].
  - rewrite <- (app_nil_r (write_int (-7))). apply Hi.
    unfold is_int, INT_MIN, INT_MAX. lia.
  - rewrite <- (app_nil_r (write_string _)). apply Hs.
    unfold INT_MAX. cbn. lia.
  - rewrite <- (app_nil_r (write_tensor _)). apply Ht.
    unfold wf_tensor, INT_MAX. cbn.
    repeat split; try lia.
    repeat constructor; vm_compute; congruence.
Defined.

(** ** [get_update] *)

Lemma write_updates_not_mismatch n : forall i cs ps out,
  write_updates n i cs ps out <> Fail VariableCountMismatch.
Proof.
  induction n as [| n IH]; intros i cs ps out; cbn; [discriminate |].
  destruct (cs !! i); [| discriminate].
  destruct (ps !! i); [| discriminate].
  destruct (tensor_sub _ _); [apply IH | discriminate].
Qed.

(** The loop writes the differences of the variables from [i] on, in
    order, after what was written before, and stops at a pair of
    variables of different dimensions. *)
Lemma write_updates_differences n : forall i cs ps out,
  length cs = (i + n)%nat ->
  length ps = (i + n)%nat ->
  write_updates n i cs ps out
  = match differences (drop i cs) (drop i ps) with
    | Some ds => Done (out ++ flat_map write_tensor ds)
    | None => Fail ShapeMismatch
    end.
Proof.
  induction n as [| n IH]; intros i cs ps out Hc Hp.
  - rewrite !drop_ge by lia. cbn. rewrite app_nil_r. reflexivity.
  - destruct (lookup_lt_is_Some_2 cs i) as [c Hci]; [lia |].
    destruct (lookup_lt_is_Some_2 ps i) as [p Hpi]; [lia |].
    rewrite (drop_S _ _ _ Hci), (drop_S _ _ _ Hpi).
    cbn [write_updates differences]. rewrite Hci, Hpi.
    destruct (tensor_sub c p) as [d |]; [| reflexivity].
    rewrite IH by lia. cbn [mbind option_bind].
    destruct (differences (drop (S i) cs) (drop (S i) ps)) as [ds |];
      [| reflexivity].
    cbn [mbind option_bind flat_map]. rewrite app_assoc. reflexivity.
Qed.

Lemma differences_Forall3 (cs ps ds : list Tensor) :
  Forall3 (fun c p d => tensor_sub c p = Some d) cs ps ds ->
  differences cs ps = Some ds.
Proof.
  induction 1 as [| c p d cs ps ds Hsub _ IH]; [reflexivity |].
  cbn. rewrite Hsub. cbn. rewrite IH. reflexivity.
Qed.

(** [get_update] on graphs of as many variables each. *)
Lemma get_update_differences (t : Training) :
  wf_graph (_curr t) ->
  length (variables (_curr t)) = length (variables (_prev t)) ->
  snd (get_update t)
  = match differences (variables (_curr t)) (variables (_prev t)) with
    | Some ds =>
        Done (write_int (Z.of_nat (length (variables (_curr t))))
              ++ flat_map write_tensor ds)
    | None => Fail ShapeMismatch
    end.
Proof.
  intros Hc Hlen. unfold get_update.
  rewrite (proj2 (Nat.eqb_eq _ _) Hlen). cbn [negb snd].
  unfold wf_graph in Hc.
  rewrite to_int_id by (unfold is_int, INT_MIN, INT_MAX in *; lia).
  rewrite Nat2Z.id, write_updates_differences by lia. reflexivity.
Qed.

(** The differences of variables that agree in dimensions pair by pair. *)
Lemma differences_same_shape (cs ps : list Tensor) :
  Forall2 (fun c p => same_shape c p = true) cs ps ->
  differences cs ps = Some (zip_with tensor_minus cs ps).
Proof.
  induction 1 as [| c p cs ps Hsh _ IH]; [reflexivity |].
  cbn. unfold tensor_sub. rewrite Hsh. cbn. rewrite IH. reflexivity.
Qed.

(** There is none when a pair differs in dimensions. *)
Lemma differences_shape_mismatch (cs : list Tensor) : forall ps,
  length cs = length ps ->
  ~ Forall2 (fun c p => same_shape c p = true) cs ps ->
  differences cs ps = None.
Proof.
  induction cs as [| c cs IH]; intros [| p ps] Hlen Hsh;
    try discriminate.
  - exfalso. apply Hsh. constructor.
  - cbn. unfold tensor_sub. destruct (same_shape c p) eqn:Hcp;
      [| reflexivity].
    cbn. rewrite IH; [reflexivity | cbn in Hlen; lia |].
    intros H. apply Hsh. constructor; assumption.
Qed.

(** C5. [get_update] fails with VariableCountMismatch exactly when the two
    graphs hold different numbers of variables, and it leaves the state
    as it was in every case.  When the numbers agree and [curr[i]] and
    [prev[i]] have the same dimensions at every index, it returns the
    count followed, index by index in insertion order, by the serialized
    differences [curr[i] - prev[i]]; when the numbers agree and the
    dimensions differ at some index, it returns nothing: the subtraction
    fails there. *)
Theorem get_update_spec (t : Training) :
  wf_training t ->
  fst (get_update t) = t /\
  (snd (get_update t) = Fail VariableCountMismatch <->
   length (variables (_curr t)) <> length (variables (_prev t))) /\
  (length (variables (_curr t)) = length (variables (_prev t)) ->
   Forall2 (fun c p => same_shape c p = true)
     (variables (_curr t)) (variables (_prev t)) ->
   snd (get_update t)
   = Done (write_int (Z.of_nat (length (variables (_curr t))))
           ++ flat_map write_tensor
                (zip_with tensor_minus
                   (variables (_curr t)) (variables (_prev t))))) /\
  (length (variables (_curr t)) = length (variables (_prev t)) ->
   ~ Forall2 (fun c p => same_shape c p = true)
       (variables (_curr t)) (variables (_prev t)) ->
   snd (get_update t) = Fail ShapeMismatch).
Proof.
  intros [Hc Hp].
  split; [unfold get_update; destruct (negb _); reflexivity |].
  split; [| split].
  - unfold get_update.
    destruct (Nat.eqb_spec (length (variables (_curr t)))
                (length (variables (_prev t)))) as [Heq | Hne];
      cbn [negb snd].
    + split; [| tauto]. intros H.
      exfalso. eapply write_updates_not_mismatch; exact H.
    + tauto.
  - intros Hlen Hsh.
    rewrite get_update_differences, (differences_same_shape _ _ Hsh)
      by assumption.
    reflexivity.
  - intros Hlen Hsh.
    rewrite get_update_differences, (differences_shape_mismatch _ _ Hlen Hsh)
      by assumption.
    reflexivity.
Qed.

Lemma get_update_spec_witness :
  snd (get_update st_two)
  = Done (write_int 2
          ++ flat_map write_tensor
               [mkTensor 1 2 [F32.of_Z 2; F32.of_Z 4]; mkTensor 1 1 [F32.zero]]).
Proof.
  refine (proj1 (proj2 (proj2 (get_update_spec st_two _))) eq_refl _).
  - unfold wf_training, wf_graph, INT_MAX. cbn. lia.
  - repeat constructor.
Defined.

(** C5 fails as stated when the counts agree and a pair of variables
    differs in dimensions: a snapshot variable that never took a value is
    0x0, the state [set_weights] leaves when the buffer ends after the
    count, and [get_update] then returns no buffer. *)
Lemma get_update_spec_counterexample :
  wf_training st_shapes /\
  length (variables (_curr st_shapes)) = length (variables (_prev st_shapes)) /\
  get_update st_shapes = (st_shapes, Fail ShapeMismatch) /\
  set_weights (write_int 1) st_one = (st_shapes, Fail CodecError).
Proof.
  split; [| split; [| split]].
  - unfold wf_training, wf_graph, INT_MAX. cbn. lia.
  - reflexivity.
  - vm_compute. reflexivity.
  - vm_compute. reflexivity.
Qed.

(** ** [set_weights]: what it leaves alone *)

Lemma create_variables_app n : forall g,
  variables (create_variables n g)
  = variables g ++ replicate n empty_tensor.
Proof.
  induction n as [| n IH]; intros g; cbn.
  - rewrite app_nil_r. reflexivity.
  - rewrite IH. cbn. rewrite <- app_assoc. reflexivity.
Qed.

Lemma ensure_variables_app (g : Graph) (size : Z) :
  wf_graph g -> is_int size ->
  variables (ensure_variables g size)
  = variables g
    ++ replicate (Z.to_nat (size - Z.of_nat (length (variables g))))
         empty_tensor.
Proof.
  unfold wf_graph, is_int, INT_MIN, INT_MAX, ensure_variables.
  intros Hg Hs.
  set (count := Z.of_nat (length (variables g))) in *.
  assert (Hc : 0 <= count) by (unfold count; lia).
  rewrite (to_int_id count) by (unfold is_int, INT_MIN, INT_MAX; lia).
  destruct (to_size_t count <? to_size_t size) eqn:Hlt.
  - apply create_variables_app.
  - apply Z.ltb_ge in Hlt. unfold to_size_t in Hlt.
    rewrite (Z.mod_small count) in Hlt by lia.
    destruct (Z_lt_le_dec size 0) as [Hneg | Hpos].
    + exfalso.
      replace (size mod 2 ^ 64) with (size + 2 ^ 64) in Hlt; [lia |].
      apply Z.mod_unique with (q := -1); lia.
    + rewrite Z.mod_small in Hlt by lia.
      replace (Z.to_nat (size - count)) with O by lia.
      cbn. rewrite app_nil_r. reflexivity.
Qed.

Lemma read_int_is_int (s s' : list byte) (n : Z) :
  read_int s = Some (n, s') -> is_int n.
Proof.
  unfold read_int. destruct (4 <=? length s)%nat; [| discriminate].
  intros [= <- _]. apply to_int_range.
Qed.

(** The loading loop touches the indices [i .. i+n-1] only, and changes
    no length. *)
Lemma load_weights_frame n : forall i s t,
  let t' := fst (load_weights n i s t) in
  length (variables (_curr t')) = length (variables (_curr t)) /\
  length (variables (_prev t')) = length (variables (_prev t)) /\
  _worker t' = _worker t /\
  forall j, (j < i \/ i + n <= j)%nat ->
    variables (_curr t') !! j = variables (_curr t) !! j /\
    variables (_prev t') !! j = variables (_prev t) !! j.
Proof.
  induction n as [| n IH]; intros i s t; cbn [load_weights].
  - cbn. auto.
  - destruct (read_tensor s) as [[T s'] |]; [| cbn; auto].
    destruct (variables (_curr t) !! i) eqn:Hci; [| cbn; auto].
    cbn [set_curr _prev variables].
    destruct (variables (_prev t) !! i) eqn:Hpi.
    + match goal with |- context [load_weights n (S i) s' ?t1] =>
        specialize (IH (S i) s' t1); cbn zeta in IH;
        destruct IH as (IHc & IHp & IHw & IHf)
      end.
      cbn [set_prev set_curr _curr _prev _worker variables] in *.
      rewrite length_insert in IHc, IHp.
      repeat split; try assumption.
      * destruct (IHf j ltac:(lia)) as [E _]. rewrite E.
        apply list_lookup_insert_ne. lia.
      * destruct (IHf j ltac:(lia)) as [_ E]. rewrite E.
        apply list_lookup_insert_ne. lia.
    + cbn. rewrite length_insert. repeat split; auto.
      apply list_lookup_insert_ne. lia.
Qed.

Lemma lookup_app_outside {A} (l : list A) (n : nat) (x : A) (j : nat) :
  (j < length l \/ length l + n <= j)%nat ->
  (l ++ replicate n x) !! j = l !! j.
Proof.
  intros [H | H].
  - apply lookup_app_l. exact H.
  - rewrite !lookup_ge_None_2; [reflexivity | lia |].
    rewrite length_app, length_replicate. lia.
Qed.

(** C10. [set_weights] with parsed count [N] only appends variables, up to
    [N] of them in each graph, and every variable at an index from [N] on
    keeps its value, whatever the rest of the buffer holds; a buffer too
    short for a count changes nothing. *)
Theorem set_weights_frame (weights : list byte) (t : Training) :
  wf_training t ->
  (read_int weights = None -> fst (set_weights weights t) = t) /\
  (forall N s, read_int weights = Some (N, s) ->
     let t' := fst (set_weights weights t) in
     Z.of_nat (length (variables (_curr t')))
     = Z.max (Z.of_nat (length (variables (_curr t)))) N /\
     Z.of_nat (length (variables (_prev t')))
     = Z.max (Z.of_nat (length (variables (_prev t)))) N /\
     forall j, N <= Z.of_nat j ->
       variables (_curr t') !! j = variables (_curr t) !! j /\
       variables (_prev t') !! j = variables (_prev t) !! j).
Proof.
  intros [Hc Hp]. unfold set_weights. split.
  - intros ->. reflexivity.
  - intros N s HN. rewrite HN. cbn zeta.
    pose proof (read_int_is_int _ _ _ HN) as HNint.
    match goal with |- context [load_weights ?n 0 s ?t1] =>
      destruct (load_weights_frame n 0 s t1) as (Lc & Lp & _ & Lf)
    end.
    cbn [_curr _prev] in Lc, Lp, Lf.
    rewrite Lc, Lp, !ensure_variables_app, !length_app, !length_replicate
      by assumption.
    split; [lia |]. split; [lia |].
    intros j Hj. destruct (Lf j ltac:(lia)) as [Ec Ep].
    rewrite Ec, Ep, !ensure_variables_app by assumption.
    split; apply lookup_app_outside; lia.
Qed.

Lemma set_weights_frame_witness :
  length (variables (_curr (fst (set_weights buf_one st_fresh)))) = 2%nat /\
  length (variables (_prev (fst (set_weights buf_one st_fresh)))) = 1%nat /\
  variables (_curr (fst (set_weights buf_one st_fresh))) !! 1%nat
  = variables (_curr st_fresh) !! 1%nat.
Proof.
  assert (Hwf : wf_training st_fresh).
  { unfold wf_training, wf_graph, INT_MAX. cbn. lia. }
  destruct (proj2 (set_weights_frame buf_one st_fresh Hwf) 1
              (write_tensor (mkTensor 1 1 [F32.of_Z 5])) eq_refl)
    as (Hc & Hp & Hf).
  split; [| split].
  - apply Nat2Z.inj. rewrite Hc. reflexivity.
  - apply Nat2Z.inj. rewrite Hp. reflexivity.
  - apply (Hf 1%nat). cbn. lia.
Defined.

(** ** Scalar subtraction *)

(** A finite scalar minus itself is [+0]. *)
Lemma SFsub_diag (x : spec_float) :
  match x with S754_infinity _ | S754_nan => False | _ => True end ->
  SFsub F32.prec F32.emax x x = S754_zero false.
Proof.
  destruct x as [s | s | | s m e]; cbn [SFsub]; try contradiction; intros _.
  - destruct s; reflexivity.
  - rewrite Z.sub_diag. reflexivity.
Qed.

Lemma f32_sub_diag (w : Z) :
  F32.is_finite w = true -> F32.sub w w = F32.zero.
Proof.
  unfold F32.is_finite, F32.sub. intros Hfin.
  apply negb_true_iff in Hfin.
  rewrite SFsub_diag; [reflexivity |].
  unfold F32.of_bits. rewrite Hfin.
  destruct (Z.land (Z.shiftr w 23) 255 =? 0).
  - destruct (Z.land w (2 ^ 23 - 1)); exact I.
  - assert (H : 0 <= Z.land w (2 ^ 23 - 1))
      by (apply Z.land_nonneg; right; lia).
    destruct (Z.land w (2 ^ 23 - 1) + 2 ^ 23) eqn:E; try exact I; lia.
Qed.

Lemma f32_is_zero_zero : F32.is_zero F32.zero = true.
Proof. reflexivity. Qed.

(** The zero tensor of the dimensions of [T]. *)
Lemma tensor_sub_diag (T : Tensor) :
  all_finite T ->
  tensor_sub T T
  = Some (mkTensor (rows T) (cols T)
            (replicate (length (data T)) F32.zero)).
Proof.
  unfold tensor_sub, same_shape, all_finite. intros Hfin.
  rewrite !Z.eqb_refl, Nat.eqb_refl. cbn [andb]. do 2 f_equal.
  induction Hfin as [| w l Hw Hl IH]; [reflexivity |].
  cbn. rewrite f32_sub_diag by exact Hw. f_equal. exact IH.
Qed.

(** ** The loops on well-formed buffers *)

Lemma get_weights_buffer (t : Training) :
  get_weights t = weights_buffer (variables (_curr t)).
Proof. reflexivity. Qed.

Lemma take_S_insert {A} (l : list A) (i : nat) (x : A) :
  (i < length l)%nat -> take (S i) (<[i := x]> l) = take i l ++ [x].
Proof.
  intros Hi.
  rewrite (take_S_r _ _ x) by (apply list_lookup_insert_eq; exact Hi).
  rewrite take_insert_ge by lia. reflexivity.
Qed.

(** On a buffer that holds the tensors [Ts], the loading loop writes them
    at the indices [i ..] of both graphs. *)
Lemma load_weights_ok (Ts : list Tensor) : forall i t rest,
  Forall wf_tensor Ts ->
  length (variables (_curr t)) = (i + length Ts)%nat ->
  length (variables (_prev t)) = (i + length Ts)%nat ->
  load_weights (length Ts) i (flat_map write_tensor Ts ++ rest) t
  = (mkTraining (mkGraph (take i (variables (_curr t)) ++ Ts))
                (mkGraph (take i (variables (_prev t)) ++ Ts))
                (_worker t), Done tt).
Proof.
  induction Ts as [| T Ts IH]; intros i t rest Hwf Hc Hp.
  - cbn in *. rewrite !app_nil_r, !take_ge by lia.
    destruct t as [[c] [p] w]. reflexivity.
  - inversion Hwf as [| ? ? HT Hwf']; subst.
    cbn [length flat_map load_weights] in *. rewrite <- app_assoc.
    rewrite read_tensor_write_tensor by exact HT.
    destruct (lookup_lt_is_Some_2 (variables (_curr t)) i) as [c Hci]; [lia |].
    destruct (lookup_lt_is_Some_2 (variables (_prev t)) i) as [p Hpi]; [lia |].
    rewrite Hci. cbn [set_curr _prev variables]. rewrite Hpi.
    rewrite IH; cbn [set_prev set_curr _curr _prev _worker variables];
      rewrite ?length_insert; try lia; [| exact Hwf'].
    rewrite !take_S_insert by lia. rewrite <- !app_assoc. reflexivity.
Qed.

(** [set_weights] on a well-formed buffer, in a state where no graph holds
    more variables than the buffer: both graphs hold the tensors of the
    buffer afterwards. *)
Lemma set_weights_ok (t : Training) (Ts : list Tensor) :
  Forall wf_tensor Ts ->
  Z.of_nat (length Ts) <= INT_MAX ->
  (length (variables (_curr t)) <= length Ts)%nat ->
  (length (variables (_prev t)) <= length Ts)%nat ->
  set_weights (weights_buffer Ts) t
  = (mkTraining (mkGraph Ts) (mkGraph Ts) (_worker t), Done tt).
Proof.
  intros Hwf HN Hc Hp. unfold set_weights, weights_buffer.
  assert (Hint : is_int (Z.of_nat (length Ts)))
    by (unfold is_int, INT_MIN, INT_MAX in *; lia).
  rewrite read_int_write_int by exact Hint.
  rewrite Nat2Z.id, <- (app_nil_r (flat_map write_tensor Ts)).
  rewrite load_weights_ok; cbn [_curr _prev _worker]; try exact Hwf;
    rewrite ?ensure_variables_app, ?length_app, ?length_replicate;
    try (unfold wf_graph, INT_MAX in *; lia); try exact Hint.
  reflexivity.
Qed.

Lemma get_update_done (t : Training) (ds : list Tensor) :
  wf_graph (_curr t) ->
  Forall3 (fun c p d => tensor_sub c p = Some d)
    (variables (_curr t)) (variables (_prev t)) ds ->
  snd (get_update t)
  = Done (write_int (Z.of_nat (length (variables (_curr t))))
          ++ flat_map write_tensor ds).
Proof.
  intros Hc HF.
  pose proof (Forall3_length_lm _ _ _ _ HF) as Hlen.
  rewrite get_update_differences, (differences_Forall3 _ _ _ HF)
    by assumption.
  reflexivity.
Qed.

(** On a buffer that holds the increments [Ds], of the dimensions of the
    variables from [i] on, the loop adds each to its variable and leaves
    the variables after them alone. *)
Lemma apply_updates_prefix (Ds : list Tensor) : forall i t rest,
  Forall wf_tensor Ds ->
  Forall2 (fun v D => same_shape v D = true)
    (take (length Ds) (drop i (variables (_curr t)))) Ds ->
  apply_updates (length Ds) i (flat_map write_tensor Ds ++ rest) t
  = (set_curr t
       (take i (variables (_curr t))
        ++ zip_with plus_delta (drop i (variables (_curr t))) Ds
        ++ drop (i + length Ds) (variables (_curr t))),
     Done tt).
Proof.
  induction Ds as [| D Ds IH]; intros i t rest Hwf HF.
  - cbn [length flat_map apply_updates].
    rewrite zip_with_nil_r, Nat.add_0_r. cbn [app].
    rewrite take_drop. destruct t as [[c] p w]. reflexivity.
  - inversion Hwf as [| ? ? HD Hwf']; subst.
    cbn [length] in HF.
    destruct (drop i (variables (_curr t))) as [| v vs] eqn:Hd;
      [inversion HF |].
    cbn [take] in HF. inversion HF as [| ? ? ? ? Hsh HF']; subst.
    assert (Hvi : variables (_curr t) !! i = Some v).
    { rewrite <- (Nat.add_0_r i), <- lookup_drop, Hd. reflexivity. }
    assert (Hlt : (i < length (variables (_curr t)))%nat)
      by (eapply lookup_lt_Some; exact Hvi).
    rewrite (drop_S _ _ _ Hvi) in Hd. injection Hd as Hd.
    cbn [length flat_map apply_updates]. rewrite <- app_assoc.
    rewrite read_tensor_write_tensor by exact HD.
    rewrite Hvi. unfold tensor_add. rewrite Hsh.
    fold (plus_delta v D).
    rewrite IH; cbn [set_curr _curr _prev _worker variables];
      rewrite ?drop_insert_lt by lia; [| exact Hwf' | rewrite Hd; exact HF'].
    rewrite take_S_insert by lia. rewrite <- app_assoc, Hd.
    replace (i + S (length Ds))%nat with (S i + length Ds)%nat by lia.
    reflexivity.
Qed.

Lemma apply_updates_ok (Ds : list Tensor) (i : nat) (t : Training)
  (rest : list byte) :
  Forall wf_tensor Ds ->
  Forall2 (fun v D => same_shape v D = true)
    (drop i (variables (_curr t))) Ds ->
  apply_updates (length Ds) i (flat_map write_tensor Ds ++ rest) t
  = (set_curr t (take i (variables (_curr t))
                 ++ zip_with plus_delta (drop i (variables (_curr t))) Ds),
     Done tt).
Proof.
  intros Hwf HF.
  pose proof (Forall2_length _ _ _ HF) as Hlen.
  rewrite length_drop in Hlen.
  rewrite apply_updates_prefix; [| exact Hwf |].
  - rewrite (drop_ge _ (i + length Ds)) by lia.
    rewrite app_nil_r. reflexivity.
  - rewrite take_ge by (rewrite length_drop; lia). exact HF.
Qed.

(** ** [set_weights], [upd_weights] and [get_update] together *)

Lemma sub_all_diag (Ts : list Tensor) :
  Forall all_finite Ts ->
  Forall3 (fun c p d => tensor_sub c p = Some d) Ts Ts (map zeros_like Ts).
Proof.
  induction 1 as [| T Ts HT _ IH]; cbn; constructor; auto.
  apply tensor_sub_diag. exact HT.
Qed.

Lemma zip_with_sub_add (a b : list Z) :
  zip_with F32.sub (zip_with F32.add a b) a
  = zip_with (fun w d => F32.sub (F32.add w d) w) a b.
Proof.
  revert b. induction a as [| x a IH]; intros [| y b]; cbn; auto.
  f_equal. apply IH.
Qed.

Lemma same_shape_length (A B : Tensor) :
  same_shape A B = true ->
  rows A = rows B /\ cols A = cols B /\ length (data A) = length (data B).
Proof.
  unfold same_shape. rewrite !andb_true_iff.
  intros [[Hr Hc] Hl]. apply Z.eqb_eq in Hr, Hc. apply Nat.eqb_eq in Hl.
  auto.
Qed.

Lemma tensor_sub_plus_delta (T D : Tensor) :
  same_shape T D = true ->
  tensor_sub (plus_delta T D) T = Some (rounded_delta T D).
Proof.
  intros Hsh. destruct (same_shape_length _ _ Hsh) as (_ & _ & Hl).
  unfold tensor_sub, same_shape, plus_delta, rounded_delta.
  cbn [rows cols data].
  rewrite !Z.eqb_refl, length_zip_with_l_eq by exact Hl.
  rewrite Nat.eqb_refl. cbn [andb]. rewrite zip_with_sub_add. reflexivity.
Qed.

Lemma sub_all_plus_delta (Ts Ds : list Tensor) :
  Forall2 (fun T D => same_shape T D = true) Ts Ds ->
  Forall3 (fun c p d => tensor_sub c p = Some d)
    (zip_with plus_delta Ts Ds) Ts (zip_with rounded_delta Ts Ds).
Proof.
  induction 1 as [| T D Ts Ds Hsh _ IH]; cbn; constructor; auto.
  apply tensor_sub_plus_delta. exact Hsh.
Qed.

Lemma all_zero_zeros_like (T : Tensor) : all_zero (zeros_like T).
Proof.
  unfold all_zero, zeros_like. cbn [data].
  apply Forall_replicate. reflexivity.
Qed.

(** C1, as the code has it.  In a state where neither graph holds more
    variables than the buffer [W] of finite weights [Ts], [set_weights W]
    returns and [get_update] then returns the zero tensors of the
    dimensions of [Ts]; when [upd_weights] is applied next, to a buffer of
    increments [Ds] of the same dimensions, [get_update] returns for each
    variable the increment as binary32 arithmetic gives it back,
    [(T + D) - T]. *)
Theorem set_weights_get_update (t : Training) (Ts Ds : list Tensor) :
  Forall wf_tensor Ts ->
  Forall all_finite Ts ->
  Z.of_nat (length Ts) <= INT_MAX ->
  (length (variables (_curr t)) <= length Ts)%nat ->
  (length (variables (_prev t)) <= length Ts)%nat ->
  let t1 := fst (set_weights (weights_buffer Ts) t) in
  snd (set_weights (weights_buffer Ts) t) = Done tt /\
  snd (get_update t1) = Done (weights_buffer (map zeros_like Ts)) /\
  Forall all_zero (map zeros_like Ts) /\
  (Forall wf_tensor Ds ->
   Forall2 (fun T D => same_shape T D = true) Ts Ds ->
   let t2 := fst (upd_weights (weights_buffer Ds) t1) in
   snd (upd_weights (weights_buffer Ds) t1) = Done tt /\
   snd (get_update t2)
   = Done (weights_buffer (zip_with rounded_delta Ts Ds))).
Proof.
  intros Hwf Hfin HN Hc Hp. cbn zeta.
  rewrite set_weights_ok by assumption. cbn [fst snd].
  split; [reflexivity |]. split; [| split].
  - rewrite (get_update_done _ (map zeros_like Ts)).
    + unfold weights_buffer. cbn [_curr variables].
      rewrite length_map. reflexivity.
    + exact HN.
    + apply sub_all_diag. exact Hfin.
  - apply Forall_map. apply Forall_forall. intros T _.
    apply all_zero_zeros_like.
  - intros HwfD Hsh.
    pose proof (Forall2_length _ _ _ Hsh) as Hlen.
    assert (Hupd : upd_weights (weights_buffer Ds)
                     (mkTraining (mkGraph Ts) (mkGraph Ts) (_worker t))
                   = (mkTraining (mkGraph (zip_with plus_delta Ts Ds))
                        (mkGraph Ts) (_worker t), Done tt)).
    { unfold upd_weights, weights_buffer.
      rewrite read_int_write_int
        by (unfold is_int, INT_MIN, INT_MAX in *; lia).
      rewrite Nat2Z.id, <- (app_nil_r (flat_map write_tensor Ds)).
      rewrite (apply_updates_ok Ds 0); [reflexivity | exact HwfD |].
      exact Hsh. }
    rewrite Hupd. cbn [fst snd]. split; [reflexivity |].
    rewrite (get_update_done _ (zip_with rounded_delta Ts Ds)).
    + unfold weights_buffer. cbn [_curr variables].
      rewrite !length_zip_with_l_eq by exact Hlen. reflexivity.
    + unfold wf_graph. cbn [_curr variables].
      rewrite length_zip_with_l_eq by exact Hlen. exact HN.
    + apply sub_all_plus_delta. exact Hsh.
Qed.

(** C1 fails as stated.  A worker whose model made two variables and that
    is given weights of one variable is left with two variables in [_curr]
    and one in [_prev], so [get_update] throws right after [set_weights];
    and a weight that is a NaN comes back as a NaN, not as zero. *)
Lemma set_weights_get_update_counterexample :
  (snd (set_weights buf_one st_fresh) = Done tt /\
   snd (get_update (fst (set_weights buf_one st_fresh)))
   = Fail VariableCountMismatch) /\
  (snd (set_weights buf_nan st_empty) = Done tt /\
   snd (get_update (fst (set_weights buf_nan st_empty)))
   = Done (weights_buffer [mkTensor 1 1 [f32_nan]]) /\
   F32.is_zero f32_nan = false).
Proof. vm_compute. repeat split. Qed.

Lemma set_weights_get_update_witness :
  snd (get_update (fst (set_weights buf_one st_empty)))
  = Done (weights_buffer [mkTensor 1 1 [F32.zero]]) /\
  snd (get_update
         (fst (upd_weights (weights_buffer [mkTensor 1 1 [F32.of_Z 3]])
                 (fst (set_weights buf_one st_empty)))))
  = Done (weights_buffer [mkTensor 1 1 [F32.of_Z 3]]).
Proof.
  assert (H5 : Forall wf_tensor [mkTensor 1 1 [F32.of_Z 5]]).
  { repeat constructor; vm_compute; congruence. }
  assert (H3 : Forall wf_tensor [mkTensor 1 1 [F32.of_Z 3]]).
  { repeat constructor; vm_compute; congruence. }
  assert (Hf : Forall all_finite [mkTensor 1 1 [F32.of_Z 5]]).
  { repeat constructor. }
  destruct (set_weights_get_update st_empty
              [mkTensor 1 1 [F32.of_Z 5]] [mkTensor 1 1 [F32.of_Z 3]]
              H5 Hf ltac:(vm_compute; congruence)
              ltac:(cbn; lia) ltac:(cbn; lia))
    as (_ & Hz & _ & Hd).
  split; [exact Hz |].
  apply Hd; [exact H3 | repeat constructor].
Defined.

(** ** [upd_weights]: the unchecked index *)

Lemma apply_updates_in_bounds n : forall i s t,
  (i + n <= length (variables (_curr t)))%nat ->
  snd (apply_updates n i s t) <> Fail OutOfRange.
Proof.
  induction n as [| n IH]; intros i s t Hlen; cbn [apply_updates].
  - discriminate.
  - destruct (read_tensor s) as [[D s'] |]; [| discriminate].
    destruct (lookup_lt_is_Some_2 (variables (_curr t)) i) as [v Hv]; [lia |].
    rewrite Hv. destruct (tensor_add v D); [| discriminate].
    apply IH. cbn [set_curr _curr variables]. rewrite length_insert. lia.
Qed.

(** When the buffer holds more increments than there are variables, and
    the increments fit the variables there are, the loop runs into the
    index one past the last variable. *)
Lemma apply_updates_past_end (Ds : list Tensor) : forall i t rest,
  Forall wf_tensor Ds ->
  (i <= length (variables (_curr t)) < i + length Ds)%nat ->
  Forall2 (fun v D => same_shape v D = true)
    (drop i (variables (_curr t)))
    (take (length (variables (_curr t)) - i) Ds) ->
  snd (apply_updates (length Ds) i (flat_map write_tensor Ds ++ rest) t)
  = Fail OutOfRange.
Proof.
  induction Ds as [| D Ds IH]; intros i t rest Hwf Hlen HF.
  - cbn in Hlen. lia.
  - inversion Hwf as [| ? ? HD Hwf']; subst.
    cbn [length flat_map apply_updates]. rewrite <- app_assoc.
    rewrite read_tensor_write_tensor by exact HD.
    destruct (variables (_curr t) !! i) as [v |] eqn:Hv; [| reflexivity].
    assert (Hlt : (i < length (variables (_curr t)))%nat)
      by (eapply lookup_lt_Some; exact Hv).
    rewrite (drop_S _ _ _ Hv) in HF.
    replace (length (variables (_curr t)) - i)%nat
      with (S (length (variables (_curr t)) - S i)) in HF by lia.
    cbn [take] in HF.
    inversion HF as [| ? ? ? ? Hsh HF']; subst.
    unfold tensor_add. rewrite Hsh.
    apply IH; cbn [set_curr _curr variables];
      rewrite ?length_insert, ?drop_insert_lt by lia;
      [exact Hwf' | cbn [length] in Hlen; lia | exact HF'].
Qed.

(** C9. [upd_weights] indexes the variables of [_curr] at [0 .. N-1] for
    the count [N] it reads, with no check: no access is out of range when
    [_curr] holds at least [N] variables; a buffer of more increments than
    [_curr] holds variables, fitting the variables there are, reaches the
    access past the end; and such a buffer exists. *)
Theorem upd_weights_bounds :
  (forall update t N s,
     read_int update = Some (N, s) ->
     N <= Z.of_nat (length (variables (_curr t))) ->
     snd (upd_weights update t) <> Fail OutOfRange) /\
  (forall t Ds,
     Forall wf_tensor Ds ->
     Z.of_nat (length Ds) <= INT_MAX ->
     (length (variables (_curr t)) < length Ds)%nat ->
     Forall2 (fun v D => same_shape v D = true)
       (variables (_curr t)) (take (length (variables (_curr t))) Ds) ->
     snd (upd_weights (weights_buffer Ds) t) = Fail OutOfRange) /\
  (exists update t N s,
     read_int update = Some (N, s) /\
     Z.of_nat (length (variables (_curr t))) < N /\
     snd (upd_weights update t) = Fail OutOfRange).
Proof.
  split; [| split].
  - intros update t N s HN Hle. unfold upd_weights. rewrite HN.
    apply apply_updates_in_bounds. lia.
  - intros t Ds Hwf HN Hlt HF. unfold upd_weights, weights_buffer.
    rewrite read_int_write_int
      by (unfold is_int, INT_MIN, INT_MAX in *; lia).
    rewrite Nat2Z.id, <- (app_nil_r (flat_map write_tensor Ds)).
    apply apply_updates_past_end; [exact Hwf | lia |].
    rewrite Nat.sub_0_r. exact HF.
  - exists buf_one, st_empty, 1, (write_tensor (mkTensor 1 1 [F32.of_Z 5])).
    repeat split.
Qed.

Lemma upd_weights_bounds_witness :
  snd (upd_weights buf_one st_empty) = Fail OutOfRange /\
  snd (upd_weights buf_one st_fresh) <> Fail OutOfRange.
Proof.
  split.
  - apply (proj1 (proj2 upd_weights_bounds) st_empty [mkTensor 1 1 [F32.of_Z 5]]).
    + repeat constructor; vm_compute; congruence.
    + vm_compute; congruence.
    + cbn; lia.
    + constructor.
  - apply (proj1 upd_weights_bounds buf_one st_fresh 1
             (write_tensor (mkTensor 1 1 [F32.of_Z 5])) eq_refl).
    cbn. lia.
Defined.

(** ** Further properties of the trait *)

Lemma graph_eta (g : Graph) : mkGraph (variables g) = g.
Proof. destruct g. reflexivity. Qed.

(** X1. [set_weights] applied to what [get_weights] returns leaves the live
    graph as it is and makes the snapshot equal to it, when the snapshot
    holds no more variables than the live graph. *)
Theorem set_weights_get_weights (t : Training) :
  wf_training t ->
  Forall wf_tensor (variables (_curr t)) ->
  (length (variables (_prev t)) <= length (variables (_curr t)))%nat ->
  set_weights (get_weights t) t
  = (mkTraining (_curr t) (_curr t) (_worker t), Done tt).
Proof.
  intros [Hc _] Hwf Hp. rewrite get_weights_buffer.
  rewrite set_weights_ok; [| exact Hwf | exact Hc | lia | exact Hp].
  rewrite graph_eta. reflexivity.
Qed.

Lemma set_weights_get_weights_witness :
  set_weights (get_weights st_fresh) st_fresh
  = (mkTraining (_curr st_fresh) (_curr st_fresh) 0, Done tt).
Proof.
  apply (set_weights_get_weights st_fresh).
  - unfold wf_training, wf_graph, INT_MAX. cbn. lia.
  - repeat constructor; vm_compute; congruence.
  - cbn. lia.
Defined.

Lemma ensure_variables_nonpositive (g : Graph) (size : Z) :
  wf_graph g -> size <= 0 -> ensure_variables g size = g.
Proof.
  unfold wf_graph, ensure_variables. intros Hg Hs.
  rewrite (to_int_id (Z.of_nat (length (variables g))))
    by (unfold is_int, INT_MIN, INT_MAX in *; lia).
  destruct (_ <? _); [| reflexivity].
  replace (Z.to_nat (size - Z.of_nat (length (variables g)))) with O by lia.
  reflexivity.
Qed.

(** X2. A count that is zero or below makes [set_weights] and [upd_weights]
    return at once: no loop runs, although the comparison of
    [set_weights] with a negative count, made in [size_t], holds. *)
Theorem nonpositive_count_no_effect (buffer s : list byte) (N : Z)
  (t : Training) :
  wf_training t ->
  read_int buffer = Some (N, s) ->
  N <= 0 ->
  set_weights buffer t = (t, Done tt) /\ upd_weights buffer t = (t, Done tt).
Proof.
  intros [Hc Hp] HN Hle. unfold set_weights, upd_weights. rewrite HN.
  rewrite !ensure_variables_nonpositive by assumption.
  replace (Z.to_nat N) with O by lia. cbn.
  destruct t. split; reflexivity.
Qed.

Lemma nonpositive_count_no_effect_witness :
  set_weights (write_int (-3)) st_two = (st_two, Done tt) /\
  upd_weights (write_int (-3)) st_two = (st_two, Done tt).
Proof.
  apply (nonpositive_count_no_effect (write_int (-3)) [] (-3) st_two).
  - unfold wf_training, wf_graph, INT_MAX. cbn. lia.
  - reflexivity.
  - lia.
Defined.

(** X3. [upd_weights] on a buffer of [N] increments, of the dimensions of the
    first [N] variables of the live graph, adds each increment to its
    variable and leaves the other variables and the snapshot alone. *)
Theorem upd_weights_adds (t : Training) (Ds : list Tensor) :
  Forall wf_tensor Ds ->
  Z.of_nat (length Ds) <= INT_MAX ->
  Forall2 (fun v D => same_shape v D = true)
    (take (length Ds) (variables (_curr t))) Ds ->
  upd_weights (weights_buffer Ds) t
  = (set_curr t
       (zip_with plus_delta (variables (_curr t)) Ds
        ++ drop (length Ds) (variables (_curr t))),
     Done tt).
Proof.
  intros Hwf HN HF. unfold upd_weights, weights_buffer.
  rewrite read_int_write_int by (unfold is_int, INT_MIN, INT_MAX in *; lia).
  rewrite Nat2Z.id, <- (app_nil_r (flat_map write_tensor Ds)).
  rewrite (apply_updates_prefix Ds 0); [reflexivity | exact Hwf | exact HF].
Qed.

Lemma upd_weights_adds_witness :
  upd_weights (weights_buffer [mkTensor 1 2 [F32.of_Z 1; F32.of_Z 1]]) st_two
  = (set_curr st_two
       [mkTensor 1 2 [F32.of_Z 4; F32.of_Z 6]; mkTensor 1 1 [F32.of_Z 7]],
     Done tt).
Proof.
  apply (upd_weights_adds st_two [mkTensor 1 2 [F32.of_Z 1; F32.of_Z 1]]).
  - repeat constructor; vm_compute; congruence.
  - vm_compute; congruence.
  - repeat constructor.
Defined.

(** ** Attention: the scale of a head *)

Import Transformer.

Lemma logit_scale_attention (q k v mask : Function) (L S D dropout : Z) :
  logit_scale (ScaledDotProductAttention q k v mask L S D dropout) = Some D.
Proof.
  unfold ScaledDotProductAttention, logit_scale.
  destruct (positive_rate dropout); reflexivity.
Qed.

Lemma split_heads_length (x : Function) (H S D : Z) :
  length (split_heads x H S D) = Z.to_nat H.
Proof. unfold split_heads. rewrite length_map, length_seq. reflexivity. Qed.

(** Every head of [MultiHeadAttention] is built with the number of heads
    as its head size, and there are [num_heads] heads. *)
Lemma attention_heads_scale (q k v mask : Function)
  (L S E H : Z) (bias : bool) (dropout : Z) :
  length (attention_heads q k v mask L S E H bias dropout) = Z.to_nat H /\
  Forall (fun head => logit_scale head = Some H)
    (attention_heads q k v mask L S E H bias dropout).
Proof.
  unfold attention_heads. cbn zeta. split.
  - rewrite length_zip_with, length_zip, !split_heads_length. lia.
  - generalize (zip (split_heads (linear q (Var E E "MHA.Wq")
                                    (if bias then Some (Var 1 E "MHA.bq") else None))
                       H S (Z.quot E H))
                    (split_heads (linear k (Var E E "MHA.Wk")
                                    (if bias then Some (Var 1 E "MHA.bk") else None))
                       H S (Z.quot E H))) as qk.
    generalize (split_heads (linear v (Var E E "MHA.Wv")
                               (if bias then Some (Var 1 E "MHA.bv") else None))
                  H S (Z.quot E H)) as vs.
    intros vs qk. revert vs.
    induction qk as [| x qk IH]; intros [| y vs]; cbn; constructor.
    + apply logit_scale_attention.
    + apply IH.
Qed.

(** C3, as the code has it.  Every head of [MultiHeadAttention] divides
    its logits by the square root of the number of heads [H], whatever the
    embedding size; at [E = 8] and [H = 2] the head dimension is
    [E / H = 4], and both heads divide by the square root of [2]. *)
Theorem mha_head_scale :
  (forall q k v mask L S E H bias dropout,
     length (attention_heads q k v mask L S E H bias dropout) = Z.to_nat H /\
     Forall (fun head => logit_scale head = Some H)
       (attention_heads q k v mask L S E H bias dropout)) /\
  Z.quot 8 2 = 4 /\
  map logit_scale
    (attention_heads (Arg "q") (Arg "k") (Arg "v") Null 3 3 8 2 true 0)
  = [Some 2; Some 2].
Proof.
  split; [| split; reflexivity].
  intros. apply attention_heads_scale.
Qed.

(** ** Conv2D *)

Lemma length_bind_const {A B} (f : A -> list B) (l : list A) (n : nat) :
  (forall x, length (f x) = n) -> length (l ≫= f) = (length l * n)%nat.
Proof.
  intros Hf. induction l as [| x l IH]; [reflexivity |].
  cbn. rewrite length_app, Hf, IH. reflexivity.
Qed.

Lemma length_range (n : Z) : length (Conv.range n) = Z.to_nat n.
Proof. unfold Conv.range. rewrite length_map, length_seq. reflexivity. Qed.

(** The output holds one scalar per output channel, row and column. *)
Lemma conv_forward_length (cv : Conv.Conv2D) (x K : Tensor) :
  length (data (Conv.forward cv x K))
  = (Z.to_nat (Conv.out_channels cv) * (Z.to_nat (Conv.out_rows cv)
     * Z.to_nat (Conv.out_cols cv)))%nat.
Proof.
  unfold Conv.forward. cbn [data].
  rewrite (length_bind_const _ _
             (Z.to_nat (Conv.out_rows cv) * Z.to_nat (Conv.out_cols cv))),
    length_range; [reflexivity |].
  intros oc.
  rewrite (length_bind_const _ _ (Z.to_nat (Conv.out_cols cv))),
    length_range; [reflexivity |].
  intros r.
  rewrite (length_bind_const _ _ 1), length_range; [lia |].
  reflexivity.
Qed.

(** C6. The layer of the single-channel forward test gives, on the input
    [[1,2,3],[4,5,6]] and the kernel [[1,2],[3,4]], a row vector whose
    row-major 2x3 reshape is [[20,36,15],[4,7,2]]; and the output of every
    layer is a row vector of [out_ch * out_r * out_c] scalars, with
    [out_r = floor((in_r + 2 pad - dilation (k_r - 1) - 1) / stride) + 1]
    and likewise for the columns. *)
Theorem conv2d_forward_single :
  Conv.reshape (Conv.forward conv_single conv_single_x conv_single_K) 2 3
  = mkTensor 2 3 (map F32.of_Z [20; 36; 15; 4; 7; 2]) /\
  (forall cv x K,
     let out_r :=
       (Conv.in_rows cv + 2 * Conv.padding cv
        - Conv.dilation cv * (Conv.k_rows cv - 1) - 1) / Conv.stride cv + 1 in
     let out_c :=
       (Conv.in_cols cv + 2 * Conv.padding cv
        - Conv.dilation cv * (Conv.k_cols cv - 1) - 1) / Conv.stride cv + 1 in
     0 <= Conv.out_channels cv -> 0 <= out_r -> 0 <= out_c ->
     rows (Conv.forward cv x K) = 1 /\
     cols (Conv.forward cv x K) = Conv.out_channels cv * out_r * out_c /\
     Z.of_nat (length (data (Conv.forward cv x K)))
     = Conv.out_channels cv * out_r * out_c).
Proof.
  split.
  - vm_compute. reflexivity.
  - intros cv x K out_r out_c Hch Hr Hc.
    split; [reflexivity |]. split; [reflexivity |].
    rewrite conv_forward_length.
    unfold Conv.out_rows, Conv.out_cols, Conv.out_size.
    fold out_r out_c. lia.
Qed.

Lemma conv2d_forward_single_witness :
  Z.of_nat (length (data (Conv.forward conv_single conv_single_x conv_single_K)))
  = 1 * ((2 + 2 * 1 - 2 * (2 - 1) - 1) / 1 + 1)
      * ((3 + 2 * 1 - 2 * (2 - 1) - 1) / 1 + 1).
Proof.
  apply (proj2 conv2d_forward_single conv_single conv_single_x conv_single_K);
    vm_compute; congruence.
Defined.

(** The multi-channel forward test, on the same model. *)
Example conv2d_forward_multi :
  data (Conv.forward conv_multi conv_multi_x conv_multi_K)
  = map F32.of_Z [108; 202; 92; 52; 96; 42;
                  246; 478; 230; 116; 224; 106;
                  374; 734; 358; 196; 384; 186].
Proof. vm_compute. reflexivity. Qed.

(** ** Backward pass *)

Section BackwardProps.

Context {G : Type} (gadd : G -> G -> G).

Abbreviation Node := (Backprop.Node (G := G)).
Abbreviation Slot := (Backprop.Slot (G := G)).
Abbreviation accumulate := (Backprop.accumulate gadd).
Abbreviation visit := (Backprop.visit gadd).
Abbreviation backward := (Backprop.backward gadd).
Abbreviation visited_from := (Backprop.visited_from gadd).
Abbreviation zero := Backprop.zero.
Abbreviation backprop := Backprop.backprop.
Abbreviation derivative := Backprop.derivative.
Abbreviation reached := Backprop.reached.
Abbreviation gradient := Backprop.gradient.
Abbreviation mkSlot := Backprop.mkSlot.
Abbreviation ordered := Backprop.ordered.
Abbreviation flows := Backprop.flows.
Abbreviation is_reached := Backprop.is_reached.
Abbreviation contribution := Backprop.contribution.
Abbreviation contributions_from := Backprop.contributions_from.
Abbreviation contributions := Backprop.contributions.

Lemma slot_eta (s : Slot) : mkSlot (reached s) (gradient s) = s.
Proof. destruct s. reflexivity. Qed.

Lemma accumulate_length (g : G) (T : list Slot) (reg : nat * (G -> G)) :
  length (accumulate g T reg) = length T.
Proof.
  unfold Backprop.accumulate. destruct (T !! fst reg); [| reflexivity].
  apply length_insert.
Qed.

Lemma accumulate_fold_length (g : G) (regs : list (nat * (G -> G))) :
  forall T : list Slot, length (fold_left (accumulate g) regs T) = length T.
Proof.
  induction regs as [| reg regs IH]; intros T; [reflexivity |].
  cbn [fold_left]. rewrite IH. apply accumulate_length.
Qed.

(** The registrations of one node, invoked in turn: the accumulator of
    [m] takes, in their order, the pullbacks registered for [m]. *)
Lemma accumulate_fold_lookup (g : G) (regs : list (nat * (G -> G))) :
  forall (T : list Slot) (m : nat) (s : Slot),
  T !! m = Some s ->
  fold_left (accumulate g) regs T !! m
  = Some (mkSlot
            (reached s || existsb (fun reg => (fst reg =? m)%nat) regs)
            (fold_left gadd
               (map (fun reg => snd reg g)
                  (List.filter (fun reg => (fst reg =? m)%nat) regs))
               (gradient s))).
Proof.
  induction regs as [| reg regs IH]; intros T m s Hs.
  - cbn. rewrite orb_false_r, slot_eta. exact Hs.
  - cbn [fold_left existsb List.filter].
    destruct (Nat.eqb_spec (fst reg) m) as [E | NE].
    + unfold Backprop.accumulate at 2. rewrite E, Hs.
      rewrite (IH _ m (mkSlot true (gadd (gradient s) (snd reg g)))).
      2:{ apply list_lookup_insert_eq. eapply lookup_lt_Some; exact Hs. }
      cbn [Backprop.reached Backprop.gradient map fold_left orb].
      rewrite orb_true_r. reflexivity.
    + rewrite (IH _ m s); [reflexivity |].
      unfold Backprop.accumulate. destruct (T !! fst reg); [| exact Hs].
      rewrite list_lookup_insert_ne by exact NE. exact Hs.
Qed.

Lemma registrations_below (nodes : list Node) (i m : nat) (nd : Node) :
  ordered nodes -> nodes !! i = Some nd -> (i <= m)%nat ->
  existsb (fun reg => (fst reg =? m)%nat) (derivative nd) = false
  /\ List.filter (fun reg => (fst reg =? m)%nat) (derivative nd) = [].
Proof.
  intros Hord Hi Hm.
  assert (H : forall reg, In reg (derivative nd) -> (fst reg =? m)%nat = false).
  { intros reg Hin. apply Nat.eqb_neq. specialize (Hord i nd reg Hi Hin). lia. }
  revert H. generalize (derivative nd) as regs.
  induction regs as [| reg regs IH]; intros H; [split; reflexivity |].
  cbn [existsb List.filter]. rewrite (H reg (or_introl eq_refl)).
  apply IH. intros reg' Hin. apply H. right. exact Hin.
Qed.

Lemma existsb_filter_nil {A} (f : A -> bool) (l : list A) :
  existsb f l = false -> List.filter f l = [].
Proof.
  induction l as [| x l IH]; [reflexivity |]. cbn.
  destruct (f x); [discriminate |]. exact IH.
Qed.

Lemma visit_length (nodes : list Node) (T : list Slot) (i : nat) :
  length (visit nodes T i) = length T.
Proof.
  unfold Backprop.visit.
  destruct (nodes !! i) as [nd |]; [| reflexivity].
  destruct (T !! i) as [s |]; [| reflexivity].
  destruct (reached s); [| reflexivity].
  destruct (backprop nd);
    [apply accumulate_fold_length | apply length_insert].
Qed.

Lemma visited_from_S (nodes : list Node) (F : nat) (seed : G) (i : nat) :
  (i < length nodes)%nat ->
  visited_from nodes F seed i
  = visit nodes (visited_from nodes F seed (S i)) i.
Proof.
  intros Hi. unfold Backprop.visited_from.
  replace (length nodes - i)%nat with (S (length nodes - S i)) by lia.
  cbn [seq rev]. rewrite fold_left_app. reflexivity.
Qed.

Lemma contributions_from_S (nodes : list Node) (active : nat -> bool)
  (T : list Slot) (m i : nat) :
  (i < length nodes)%nat ->
  contributions_from nodes active T m i
  = contributions_from nodes active T m (S i)
    ++ contribution nodes active T m i.
Proof.
  intros Hi. unfold Backprop.contributions_from.
  replace (length nodes - i)%nat with (S (length nodes - S i)) by lia.
  cbn [seq rev]. rewrite flat_map_app. cbn. rewrite app_nil_r. reflexivity.
Qed.

Lemma contributions_from_ext (nodes : list Node) (active active' : nat -> bool)
  (T T' : list Slot) (m i : nat) :
  (forall c, (i <= c)%nat -> T' !! c = T !! c) ->
  (forall c, (i <= c)%nat -> active' c = active c) ->
  contributions_from nodes active' T' m i
  = contributions_from nodes active T m i.
Proof.
  intros H Ha. unfold Backprop.contributions_from.
  assert (Hin : forall c, In c (rev (seq i (length nodes - i))) ->
                          (i <= c)%nat).
  { intros c Hc. apply in_rev, in_seq in Hc. lia. }
  revert Hin. generalize (rev (seq i (length nodes - i))) as l.
  induction l as [| c l IH]; intros Hin; [reflexivity |].
  cbn [flat_map]. rewrite IH by (intros c' Hc'; apply Hin; right; exact Hc').
  unfold Backprop.contribution at 1 3.
  rewrite H, Ha by (apply Hin; left; reflexivity). reflexivity.
Qed.

Lemma is_reached_ext (T T' : list Slot) (c : nat) :
  T' !! c = T !! c -> Backprop.is_reached T' c = Backprop.is_reached T c.
Proof. unfold Backprop.is_reached. intros ->. reflexivity. Qed.

Lemma seed_grad_lookup (nodes : list Node) (F : nat) (seed : G) (m : nat)
  (nd : Node) :
  nodes !! m = Some nd ->
  Backprop.seed_grad nodes F seed !! m
  = Some (if (m =? F)%nat then mkSlot true seed else mkSlot false (zero nd)).
Proof.
  intros Hm. unfold Backprop.seed_grad, Backprop.zero_grad.
  assert (Hlt : (m < length nodes)%nat) by (eapply lookup_lt_Some; exact Hm).
  destruct (Nat.eqb_spec m F) as [-> | NE].
  - apply list_lookup_insert_eq. rewrite length_map. exact Hlt.
  - rewrite list_lookup_insert_ne by congruence.
    rewrite list_lookup_fmap, Hm. reflexivity.
Qed.

Lemma invariant_start (nodes : list Node) (F : nat) (seed : G) :
  (F < length nodes)%nat ->
  Backprop.invariant gadd nodes F seed (length nodes)
    (Backprop.seed_grad nodes F seed).
Proof.
  intros HF.
  assert (Hlen : length (Backprop.seed_grad nodes F seed) = length nodes).
  { unfold Backprop.seed_grad, Backprop.zero_grad.
    rewrite length_insert, length_map. reflexivity. }
  assert (Hslot : forall m nd s,
    nodes !! m = Some nd -> Backprop.seed_grad nodes F seed !! m = Some s ->
    s = if (m =? F)%nat then mkSlot true seed else mkSlot false (zero nd)).
  { intros m nd s Hm Hs. rewrite (seed_grad_lookup _ _ _ _ _ Hm) in Hs.
    congruence. }
  assert (Hnode : forall m s,
    Backprop.seed_grad nodes F seed !! m = Some s ->
    exists nd, nodes !! m = Some nd).
  { intros m s Hs. apply lookup_lt_is_Some_2. rewrite <- Hlen.
    eapply lookup_lt_Some; exact Hs. }
  split; [exact Hlen |]. split; [| split; [| split; [| split; [| split]]]].
  - intros m s Hs Hr. destruct (Hnode m s Hs) as [nd Hm].
    rewrite (Hslot m nd s Hm Hs) in Hr.
    destruct (Nat.eqb_spec m F) as [-> | _]; [| discriminate].
    constructor. exact HF.
  - destruct (lookup_lt_is_Some_2 nodes F HF) as [nd Hm].
    exists (mkSlot true seed). split; [| reflexivity].
    rewrite (seed_grad_lookup _ _ _ _ _ Hm), Nat.eqb_refl. reflexivity.
  - intros c nd sc reg Hc Hm. apply lookup_lt_Some in Hm. lia.
  - intros m nd s Hm Hs Hr. rewrite (Hslot m nd s Hm Hs) in *.
    destruct (m =? F)%nat; [discriminate | reflexivity].
  - intros m nd s Hm _ Hc. apply lookup_lt_Some in Hm. lia.
  - intros m nd s Hm Hs _. rewrite (Hslot m nd s Hm Hs).
    unfold Backprop.contributions_from. rewrite Nat.sub_diag. cbn.
    destruct (m =? F)%nat; reflexivity.
Qed.

Lemma invariant_step (nodes : list Node) (F : nat) (seed : G) (i : nat)
  (T : list Slot) :
  ordered nodes -> (i < length nodes)%nat ->
  Backprop.invariant gadd nodes F seed (S i) T ->
  Backprop.invariant gadd nodes F seed i (visit nodes T i).
Proof.
  intros Hord Hi (Hlen & Hflow & HF & Hpar & Hun & Hoff & Hacc).
  destruct (lookup_lt_is_Some_2 nodes i Hi) as [ndi Hndi].
  destruct (lookup_lt_is_Some_2 T i ltac:(lia)) as [si Hsi].
  unfold Backprop.visit. rewrite Hndi, Hsi.
  destruct (reached si) eqn:Hri; [destruct (backprop ndi) eqn:Hbi |].
  - (* the node passes its gradient on *)
    set (regs := derivative ndi).
    set (T' := fold_left (accumulate (gradient si)) regs T).
    assert (Hlook : forall m s, T !! m = Some s ->
      T' !! m
      = Some (mkSlot
                (reached s || existsb (fun reg => (fst reg =? m)%nat) regs)
                (fold_left gadd
                   (map (fun reg => snd reg (gradient si))
                      (List.filter (fun reg => (fst reg =? m)%nat) regs))
                   (gradient s))))
      by (intros m s Hs; apply accumulate_fold_lookup; exact Hs).
    assert (Hlen' : length T' = length T)
      by apply accumulate_fold_length.
    assert (Hback : forall m s', T' !! m = Some s' ->
      exists s, T !! m = Some s).
    { intros m s' Hs'. apply lookup_lt_is_Some_2. rewrite <- Hlen'.
      eapply lookup_lt_Some; exact Hs'. }
    assert (Hframe : forall c, (i <= c)%nat -> T' !! c = T !! c).
    { intros c Hc. destruct (T !! c) as [s |] eqn:Hs.
      - rewrite (Hlook c s Hs). unfold regs.
        destruct (registrations_below nodes i c ndi Hord Hndi Hc)
          as [-> ->].
        cbn. rewrite orb_false_r, slot_eta. reflexivity.
      - apply lookup_ge_None. apply lookup_ge_None in Hs. lia. }
    split; [lia |]. split; [| split; [| split; [| split; [| split]]]].
    + intros m s' Hs' Hr'. destruct (Hback m s' Hs') as [s Hs].
      rewrite (Hlook m s Hs) in Hs'. injection Hs' as <-.
      cbn [Backprop.reached] in Hr'. apply orb_true_iff in Hr' as [Hr | Hex].
      * apply (Hflow m s Hs Hr).
      * apply existsb_exists in Hex as (reg & Hin & Heq).
        apply Nat.eqb_eq in Heq. subst m.
        apply (Backprop.flows_step nodes F i ndi reg); try assumption.
        -- apply (Hflow i si Hsi Hri).
        -- rewrite <- Hlen. eapply lookup_lt_Some; exact Hs.
    + destruct HF as (s & Hs & Hr). rewrite (Hlook F s Hs), Hr.
      eexists. split; [reflexivity | reflexivity].
    + intros c nd sc reg Hc Hnd Hsc Hr Hb Hin.
      rewrite Hframe in Hsc by exact Hc.
      assert (Hp : exists sp, T !! fst reg = Some sp
                              /\ (reached sp = true \/ c = i)).
      { destruct (Nat.eq_dec c i) as [-> | NE].
        - assert (Hlt : (fst reg < i)%nat) by (apply (Hord i nd reg); assumption).
          destruct (lookup_lt_is_Some_2 T (fst reg) ltac:(lia)) as [sp Hsp].
          exists sp. split; [exact Hsp | right; reflexivity].
        - destruct (Hpar c nd sc reg ltac:(lia) Hnd Hsc Hr Hb Hin)
            as (sp & Hsp & Hrp).
          exists sp. split; [exact Hsp | left; exact Hrp]. }
      destruct Hp as (sp & Hsp & Hcase).
      rewrite (Hlook _ sp Hsp). eexists. split; [reflexivity |].
      cbn [Backprop.reached]. apply orb_true_iff.
      destruct Hcase as [Hrp | ->]; [left; exact Hrp | right].
      apply existsb_exists. exists reg. split; [| apply Nat.eqb_refl].
      unfold regs. congruence.
    + intros m nd s' Hnd Hs' Hr'. destruct (Hback m s' Hs') as [s Hs].
      rewrite (Hlook m s Hs) in Hs'. injection Hs' as <-.
      cbn [Backprop.reached Backprop.gradient] in *.
      apply orb_false_iff in Hr' as [Hr Hex].
      rewrite (existsb_filter_nil _ _ Hex). cbn.
      apply (Hun m nd s Hnd Hs Hr).
    + intros m nd s' Hnd Hs' Hm Hb.
      rewrite Hframe in Hs' by exact Hm.
      destruct (Nat.eq_dec m i) as [-> | NE]; [congruence |].
      apply (Hoff m nd s' Hnd Hs' ltac:(lia) Hb).
    + intros m nd s' Hnd Hs' Hcase. destruct (Hback m s' Hs') as [s Hs].
      rewrite (Hlook m s Hs) in Hs'. injection Hs' as <-.
      cbn [Backprop.gradient].
      rewrite (Hacc m nd s Hnd Hs) by (destruct Hcase; [left; lia | right; assumption]).
      rewrite (contributions_from_S nodes _ T' m i) by exact Hi.
      rewrite fold_left_app.
      rewrite (contributions_from_ext nodes (is_reached T) _ T T')
        by (intros c Hc; try apply is_reached_ext; apply Hframe; lia).
      unfold Backprop.contribution, Backprop.is_reached.
      rewrite Hndi, (Hframe i) by lia. rewrite Hsi, Hri, Hbi.
      reflexivity.
  - (* the node is skipped: its gradient is suppressed *)
    set (T' := <[i := mkSlot true (zero ndi)]> T).
    assert (Hother : forall m, m <> i -> T' !! m = T !! m)
      by (intros m Hm; apply list_lookup_insert_ne; congruence).
    assert (Hat : T' !! i = Some (mkSlot true (zero ndi)))
      by (apply list_lookup_insert_eq; lia).
    split; [unfold T'; rewrite length_insert; exact Hlen |].
    split; [| split; [| split; [| split; [| split]]]].
    + intros m s Hs Hr. destruct (Nat.eq_dec m i) as [-> | NE].
      * apply (Hflow i si Hsi Hri).
      * rewrite Hother in Hs by exact NE. apply (Hflow m s Hs Hr).
    + destruct HF as (s & Hs & Hr). destruct (Nat.eq_dec F i) as [-> | NE].
      * eexists. split; [exact Hat | reflexivity].
      * exists s. rewrite Hother by exact NE. split; assumption.
    + intros c nd sc reg Hc Hnd Hsc Hr Hb Hin.
      destruct (Nat.eq_dec c i) as [-> | NE]; [congruence |].
      rewrite Hother in Hsc by exact NE.
      destruct (Hpar c nd sc reg ltac:(lia) Hnd Hsc Hr Hb Hin)
        as (sp & Hsp & Hrp).
      destruct (Nat.eq_dec (fst reg) i) as [E | NE'].
      * rewrite E. eexists. split; [exact Hat | reflexivity].
      * exists sp. rewrite Hother by exact NE'. split; assumption.
    + intros m nd s Hnd Hs Hr. destruct (Nat.eq_dec m i) as [-> | NE].
      * rewrite Hat in Hs. injection Hs as <-. discriminate.
      * rewrite Hother in Hs by exact NE. apply (Hun m nd s Hnd Hs Hr).
    + intros m nd s Hnd Hs Hm Hb. destruct (Nat.eq_dec m i) as [-> | NE].
      * rewrite Hat in Hs. injection Hs as <-. cbn. congruence.
      * rewrite Hother in Hs by exact NE.
        apply (Hoff m nd s Hnd Hs ltac:(lia) Hb).
    + intros m nd s Hnd Hs Hcase.
      assert (NE : m <> i).
      { intros ->. destruct Hcase as [Hlt | Hb]; [lia | congruence]. }
      rewrite Hother in Hs by exact NE.
      rewrite (Hacc m nd s Hnd Hs) by (destruct Hcase; [left; lia | right; assumption]).
      rewrite (contributions_from_S nodes _ T' m i) by exact Hi.
      rewrite (contributions_from_ext nodes (is_reached T) _ T T')
        by (intros c Hc; try apply is_reached_ext; apply Hother; lia).
      unfold Backprop.contribution, Backprop.is_reached.
      rewrite Hndi, Hat, Hbi.
      cbn. rewrite app_nil_r. reflexivity.
  - (* the node is not reached *)
    split; [exact Hlen |]. split; [exact Hflow |]. split; [exact HF |].
    split; [| split; [exact Hun | split]].
    + intros c nd sc reg Hc Hnd Hsc Hr Hb Hin.
      destruct (Nat.eq_dec c i) as [-> | NE]; [congruence |].
      apply (Hpar c nd sc reg); try assumption. lia.
    + intros m nd s Hnd Hs Hm Hb. destruct (Nat.eq_dec m i) as [-> | NE].
      * apply (Hun i nd s Hnd Hs). congruence.
      * apply (Hoff m nd s Hnd Hs ltac:(lia) Hb).
    + intros m nd s Hnd Hs Hcase.
      assert (Hc' : (m < S i)%nat \/ backprop nd = true).
      { destruct Hcase as [Hlt | Hb]; [left; lia | right; exact Hb]. }
      rewrite (Hacc m nd s Hnd Hs Hc').
      rewrite (contributions_from_S nodes _ T m i) by exact Hi.
      unfold Backprop.contribution, Backprop.is_reached.
      rewrite Hndi, Hsi, Hri.
      cbn. rewrite app_nil_r. reflexivity.
Qed.

Lemma visited_from_end (nodes : list Node) (F : nat) (seed : G) :
  visited_from nodes F seed (length nodes) = Backprop.seed_grad nodes F seed.
Proof.
  unfold Backprop.visited_from. rewrite Nat.sub_diag. reflexivity.
Qed.

Lemma backward_visited_from (nodes : list Node) (F : nat) (seed : G) :
  backward nodes F seed = visited_from nodes F seed 0.
Proof.
  unfold Backprop.backward, Backprop.visited_from.
  rewrite Nat.sub_0_r. reflexivity.
Qed.

(** The invariant holds all along the pass. *)
Lemma invariant_visited_from (nodes : list Node) (F : nat) (seed : G) :
  ordered nodes -> (F < length nodes)%nat ->
  forall k, (k <= length nodes)%nat ->
  Backprop.invariant gadd nodes F seed (length nodes - k)
    (visited_from nodes F seed (length nodes - k)).
Proof.
  intros Hord HF. induction k as [| k IH]; intros Hk.
  - rewrite Nat.sub_0_r, visited_from_end. apply invariant_start. exact HF.
  - rewrite visited_from_S by lia.
    apply invariant_step; [exact Hord | lia |].
    replace (S (length nodes - S k)) with (length nodes - k)%nat by lia.
    apply IH. lia.
Qed.

Lemma invariant_backward (nodes : list Node) (F : nat) (seed : G) :
  ordered nodes -> (F < length nodes)%nat ->
  Backprop.invariant gadd nodes F seed 0 (backward nodes F seed).
Proof.
  intros Hord HF. rewrite backward_visited_from.
  pose proof (invariant_visited_from nodes F seed Hord HF (length nodes)
                (Nat.le_refl _)) as H.
  rewrite Nat.sub_diag in H. exact H.
Qed.

(** At the end of the pass every node reached forward-wise is marked. *)
Lemma flows_reached (nodes : list Node) (F : nat) (seed : G) (T : list Slot)
  (m : nat) :
  Backprop.invariant gadd nodes F seed 0 T ->
  flows nodes F m -> exists s, T !! m = Some s /\ reached s = true.
Proof.
  intros (_ & _ & HF & Hpar & _) Hflow.
  induction Hflow as [HFlt | c nd reg _ IH Hnd Hb Hin Hlt]; [exact HF |].
  destruct IH as (sc & Hsc & Hrc).
  apply (Hpar c nd sc reg); try assumption. lia.
Qed.

(** The registrations of a node whose flag is off play no part in the
    pass. *)
Lemma backward_registrations_off (nodes : list Node) (F : nat) (seed : G)
  (n : nat) (nd : Node) (regs : list (nat * (G -> G))) :
  nodes !! n = Some nd -> backprop nd = false ->
  backward (<[n := Backprop.mkNode false (zero nd) regs]> nodes) F seed
  = backward nodes F seed.
Proof.
  intros Hn Hb. set (nodes' := <[n := Backprop.mkNode false (zero nd) regs]> nodes).
  assert (Hlen : length nodes' = length nodes) by apply length_insert.
  assert (Hseed : Backprop.seed_grad nodes' F seed
                  = Backprop.seed_grad nodes F seed).
  { unfold Backprop.seed_grad, Backprop.zero_grad, nodes'. f_equal.
    rewrite list_fmap_insert. apply list_insert_id.
    rewrite list_lookup_fmap, Hn. reflexivity. }
  assert (Hvisit : forall T i, visit nodes' T i = visit nodes T i).
  { intros T i. unfold Backprop.visit, nodes'.
    destruct (Nat.eq_dec i n) as [-> | NE].
    - rewrite list_lookup_insert_eq by (eapply lookup_lt_Some; exact Hn).
      rewrite Hn. destruct (T !! n) as [s |]; [| reflexivity].
      cbn [Backprop.backprop Backprop.zero]. rewrite Hb. reflexivity.
    - rewrite list_lookup_insert_ne by congruence. reflexivity. }
  unfold Backprop.backward. rewrite Hlen, Hseed.
  generalize (Backprop.seed_grad nodes F seed) as T.
  generalize (rev (seq 0 (length nodes))) as l.
  induction l as [| i l IH]; intros T; [reflexivity |].
  cbn [fold_left]. rewrite Hvisit. apply IH.
Qed.

(** C8.  On a graph held in the order its nodes were made, a backward
    pass seeded at an output [F] leaves the gradient of every node whose
    [backprop] flag is off equal to zero, and the registrations of such a
    node play no part in the pass: whatever they are, the pass gives the
    same gradients.  The nodes the pass marks are the nodes reached
    forward-wise from [F] through nodes whose flag is on, and every node
    whose flag is on holds what is accumulated for it: the seed, when it
    is [F], and, added in the order of the pass, each pullback registered
    for it by a reached node whose flag is on, applied once to the
    gradient of that node. *)
Theorem backward_backprop_off (nodes : list Node) (F : nat) (seed : G) :
  ordered nodes -> (F < length nodes)%nat ->
  (forall n nd,
     nodes !! n = Some nd -> backprop nd = false ->
     gradient <$> backward nodes F seed !! n = Some (zero nd)
     /\ forall regs,
          backward (<[n := Backprop.mkNode false (zero nd) regs]> nodes) F seed
          = backward nodes F seed)
  /\ (forall m,
        is_reached (backward nodes F seed) m = true <-> flows nodes F m)
  /\ (forall active : nat -> bool,
        (forall c, active c = true <-> flows nodes F c) ->
        forall m nd,
          nodes !! m = Some nd -> backprop nd = true ->
          gradient <$> backward nodes F seed !! m
          = Some (fold_left gadd
                    (contributions nodes active (backward nodes F seed) m)
                    (if (m =? F)%nat then seed else zero nd))).
Proof.
  intros Hord HF.
  pose proof (invariant_backward nodes F seed Hord HF) as Hinv.
  pose proof Hinv as (Hlen & Hflow & _ & _ & _ & Hoff & Hacc).
  assert (Hreach : forall m,
    is_reached (backward nodes F seed) m = true <-> flows nodes F m).
  { intros m. unfold Backprop.is_reached. split.
    - destruct (backward nodes F seed !! m) as [s |] eqn:Hs; [| discriminate].
      apply (Hflow m s Hs).
    - intros Hf.
      destruct (flows_reached nodes F seed _ m Hinv Hf) as (s & -> & Hr).
      exact Hr. }
  split; [| split; [exact Hreach |]].
  - intros n nd Hn Hb. split.
    + destruct (lookup_lt_is_Some_2 (backward nodes F seed) n) as [s Hs].
      { rewrite Hlen. eapply lookup_lt_Some; exact Hn. }
      rewrite Hs. cbn. f_equal. apply (Hoff n nd s Hn Hs); [lia | exact Hb].
    + intros regs. apply backward_registrations_off; assumption.
  - intros active Hactive m nd Hm Hb.
    destruct (lookup_lt_is_Some_2 (backward nodes F seed) m) as [s Hs].
    { rewrite Hlen. eapply lookup_lt_Some; exact Hm. }
    rewrite Hs. cbn. f_equal.
    rewrite (Hacc m nd s Hm Hs) by (right; exact Hb).
    f_equal. unfold Backprop.contributions.
    apply contributions_from_ext; [reflexivity |].
    intros c _. 
    destruct (active c) eqn:Ha, (is_reached (backward nodes F seed) c) eqn:Hr;
      try reflexivity; exfalso.
    + apply Hactive, Hreach in Ha. congruence.
    + apply Hreach, Hactive in Hr. congruence.
Qed.

End BackwardProps.

(** The back-propagation test: with the flag of [x] off and the gradient
    of [y] set to ones, [dF/dx] is zero, [dF/dW] is [[1,2],[1,2],[1,2]]
    and [dF/db] is ones. *)
Example back_propagation_test :
  map Backprop.gradient
    (Backprop.backward plus_delta bp_nodes 3 (tensor_of 1 3 [1; 1; 1]))
  = [tensor_zero 1 2; tensor_of 3 2 [1; 2; 1; 2; 1; 2];
     tensor_of 1 3 [1; 1; 1]; tensor_of 1 3 [1; 1; 1]].
Proof. vm_compute. reflexivity. Qed.

(** With the flag of [x] on, [dF/dx = g W = [9, 12]]. *)
Example back_propagation_flag_on :
  map Backprop.gradient
    (Backprop.backward plus_delta bp_nodes_on 3 (tensor_of 1 3 [1; 1; 1]))
  = [tensor_of 1 2 [9; 12]; tensor_of 3 2 [1; 2; 1; 2; 1; 2];
     tensor_of 1 3 [1; 1; 1]; tensor_of 1 3 [1; 1; 1]].
Proof. vm_compute. reflexivity. Qed.

(** With the flag of [y] off, every gradient is zero. *)
Example back_propagation_output_off :
  map Backprop.gradient
    (Backprop.backward plus_delta bp_nodes_off 3 (tensor_of 1 3 [1; 1; 1]))
  = [tensor_zero 1 2; tensor_zero 3 2; tensor_zero 1 3; tensor_zero 1 3].
Proof. vm_compute. reflexivity. Qed.

Lemma bp_nodes_ordered : Backprop.ordered bp_nodes.
Proof.
  intros c nd reg Hc Hin.
  destruct c as [| [| [| [| c]]]]; cbn in Hc; try discriminate;
    injection Hc as <-; cbn in Hin; try contradiction.
  destruct Hin as [<- | [<- | [<- | []]]]; cbn; lia.
Qed.

Lemma backward_backprop_off_witness :
  Backprop.gradient
    <$> Backprop.backward plus_delta bp_nodes 3 (tensor_of 1 3 [1; 1; 1])
        !! 0%nat
  = Some (tensor_zero 1 2).
Proof.
  refine (proj1 (proj1 (backward_backprop_off plus_delta bp_nodes 3
                          (tensor_of 1 3 [1; 1; 1]) bp_nodes_ordered _)
                   0%nat _ eq_refl eq_refl)).
  cbn. lia.
Defined.

(** ** GRU forward pass on the test fixture *)

Section GRUProps.

Import GRU.
Local Open Scope R_scope.

Lemma Rdiv_nonneg (a b : R) : 0 <= a -> 0 < b -> 0 <= a / b.
Proof.
  intros Ha Hb. unfold Rdiv. apply Rmult_le_pos; [exact Ha |].
  left. apply Rinv_0_lt_compat. exact Hb.
Qed.

Lemma exp_pow2 (x : R) (k : nat) : exp x = exp (x / 2 ^ k) ^ (2 ^ k).
Proof.
  revert x. induction k as [| k IH]; intros x.
  - cbn. rewrite Rmult_1_r. f_equal. lra.
  - rewrite (IH x).
    replace (x / 2 ^ k) with (x / 2 ^ S k + x / 2 ^ S k).
    2:{ cbn [pow]. field. apply pow_nonzero. lra. }
    rewrite exp_plus.
    replace (2 ^ S k)%nat with (2 * 2 ^ k)%nat by (cbn; lia).
    rewrite pow_mult. f_equal. cbn. lra.
Qed.

(** Squaring rounded down stays below the exact power. *)
Lemma sq_iter_lower (P : Z) (k : nat) : forall a : Z,
  (0 < P)%Z -> (0 <= a)%Z ->
  0 <= IZR (sq_iter P k a) / IZR P <= (IZR a / IZR P) ^ (2 ^ k).
Proof.
  induction k as [| k IH]; intros a HP Ha.
  - cbn. assert (0 < IZR P) by (apply IZR_lt; lia).
    assert (0 <= IZR a) by (apply IZR_le; lia).
    split; [apply Rdiv_nonneg; lra | lra].
  - cbn [sq_iter].
    assert (HPr : 0 < IZR P) by (apply IZR_lt; lia).
    assert (Har : 0 <= IZR a) by (apply IZR_le; lia).
    assert (Hq : (0 <= a * a / P)%Z) by (apply Z.div_pos; nia).
    destruct (IH (a * a / P)%Z HP Hq) as [H0 H1].
    split; [exact H0 |].
    eapply Rle_trans; [exact H1 |].
    replace (2 ^ S k)%nat with (2 * 2 ^ k)%nat by (cbn; lia).
    rewrite pow_mult. apply pow_incr. split.
    + apply Rdiv_nonneg; [apply IZR_le; lia | lra].
    + assert (Hm : (a * a / P * P <= a * a)%Z).
      { pose proof (Z.mul_div_le (a * a) P HP). lia. }
      apply IZR_le in Hm. rewrite !mult_IZR in Hm.
      cbn [pow]. rewrite Rmult_1_r.
      apply Rmult_le_reg_r with (IZR P); [exact HPr |].
      replace (IZR (a * a / P) / IZR P * IZR P) with (IZR (a * a / P))
        by (field; lra).
      apply Rmult_le_reg_r with (IZR P); [exact HPr |].
      replace (IZR a / IZR P * (IZR a / IZR P) * IZR P * IZR P)
        with (IZR a * IZR a) by (field; lra).
      exact Hm.
Qed.

Lemma exp_lb_correct (P : Z) (k : nat) (num den : Z) :
  (0 < P)%Z -> (0 < den)%Z ->
  (0 <= P + num * P / (den * 2 ^ Z.of_nat k))%Z ->
  IZR (exp_lb P k num den) / IZR P <= exp (IZR num / IZR den).
Proof.
  intros HP Hden Ha. unfold exp_lb.
  destruct (sq_iter_lower P k _ HP Ha) as [_ H].
  eapply Rle_trans; [exact H |].
  rewrite (exp_pow2 (IZR num / IZR den) k).
  assert (HPr : 0 < IZR P) by (apply IZR_lt; lia).
  assert (Hdr : 0 < IZR den) by (apply IZR_lt; lia).
  assert (H2k : 0 < 2 ^ k) by (apply pow_lt; lra).
  apply pow_incr. split.
  - apply Rdiv_nonneg; [apply IZR_le; exact Ha | exact HPr].
  - eapply Rle_trans; [| apply exp_ineq1_le].
    set (D := (den * 2 ^ Z.of_nat k)%Z).
    assert (HD : (0 < D)%Z).
    { unfold D. apply Z.mul_pos_pos; [lia | apply Z.pow_pos_nonneg; lia]. }
    assert (Hm : (num * P / D * D <= num * P)%Z).
    { pose proof (Z.mul_div_le (num * P) D HD). lia. }
    apply IZR_le in Hm. rewrite !mult_IZR in Hm.
    assert (HDr : IZR D = IZR den * 2 ^ k).
    { unfold D. rewrite mult_IZR. f_equal. rewrite <- pow_IZR. reflexivity. }
    rewrite plus_IZR.
    assert (HDpos : 0 < IZR D) by (apply IZR_lt; exact HD).
    replace (IZR num / IZR den / 2 ^ k) with (IZR num / IZR D)
      by (rewrite HDr; field; split; lra).
    apply Rmult_le_reg_r with (IZR P); [exact HPr |].
    apply Rmult_le_reg_r with (IZR D); [exact HDpos |].
    replace ((IZR P + IZR (num * P / D)) / IZR P * IZR P * IZR D)
      with (IZR P * IZR D + IZR (num * P / D) * IZR D) by (field; lra).
    replace ((1 + IZR num / IZR D) * IZR P * IZR D)
      with (IZR P * IZR D + IZR num * IZR P) by (field; lra).
    lra.
Qed.

Lemma exp_ok_lower (P : Z) (k : nat) (num den : Z) :
  exp_ok P k num den = true ->
  0 < IZR (exp_lb P k num den) / IZR P <= exp (IZR num / IZR den).
Proof.
  unfold exp_ok. rewrite !andb_true_iff.
  intros [[[HP Hden] Ha] Hpos].
  apply Z.ltb_lt in HP, Hden, Hpos. apply Z.leb_le in Ha.
  split; [| apply exp_lb_correct; assumption].
  apply Rdiv_lt_0_compat; apply IZR_lt; assumption.
Qed.

Lemma exp_increasing_le (x y : R) : x <= y -> exp x <= exp y.
Proof.
  intros [H | H]; [left; apply exp_increasing; exact H | right; f_equal; exact H].
Qed.

(** Enclosure of [exp x] for [x] between two rationals: the upper bound
    is the inverse of a lower bound of [exp (- x)]. *)
Lemma exp_enclosure (P : Z) (k : nat) (nlo nhi den : Z) (x : R) :
  exp_ok P k nlo den = true -> exp_ok P k (- nhi) den = true ->
  IZR nlo / IZR den <= x <= IZR nhi / IZR den ->
  IZR (exp_lb P k nlo den) / IZR P <= exp x
    <= IZR P / IZR (exp_lb P k (- nhi) den).
Proof.
  intros Hlo Hhi [Hx1 Hx2].
  destruct (exp_ok_lower _ _ _ _ Hlo) as [_ Hl].
  destruct (exp_ok_lower _ _ _ _ Hhi) as [Hpos Hu].
  split.
  - eapply Rle_trans; [exact Hl | apply exp_increasing_le; exact Hx1].
  - apply Rle_trans with (exp (IZR nhi / IZR den));
      [apply exp_increasing_le; exact Hx2 |].
    replace (IZR nhi / IZR den) with (- (IZR (- nhi) / IZR den)).
    2:{ rewrite opp_IZR. unfold Rdiv. ring. }
    rewrite exp_Ropp.
    set (q := IZR (exp_lb P k (- nhi) den) / IZR P) in *.
    replace (IZR P / IZR (exp_lb P k (- nhi) den)) with (/ q).
    2:{ unfold q. unfold exp_ok in Hhi. rewrite !andb_true_iff in Hhi.
        destruct Hhi as [[[HP _] _] Hb]. apply Z.ltb_lt in HP, Hb.
        apply IZR_lt in HP, Hb. field. split; lra. }
    apply Rinv_le_contravar; assumption.
Qed.

Lemma sigmoid_bounds (x L U : R) :
  0 < L -> L <= exp (- x) <= U -> / (1 + U) <= sigmoid x <= / (1 + L).
Proof.
  intros HL [H1 H2]. unfold sigmoid. unfold Rdiv. rewrite Rmult_1_l.
  split; apply Rinv_le_contravar; lra.
Qed.

Lemma tanh_exp (x : R) : tanh x = 1 - 2 / (exp x * exp x + 1).
Proof.
  unfold tanh, sinh, cosh. rewrite exp_Ropp.
  pose proof (exp_pos x) as Hp.
  assert (0 < exp x * exp x) by (apply Rmult_lt_0_compat; assumption).
  field. repeat split; lra.
Qed.

Lemma tanh_bounds (x L U : R) :
  0 < L -> L <= exp x <= U ->
  1 - 2 / (L * L + 1) <= tanh x <= 1 - 2 / (U * U + 1).
Proof.
  intros HL [H1 H2]. rewrite tanh_exp.
  assert (HLL : L * L <= exp x * exp x) by (apply Rmult_le_compat; lra).
  assert (HUU : exp x * exp x <= U * U) by (apply Rmult_le_compat; lra).
  assert (0 < L * L) by (apply Rmult_lt_0_compat; assumption).
  unfold Rdiv.
  assert (/ (exp x * exp x + 1) <= / (L * L + 1))
    by (apply Rinv_le_contravar; lra).
  assert (/ (U * U + 1) <= / (exp x * exp x + 1))
    by (apply Rinv_le_contravar; lra).
  lra.
Qed.

Lemma Rabs_le_between (a b e : R) : Rabs (a - b) <= e -> b - e <= a <= b + e.
Proof.
  unfold Rabs. destruct (Rcase_abs (a - b)); lra.
Qed.

(** Bounds of a product on a box, linear in the factors. *)
Lemma mul_enclosure (a al ah b bl bh : R) :
  al <= a <= ah -> bl <= b <= bh ->
  al * b + a * bl - al * bl <= a * b
  /\ ah * b + a * bh - ah * bh <= a * b
  /\ a * b <= ah * b + a * bl - ah * bl
  /\ a * b <= al * b + a * bh - al * bh.
Proof.
  intros [Ha1 Ha2] [Hb1 Hb2].
  pose proof (Rmult_le_pos (a - al) (b - bl) ltac:(lra) ltac:(lra)).
  pose proof (Rmult_le_pos (ah - a) (bh - b) ltac:(lra) ltac:(lra)).
  pose proof (Rmult_le_pos (ah - a) (b - bl) ltac:(lra) ltac:(lra)).
  pose proof (Rmult_le_pos (a - al) (bh - b) ltac:(lra) ltac:(lra)).
  repeat split; lra.
Qed.

(** Bounds of a square on an interval, linear in the argument. *)
Lemma sq_enclosure (a l u : R) :
  l <= a <= u ->
  (l + u) * a - l * u >= a * a /\ a * a >= 2 * l * a - l * l
  /\ a * a >= 2 * u * a - u * u.
Proof.
  intros [H1 H2].
  pose proof (Rmult_le_pos (a - l) (u - a) ltac:(lra) ltac:(lra)).
  pose proof (Rle_0_sqr (a - l)) as Hl. unfold Rsqr in Hl.
  pose proof (Rle_0_sqr (a - u)) as Hu. unfold Rsqr in Hu.
  repeat split; lra.
Qed.

Lemma close_refl (eps : R) (v : list R) : 0 <= eps -> close eps v v.
Proof.
  intros He. induction v as [| a v IH]; constructor; [| exact IH].
  apply Rabs_le. lra.
Qed.

(** Enclosure of [exp x] with 64 fractional bits and 30 squarings, for
    [x] between [nlo / den] and [nhi / den]. *)
Ltac exp_bounds H x nlo nhi den :=
  let Hx := fresh "Hx" in
  assert (Hx : IZR nlo / IZR den <= x <= IZR nhi / IZR den) by lra;
  pose proof (exp_enclosure P64 30 nlo nhi den x
                (@eq_refl bool true <: exp_ok P64 30 nlo den = true)
                (@eq_refl bool true <: exp_ok P64 30 (- nhi) den = true) Hx) as H;
  clear Hx;
  match type of H with
  | IZR ?a / _ <= _ <= _ / IZR ?b =>
      let va := eval vm_compute in a in
      let vb := eval vm_compute in b in
      change a with va in H; change b with vb in H
  end;
  unfold P64 in H.

(** A value within the tolerance of [sigmoid x], for [x] between
    [nlo / den] and [nhi / den]. *)
Ltac sigmoid_enclose nlo nhi den :=
  match goal with
  | Hc : sigmoid ?x - _ <= ?z <= _ |- _ <= ?z <= _ =>
      let H := fresh "H" in
      let mlo := eval vm_compute in (- nhi)%Z in
      let mhi := eval vm_compute in (- nlo)%Z in
      exp_bounds H (- x) mlo mhi den;
      match type of H with
      | ?L <= _ <= ?U =>
          let Hs := fresh "H" in
          let HL := fresh "H" in
          assert (HL : 0 < L) by (clear; lra);
          pose proof (sigmoid_bounds x L U HL H) as Hs;
          clear - Hs Hc; unfold gru_eps in Hc; lra
      end
  end.

Ltac tanh_enclose nlo nhi den :=
  match goal with
  | Hc : tanh ?x - _ <= ?z <= _ |- _ <= ?z <= _ =>
      let H := fresh "H" in
      exp_bounds H x nlo nhi den;
      match type of H with
      | ?L <= _ <= ?U =>
          let Hs := fresh "H" in
          let HL := fresh "H" in
          assert (HL : 0 < L) by (clear; lra);
          pose proof (tanh_bounds x L U HL H) as Hs;
          clear - Hs Hc; unfold gru_eps in Hc; lra
      end
  end.

Ltac gru_unfold_in H :=
  cbv [update_pre reset_pre candidate_pre blend affine vecmat vadd vmul scale
       map zip_with repeat gru_test gru_x gru_h gru_y_hat
       out_size Wz Uz bz Wr Ur br Wh Uh bh
       gru_az_lo gru_az_hi gru_z_lo gru_z_hi gru_ar_lo gru_ar_hi
       gru_r_lo gru_r_hi gru_ah_lo gru_ah_hi gru_c_lo gru_c_hi
       gru_y_lo gru_y_hi inside close] in H.

Ltac inside_inv H :=
  gru_unfold_in H;
  repeat match goal with
  | H' : Forall3 _ (_ :: _) _ _ |- _ => inversion H'; subst; clear H'
  | H' : Forall3 _ [] _ _ |- _ => inversion H'; subst; clear H'
  end.

Ltac close_inv H :=
  gru_unfold_in H;
  repeat match goal with
  | H' : Forall2 _ _ (_ :: _) |- _ => inversion H'; subst; clear H'
  | H' : Forall2 _ _ [] |- _ => inversion H'; subst; clear H'
  | H' : Rabs (_ - _) <= _ |- _ => apply Rabs_le_between in H'
  end.

Ltac inside_intro :=
  cbv [gru_az_lo gru_az_hi gru_z_lo gru_z_hi gru_ar_lo gru_ar_hi
       gru_r_lo gru_r_hi gru_ah_lo gru_ah_hi gru_c_lo gru_c_hi
       gru_y_lo gru_y_hi inside];
  repeat first [apply Forall3_nil | apply Forall3_cons].

Lemma gru_stage_update_pre (az : list R) :
  close gru_eps az (update_pre gru_test gru_x gru_h) ->
  inside gru_az_lo gru_az_hi az.
Proof.
  intros H. close_inv H. unfold gru_eps in *. inside_intro; lra.
Qed.

Lemma gru_stage_reset_pre (ar : list R) :
  close gru_eps ar (reset_pre gru_test gru_x gru_h) ->
  inside gru_ar_lo gru_ar_hi ar.
Proof.
  intros H. close_inv H. unfold gru_eps in *. inside_intro; lra.
Qed.

Lemma gru_stage_update (az z : list R) :
  inside gru_az_lo gru_az_hi az -> close gru_eps z (map sigmoid az) ->
  inside gru_z_lo gru_z_hi z.
Proof.
  intros Ha Hz. inside_inv Ha. close_inv Hz. inside_intro.
  - sigmoid_enclose 11099000%Z 11101000%Z 10000000%Z.
  - sigmoid_enclose 17699000%Z 17701000%Z 10000000%Z.
  - sigmoid_enclose (-27101000)%Z (-27099000)%Z 10000000%Z.
  - sigmoid_enclose (-43901000)%Z (-43899000)%Z 10000000%Z.
Qed.

Lemma gru_stage_reset (ar r : list R) :
  inside gru_ar_lo gru_ar_hi ar -> close gru_eps r (map sigmoid ar) ->
  inside gru_r_lo gru_r_hi r.
Proof.
  intros Ha Hr. inside_inv Ha. close_inv Hr. inside_intro.
  - sigmoid_enclose (-8801000)%Z (-8799000)%Z 10000000%Z.
  - sigmoid_enclose 17599000%Z 17601000%Z 10000000%Z.
  - sigmoid_enclose (-26401000)%Z (-26399000)%Z 10000000%Z.
  - sigmoid_enclose (-48301000)%Z (-48299000)%Z 10000000%Z.
Qed.

Lemma gru_stage_candidate_pre (r ah : list R) :
  inside gru_r_lo gru_r_hi r ->
  close gru_eps ah (candidate_pre gru_test gru_x gru_h r) ->
  inside gru_ah_lo gru_ah_hi ah.
Proof.
  intros Hr H. inside_inv Hr. close_inv H. unfold gru_eps in *.
  inside_intro; lra.
Qed.

Lemma gru_stage_candidate (ah c : list R) :
  inside gru_ah_lo gru_ah_hi ah -> close gru_eps c (map tanh ah) ->
  inside gru_c_lo gru_c_hi c.
Proof.
  intros Ha Hc. inside_inv Ha. close_inv Hc. inside_intro.
  - tanh_enclose (-9444854)%Z (-9442445)%Z 10000000%Z.
  - tanh_enclose 15736639%Z 15739388%Z 10000000%Z.
  - tanh_enclose (-29027948)%Z (-29024800)%Z 10000000%Z.
  - tanh_enclose (-35935382)%Z (-35931847)%Z 10000000%Z.
Qed.

Lemma gru_stage_blend (z c y : list R) :
  inside gru_z_lo gru_z_hi z -> inside gru_c_lo gru_c_hi c ->
  close gru_eps y (blend z gru_h c) ->
  inside gru_y_lo gru_y_hi y.
Proof.
  intros Hz Hc Hy. inside_inv Hz. inside_inv Hc. close_inv Hy.
  unfold gru_eps in *. inside_intro;
    match goal with
    | Hy : ?z * _ + (1 - ?z) * ?c - _ <= ?y <= _,
      Hz : ?zl <= ?z <= ?zh, Hc : ?cl <= ?c <= ?ch |- _ <= ?y <= _ =>
        pose proof (mul_enclosure z zl zh c cl ch Hz Hc); lra
    end.
Qed.

(** Every evaluation of the fixture whose stages are within the tolerance
    ends in the enclosure of the output. *)
Lemma gru_stages (az z ar r ah c y : list R) :
  close gru_eps az (update_pre gru_test gru_x gru_h) ->
  close gru_eps z (map sigmoid az) ->
  close gru_eps ar (reset_pre gru_test gru_x gru_h) ->
  close gru_eps r (map sigmoid ar) ->
  close gru_eps ah (candidate_pre gru_test gru_x gru_h r) ->
  close gru_eps c (map tanh ah) ->
  close gru_eps y (blend z gru_h c) ->
  inside gru_y_lo gru_y_hi y.
Proof.
  intros Haz Hz Har Hr Hah Hc Hy.
  apply (gru_stage_blend z c y).
  - apply (gru_stage_update az); [apply gru_stage_update_pre |]; assumption.
  - apply (gru_stage_candidate ah); [| assumption].
    apply (gru_stage_candidate_pre r); [| assumption].
    apply (gru_stage_reset ar); [apply gru_stage_reset_pre |]; assumption.
  - assumption.
Qed.

(** The enclosure of the output lies within the tolerance of the test. *)
Lemma gru_within_tolerance (y : list R) :
  inside gru_y_lo gru_y_hi y ->
  close (1 / 1000) y gru_y_hat /\ isApprox y gru_y_hat (1 / 1000).
Proof.
  intros H. inside_inv H. split.
  - unfold close, gru_y_hat.
    repeat (constructor; [apply Rabs_le; lra |]). constructor.
  - unfold isApprox, squaredNorm, gru_y_hat. cbn [zip_with map fold_right].
    repeat match goal with
    | H : ?l <= ?a <= ?u |- _ =>
        pose proof (sq_enclosure a l u H); revert H
    end.
    intros. apply Rmin_case; lra.
Qed.

(** C7: the GRU cell of the test fixture ([test_gru_forward]: input size
    3, output size 4, [x = [0.01, -0.02, 0.03]],
    [h = [0.01, -0.02, 0.03, -0.03]] and the nine parameter tensors of the
    fixture) produces the forward output
    [[-0.1752, 0.1165, -0.9301, -0.9866]] within [1e-3]: every component
    is within [1e-3] of the expected one, and the outputs compare equal
    under the relative comparison the test uses. *)
Theorem gru_forward_fixture :
  close (1 / 1000) (forward gru_test gru_x gru_h) gru_y_hat
  /\ isApprox (forward gru_test gru_x gru_h) gru_y_hat (1 / 1000).
Proof.
  assert (He : 0 <= gru_eps) by (unfold gru_eps; lra).
  apply gru_within_tolerance. unfold forward.
  eapply gru_stages; apply close_refl; exact He.
Qed.

(** X4. The output of the fixture stays within [1e-3] of the expected vector
    for every evaluation of the four stages (affine maps, gate
    activations, candidate, blend) whose results are each within [1e-4]
    of the exact result on the computed inputs. *)
Theorem gru_forward_rounded (az z ar r ah c y : list R) :
  close gru_eps az (update_pre gru_test gru_x gru_h) ->
  close gru_eps z (map sigmoid az) ->
  close gru_eps ar (reset_pre gru_test gru_x gru_h) ->
  close gru_eps r (map sigmoid ar) ->
  close gru_eps ah (candidate_pre gru_test gru_x gru_h r) ->
  close gru_eps c (map tanh ah) ->
  close gru_eps y (blend z gru_h c) ->
  close (1 / 1000) y gru_y_hat /\ isApprox y gru_y_hat (1 / 1000).
Proof.
  intros Haz Hz Har Hr Hah Hc Hy.
  apply gru_within_tolerance. exact (gru_stages az z ar r ah c y Haz Hz Har Hr Hah Hc Hy).
Qed.

Lemma gru_forward_rounded_witness :
  close gru_eps (update_pre gru_test gru_x gru_h)
    (update_pre gru_test gru_x gru_h)
  /\ close (1 / 1000) (forward gru_test gru_x gru_h) gru_y_hat.
Proof.
  assert (He : 0 <= gru_eps) by (unfold gru_eps; lra).
  split; [apply close_refl; exact He |].
  apply (gru_forward_rounded
           (update_pre gru_test gru_x gru_h)
           (map sigmoid (update_pre gru_test gru_x gru_h))
           (reset_pre gru_test gru_x gru_h)
           (map sigmoid (reset_pre gru_test gru_x gru_h))
           (candidate_pre gru_test gru_x gru_h
              (map sigmoid (reset_pre gru_test gru_x gru_h)))
           (map tanh (candidate_pre gru_test gru_x gru_h
                        (map sigmoid (reset_pre gru_test gru_x gru_h))))
           (forward gru_test gru_x gru_h));
    apply close_refl; exact He.
Defined.

End GRUProps.

(** ** More on the training trait *)

(** On a buffer that holds the tensors [Ts], the loading loop writes them
    at the indices [i ..] of both graphs and leaves the variables after
    them alone. *)
Lemma load_weights_prefix (Ts : list Tensor) : forall i t rest,
  Forall wf_tensor Ts ->
  (i + length Ts <= length (variables (_curr t)))%nat ->
  (i + length Ts <= length (variables (_prev t)))%nat ->
  load_weights (length Ts) i (flat_map write_tensor Ts ++ rest) t
  = (mkTraining
       (mkGraph (take i (variables (_curr t)) ++ Ts
                 ++ drop (i + length Ts) (variables (_curr t))))
       (mkGraph (take i (variables (_prev t)) ++ Ts
                 ++ drop (i + length Ts) (variables (_prev t))))
       (_worker t), Done tt).
Proof.
  induction Ts as [| T Ts IH]; intros i t rest Hwf Hc Hp.
  - cbn [length flat_map load_weights app]. rewrite Nat.add_0_r, !take_drop.
    destruct t as [[c] [p] w]. reflexivity.
  - inversion Hwf as [| ? ? HT Hwf']; subst.
    cbn [length flat_map load_weights] in *. rewrite <- app_assoc.
    rewrite read_tensor_write_tensor by exact HT.
    destruct (lookup_lt_is_Some_2 (variables (_curr t)) i) as [c Hci]; [lia |].
    destruct (lookup_lt_is_Some_2 (variables (_prev t)) i) as [p Hpi]; [lia |].
    rewrite Hci. cbn [set_curr _prev variables]. rewrite Hpi.
    rewrite IH; cbn [set_prev set_curr _curr _prev _worker variables];
      rewrite ?length_insert; try lia; [| exact Hwf'].
    rewrite !take_S_insert by lia. rewrite !drop_insert_lt by lia.
    rewrite <- !app_assoc.
    replace (S i + length Ts)%nat with (i + S (length Ts))%nat by lia.
    reflexivity.
Qed.

Lemma drop_app_replicate {A} (l : list A) (n : nat) (x : A) :
  drop n (l ++ replicate (n - length l) x) = drop n l.
Proof.
  destruct (Nat.le_gt_cases (length l) n) as [H | H].
  - rewrite drop_app_ge by exact H. rewrite (drop_ge l) by exact H.
    apply drop_ge. rewrite length_replicate. lia.
  - replace (n - length l)%nat with O by lia. cbn. rewrite app_nil_r.
    reflexivity.
Qed.

(** [set_weights] on a buffer that holds the tensors [Ts], followed by any
    bytes: both graphs hold [Ts] and then what they held past the count. *)
Lemma set_weights_general (t : Training) (Ts : list Tensor)
  (rest : list byte) :
  wf_training t ->
  Forall wf_tensor Ts ->
  Z.of_nat (length Ts) <= INT_MAX ->
  set_weights (weights_buffer Ts ++ rest) t
  = (mkTraining
       (mkGraph (Ts ++ drop (length Ts) (variables (_curr t))))
       (mkGraph (Ts ++ drop (length Ts) (variables (_prev t))))
       (_worker t), Done tt).
Proof.
  intros [Hc Hp] Hwf HN. unfold set_weights, weights_buffer.
  assert (Hint : is_int (Z.of_nat (length Ts)))
    by (unfold is_int, INT_MIN, INT_MAX in *; lia).
  rewrite <- app_assoc, read_int_write_int by exact Hint.
  rewrite Nat2Z.id.
  rewrite load_weights_prefix; cbn [_curr _prev _worker]; try exact Hwf;
    rewrite ?ensure_variables_app, ?length_app, ?length_replicate;
    try assumption; try lia.
  cbn [take app Nat.add].
  replace (Z.to_nat (Z.of_nat (length Ts)
                     - Z.of_nat (length (variables (_curr t)))))
    with (length Ts - length (variables (_curr t)))%nat by lia.
  replace (Z.to_nat (Z.of_nat (length Ts)
                     - Z.of_nat (length (variables (_prev t)))))
    with (length Ts - length (variables (_prev t)))%nat by lia.
  rewrite !drop_app_replicate. reflexivity.
Qed.

Lemma set_weights_exact (t : Training) (Ts : list Tensor) :
  wf_training t ->
  Forall wf_tensor Ts ->
  Z.of_nat (length Ts) <= INT_MAX ->
  set_weights (weights_buffer Ts) t
  = (mkTraining
       (mkGraph (Ts ++ drop (length Ts) (variables (_curr t))))
       (mkGraph (Ts ++ drop (length Ts) (variables (_prev t))))
       (_worker t), Done tt).
Proof.
  intros Ht Hwf HN. rewrite <- (app_nil_r (weights_buffer Ts)).
  apply set_weights_general; assumption.
Qed.

(** X11. After [set_weights] on a buffer of [N] well-formed tensors,
    [get_weights] returns those tensors followed by the variables the
    live graph held from index [N] on; when the graph held at most [N]
    variables, it returns the buffer itself. *)
Theorem get_weights_set_weights (t : Training) (Ts : list Tensor) :
  wf_training t ->
  Forall wf_tensor Ts ->
  Z.of_nat (length Ts) <= INT_MAX ->
  snd (set_weights (weights_buffer Ts) t) = Done tt
  /\ get_weights (fst (set_weights (weights_buffer Ts) t))
     = weights_buffer (Ts ++ drop (length Ts) (variables (_curr t)))
  /\ ((length (variables (_curr t)) <= length Ts)%nat ->
      get_weights (fst (set_weights (weights_buffer Ts) t))
      = weights_buffer Ts).
Proof.
  intros Ht Hwf HN.
  rewrite set_weights_exact by assumption.
  cbn [fst snd]. rewrite get_weights_buffer. cbn [_curr variables].
  repeat split. intros Hle. rewrite drop_ge by exact Hle.
  rewrite app_nil_r. reflexivity.
Qed.

(** X12. [set_weights] is idempotent on a well-formed buffer: a second
    call with the same buffer changes nothing. *)
Theorem set_weights_idempotent (t : Training) (Ts : list Tensor) :
  wf_training t ->
  Forall wf_tensor Ts ->
  Z.of_nat (length Ts) <= INT_MAX ->
  set_weights (weights_buffer Ts) (fst (set_weights (weights_buffer Ts) t))
  = set_weights (weights_buffer Ts) t.
Proof.
  intros Ht Hwf HN.
  rewrite (set_weights_exact t) by assumption. cbn [fst].
  rewrite set_weights_exact; [| | exact Hwf | exact HN].
  - cbn [_curr _prev _worker variables].
    rewrite !drop_app_length. reflexivity.
  - destruct Ht as [Hc Hp]. unfold wf_training, wf_graph in *.
    cbn [_curr _prev variables]. rewrite !length_app, !length_drop. lia.
Qed.

(** X13. Neither [set_weights] nor [upd_weights] looks at what follows
    the last tensor of the count: bytes after it change nothing. *)
Theorem trailing_bytes_ignored (t : Training) (Ts : list Tensor)
  (rest : list byte) :
  wf_training t ->
  Forall wf_tensor Ts ->
  Z.of_nat (length Ts) <= INT_MAX ->
  set_weights (weights_buffer Ts ++ rest) t
  = set_weights (weights_buffer Ts) t
  /\ (Forall2 (fun v D => same_shape v D = true)
        (take (length Ts) (variables (_curr t))) Ts ->
      upd_weights (weights_buffer Ts ++ rest) t
      = upd_weights (weights_buffer Ts) t).
Proof.
  intros Ht Hwf HN. split.
  - rewrite set_weights_general, set_weights_exact by assumption.
    reflexivity.
  - intros HF. unfold upd_weights, weights_buffer.
    assert (Hint : is_int (Z.of_nat (length Ts)))
      by (unfold is_int, INT_MIN, INT_MAX in *; lia).
    rewrite <- app_assoc, !read_int_write_int by exact Hint.
    rewrite Nat2Z.id.
    rewrite <- (app_nil_r (flat_map write_tensor Ts)) at 2.
    rewrite !(apply_updates_prefix Ts 0) by assumption. reflexivity.
Qed.

Lemma get_weights_set_weights_witness :
  get_weights (fst (set_weights buf_one st_two))
  = weights_buffer [mkTensor 1 1 [F32.of_Z 5]; mkTensor 1 1 [F32.of_Z 7]].
Proof.
  apply (get_weights_set_weights st_two [mkTensor 1 1 [F32.of_Z 5]]).
  - unfold wf_training, wf_graph, INT_MAX. cbn. lia.
  - repeat constructor; vm_compute; congruence.
  - vm_compute; congruence.
Defined.

Lemma set_weights_idempotent_witness :
  set_weights buf_one (fst (set_weights buf_one st_two))
  = set_weights buf_one st_two.
Proof.
  apply (set_weights_idempotent st_two [mkTensor 1 1 [F32.of_Z 5]]).
  - unfold wf_training, wf_graph, INT_MAX. cbn. lia.
  - repeat constructor; vm_compute; congruence.
  - vm_compute; congruence.
Defined.

Lemma trailing_bytes_ignored_witness :
  set_weights (buf_one ++ [Byte.xff; Byte.x00]) st_two
  = set_weights buf_one st_two.
Proof.
  apply (trailing_bytes_ignored st_two [mkTensor 1 1 [F32.of_Z 5]]
           [Byte.xff; Byte.x00]).
  - unfold wf_training, wf_graph, INT_MAX. cbn. lia.
  - repeat constructor; vm_compute; congruence.
  - vm_compute; congruence.
Defined.

(** ** The helper [tensor] *)

Lemma tensor_fill_prefix (vals : list Z) : forall (k : nat) (t : Tensor),
  0 < cols t -> 0 <= rows t -> rows t * cols t <= INT_MAX ->
  length (data t) = Z.to_nat (rows t * cols t) ->
  (k + length vals <= length (data t))%nat ->
  tensor_fill vals (Z.of_nat k) t
  = Some (mkTensor (rows t) (cols t)
            (take k (data t) ++ vals ++ drop (k + length vals) (data t))).
Proof.
  induction vals as [| v vals IH]; intros k t Hc Hr Hmax Hlen Hk.
  - cbn [tensor_fill length app]. rewrite Nat.add_0_r, take_drop.
    destruct t. reflexivity.
  - cbn [tensor_fill length] in *.
    destruct (Z.eqb_spec (cols t) 0) as [E | _]; [lia |].
    assert (Hi : 0 <= Z.of_nat k < rows t * cols t) by lia.
    pose proof (Z.quot_rem' (Z.of_nat k) (cols t)) as Hqr.
    pose proof (Z.rem_bound_pos (Z.of_nat k) (cols t) ltac:(lia) Hc) as Hrem.
    pose proof (Z.quot_pos (Z.of_nat k) (cols t) ltac:(lia) Hc) as Hq.
    assert (Hqlt : Z.quot (Z.of_nat k) (cols t) < rows t) by nia.
    unfold set_coeff, coeff_index.
    replace ((0 <=? Z.quot (Z.of_nat k) (cols t)) && (Z.quot (Z.of_nat k) (cols t) <? rows t)
             && (0 <=? Z.rem (Z.of_nat k) (cols t))
             && (Z.rem (Z.of_nat k) (cols t) <? cols t)) with true.
    2:{ symmetry. rewrite !andb_true_iff.
        repeat split; first [apply Z.leb_le | apply Z.ltb_lt]; lia. }
    cbn [mbind option_bind].
    replace (Z.to_nat (Z.quot (Z.of_nat k) (cols t) * cols t
                       + Z.rem (Z.of_nat k) (cols t))) with k by lia.
    rewrite to_int_id by (unfold is_int, INT_MIN, INT_MAX in *; lia).
    replace (Z.of_nat k + 1) with (Z.of_nat (S k)) by lia.
    rewrite IH; cbn [rows cols data]; rewrite ?length_insert;
      try assumption; try lia.
    rewrite take_S_insert by lia. rewrite drop_insert_lt by lia.
    rewrite <- app_assoc.
    replace (S k + length vals)%nat with (k + S (length vals))%nat by lia.
    reflexivity.
Qed.

Lemma tensor_fill_overflow (vals : list Z) : forall (k : nat) (t : Tensor),
  0 < cols t -> 0 <= rows t -> rows t * cols t <= INT_MAX ->
  length (data t) = Z.to_nat (rows t * cols t) ->
  (k <= length (data t))%nat ->
  (length (data t) < k + length vals)%nat ->
  tensor_fill vals (Z.of_nat k) t = None.
Proof.
  induction vals as [| v vals IH]; intros k t Hc Hr Hmax Hlen Hk Hover.
  - cbn [length] in Hover. lia.
  - cbn [tensor_fill length] in *.
    destruct (Z.eqb_spec (cols t) 0) as [E | _]; [lia |].
    pose proof (Z.quot_rem' (Z.of_nat k) (cols t)) as Hqr.
    pose proof (Z.rem_bound_pos (Z.of_nat k) (cols t) ltac:(lia) Hc) as Hrem.
    pose proof (Z.quot_pos (Z.of_nat k) (cols t) ltac:(lia) Hc) as Hq.
    unfold set_coeff, coeff_index.
    destruct (Nat.eq_dec k (length (data t))) as [E | NE].
    + assert (Hge : rows t <= Z.quot (Z.of_nat k) (cols t)) by nia.
      replace (Z.quot (Z.of_nat k) (cols t) <? rows t) with false
        by (symmetry; apply Z.ltb_ge; exact Hge).
      rewrite andb_false_r. reflexivity.
    + assert (Hqlt : Z.quot (Z.of_nat k) (cols t) < rows t) by nia.
      replace ((0 <=? Z.quot (Z.of_nat k) (cols t)) && (Z.quot (Z.of_nat k) (cols t) <? rows t)
               && (0 <=? Z.rem (Z.of_nat k) (cols t))
               && (Z.rem (Z.of_nat k) (cols t) <? cols t)) with true.
      2:{ symmetry. rewrite !andb_true_iff.
          repeat split; first [apply Z.leb_le | apply Z.ltb_lt]; lia. }
      cbn [mbind option_bind].
      rewrite to_int_id by (unfold is_int, INT_MIN, INT_MAX in *; lia).
      replace (Z.of_nat k + 1) with (Z.of_nat (S k)) by lia.
      apply IH; cbn [rows cols data]; rewrite ?length_insert;
        try assumption; lia.
Qed.

(** X8. The helper [tensor] fills row by row: with as many values as
    coefficients the tensor holds exactly the values, in row-major order;
    with fewer, the coefficients after them keep what the fresh storage
    held; with more, the first value past the end is written out of
    range. *)
Theorem tensor_row_major (n m : Z) (vals fresh : list Z) :
  0 <= n -> 0 < m -> n * m <= INT_MAX ->
  length fresh = Z.to_nat (n * m) ->
  ((length vals <= length fresh)%nat ->
   tensor n m vals fresh
   = Some (mkTensor n m (vals ++ drop (length vals) fresh)))
  /\ (length vals = length fresh ->
      tensor n m vals fresh = Some (mkTensor n m vals))
  /\ ((length fresh < length vals)%nat ->
      tensor n m vals fresh = None).
Proof.
  intros Hr Hc Hmax Hlen. unfold tensor.
  replace ((n <? 0) || (m <? 0)) with false
    by (symmetry; apply orb_false_iff; split; apply Z.ltb_ge; lia).
  assert (Hle : (length vals <= length fresh)%nat ->
    tensor_fill vals 0 (mkTensor n m fresh)
    = Some (mkTensor n m (vals ++ drop (length vals) fresh))).
  { intros Hv. apply (tensor_fill_prefix vals 0); cbn [rows cols data];
      try assumption; lia. }
  repeat split.
  - exact Hle.
  - intros Heq. rewrite Hle by lia. rewrite drop_ge by lia.
    rewrite app_nil_r. reflexivity.
  - intros Hgt. apply (tensor_fill_overflow vals 0);
      cbn [rows cols data]; try assumption; lia.
Qed.

Lemma tensor_row_major_witness :
  tensor 2 3 (map F32.of_Z [1; 2; 3; 4; 5; 6]) (replicate 6 F32.zero)
  = Some tensor_2x3.
Proof.
  destruct (tensor_row_major 2 3 (map F32.of_Z [1; 2; 3; 4; 5; 6])
              (replicate 6 F32.zero)) as (_ & H & _);
    [lia | lia | unfold INT_MAX; lia | reflexivity |].
  apply H. reflexivity.
Defined.

(** ** The order of the scalars *)

Lemma SFcompare_key (a b : spec_float) :
  not_nan a -> not_nan b ->
  SFcompare a b = Some (key_compare (order_key a) (order_key b)).
Proof.
  unfold not_nan, key_compare.
  destruct a as [sa | sa | | sa ma ea], b as [sb | sb | | sb mb eb];
    intros Ha Hb; try congruence;
    try (destruct sa); try (destruct sb); try reflexivity.
  cbn [SFcompare order_key fst snd].
  change (-1 ?= -1) with Eq. cbv iota.
  rewrite Z.compare_opp, (Z.compare_antisym ea eb).
  destruct (ea ?= eb); cbn [CompOpp]; reflexivity.
Qed.

Lemma key_compare_lt_trans (a b c : Z * Z * Z) :
  key_compare a b = Lt -> key_compare b c = Lt -> key_compare a c = Lt.
Proof.
  destruct a as [[a1 a2] a3], b as [[b1 b2] b3], c as [[c1 c2] c3].
  unfold key_compare; cbn [fst snd].
  destruct (Z.compare_spec a1 b1), (Z.compare_spec b1 c1),
    (Z.compare_spec a1 c1); try lia; try discriminate;
    destruct (Z.compare_spec a2 b2), (Z.compare_spec b2 c2),
      (Z.compare_spec a2 c2); try lia; try discriminate;
    destruct (Z.compare_spec a3 b3), (Z.compare_spec b3 c3),
      (Z.compare_spec a3 c3); try lia; try discriminate; reflexivity.
Qed.

Lemma key_compare_ge_lt_trans (a b c : Z * Z * Z) :
  key_compare a b <> Lt -> key_compare a c = Lt -> key_compare b c = Lt.
Proof.
  destruct a as [[a1 a2] a3], b as [[b1 b2] b3], c as [[c1 c2] c3].
  unfold key_compare; cbn [fst snd].
  destruct (Z.compare_spec a1 b1), (Z.compare_spec b1 c1),
    (Z.compare_spec a1 c1); try lia; try congruence;
    destruct (Z.compare_spec a2 b2), (Z.compare_spec b2 c2),
      (Z.compare_spec a2 c2); try lia; try congruence;
    destruct (Z.compare_spec a3 b3), (Z.compare_spec b3 c3),
      (Z.compare_spec a3 c3); try lia; try congruence.
Qed.

Lemma SFltb_not_nan (a b : spec_float) :
  SFltb a b = true -> not_nan a /\ not_nan b.
Proof.
  unfold SFltb, not_nan. destruct a, b; cbn; intros H; split; congruence.
Qed.

Lemma SFltb_key (a b : spec_float) :
  not_nan a -> not_nan b ->
  SFltb a b = true <-> key_compare (order_key a) (order_key b) = Lt.
Proof.
  intros Ha Hb. unfold SFltb. rewrite SFcompare_key by assumption.
  destruct (key_compare _ _); split; congruence.
Qed.

Lemma SFltb_irrefl (a : spec_float) : SFltb a a = false.
Proof.
  destruct a as [s | s | | s m e]; try (destruct s); try reflexivity;
    unfold SFltb; cbn [SFcompare]; rewrite Z.compare_refl;
    change (PosDef.Pos.compare_cont Eq m m) with (Pos.compare m m);
    rewrite Pos.compare_refl; reflexivity.
Qed.

Lemma SFltb_trans (a b c : spec_float) :
  SFltb a b = true -> SFltb b c = true -> SFltb a c = true.
Proof.
  intros Hab Hbc.
  destruct (SFltb_not_nan _ _ Hab) as [Ha Hb].
  destruct (SFltb_not_nan _ _ Hbc) as [_ Hc].
  apply SFltb_key in Hab, Hbc; try assumption.
  apply SFltb_key; try assumption.
  eapply key_compare_lt_trans; eassumption.
Qed.

(** [w <= m] and [m < v] give [w < v], for numbers that are not NaNs. *)
Lemma SFltb_le_lt_trans (w m v : spec_float) :
  not_nan w -> SFltb m w = false -> SFltb m v = true -> SFltb w v = true.
Proof.
  intros Hw Hmw Hmv.
  destruct (SFltb_not_nan _ _ Hmv) as [Hm Hv].
  apply SFltb_key in Hmv; try assumption.
  apply SFltb_key; try assumption.
  apply (key_compare_ge_lt_trans (order_key m)); [| exact Hmv].
  intros Hlt. apply SFltb_key in Hlt; try assumption. congruence.
Qed.

(** ** The CIFAR10 training client *)

Section CIFAR10Props.

Import CIFAR10.

Lemma f32_gt_not_nan (a b : Z) :
  f32_gt a b = true -> F32.is_nan a = false /\ F32.is_nan b = false.
Proof.
  unfold f32_gt, F32.is_nan. intros H.
  destruct (SFltb_not_nan _ _ H) as [Hb Ha]. unfold not_nan in *.
  destruct (F32.of_bits a), (F32.of_bits b); split; congruence.
Qed.

Lemma f32_is_nan_not_nan (a : Z) :
  F32.is_nan a = false -> not_nan (F32.of_bits a).
Proof.
  unfold F32.is_nan, not_nan. destruct (F32.of_bits a); congruence.
Qed.

Lemma get_output_loop_spec (n : nat) : forall (i : Z) out max_i max_v,
  0 <= i ->
  (forall j, i <= j < i + Z.of_nat n -> is_Some (coeff out j 0)) ->
  argmax_upto out i max_i max_v ->
  exists r v,
    get_output_loop n i out max_i max_v = Some r
    /\ argmax_upto out (i + Z.of_nat n) r v.
Proof.
  induction n as [| n IH]; intros i out max_i max_v Hi Hread Hinv.
  - exists max_i, max_v. rewrite Z.add_0_r. split; [reflexivity | exact Hinv].
  - cbn [get_output_loop].
    destruct (Hread i ltac:(lia)) as [v Hv]. rewrite Hv. cbn [mbind option_bind].
    replace (i + Z.of_nat (S n)) with (i + 1 + Z.of_nat n) by lia.
    destruct Hinv as (Hnan & Hle & Hmax).
    destruct (f32_gt v max_v) eqn:Hgt; apply IH; try lia;
      try (intros j Hj; apply Hread; lia).
    + destruct (f32_gt_not_nan _ _ Hgt) as [Hvn _].
      split; [exact Hvn |]. split.
      * intros j w Hj Hw. destruct (Z.eq_dec j i) as [-> | Hne].
        -- rewrite Hv in Hw. injection Hw as <-. apply SFltb_irrefl.
        -- destruct (f32_gt w v) eqn:Hwv; [| reflexivity].
           rewrite <- (Hle j w ltac:(lia) Hw).
           symmetry. unfold f32_gt in *. eapply SFltb_trans; eassumption.
      * right. split; [lia |]. split; [exact Hv |]. split.
        -- destruct Hmax as [[_ ->] | (_ & _ & Hpos & _)]; [exact Hgt |].
           unfold f32_gt in *. eapply SFltb_trans; eassumption.
        -- intros j w Hj Hw Hwn. unfold f32_gt in *.
           apply (SFltb_le_lt_trans _ (F32.of_bits max_v));
             [apply f32_is_nan_not_nan; exact Hwn | | exact Hgt].
           apply (Hle j w ltac:(lia) Hw).
    + split; [exact Hnan |]. split.
      * intros j w Hj Hw. destruct (Z.eq_dec j i) as [-> | Hne].
        -- rewrite Hv in Hw. injection Hw as <-. exact Hgt.
        -- apply (Hle j w); [lia | exact Hw].
      * destruct Hmax as [Hm | (Hr & Hc & Hpos & Hfirst)]; [left; exact Hm |].
        right. split; [lia |]. repeat split; assumption.
Qed.

Lemma argmax_upto_start (out : Tensor) : argmax_upto out 0 (-1) F32.zero.
Proof.
  split; [reflexivity |]. split; [intros j w Hj; lia |].
  left. split; reflexivity.
Qed.

Lemma coeff_index_in_range (T : Tensor) (r c : Z) :
  0 <= r < rows T -> 0 <= c < cols T ->
  coeff_index T r c = Some (Z.to_nat (r * cols T + c)).
Proof.
  intros Hr Hc. unfold coeff_index.
  replace ((0 <=? r) && (r <? rows T) && (0 <=? c) && (c <? cols T))
    with true; [reflexivity |].
  symmetry. rewrite !andb_true_iff.
  repeat split; first [apply Z.leb_le | apply Z.ltb_lt]; lia.
Qed.

Lemma coeff_index_Some (T : Tensor) (r c : Z) (k : nat) :
  coeff_index T r c = Some k ->
  0 <= r < rows T /\ 0 <= c < cols T /\ k = Z.to_nat (r * cols T + c).
Proof.
  unfold coeff_index.
  destruct ((0 <=? r) && (r <? rows T) && (0 <=? c) && (c <? cols T))
    eqn:E; [| discriminate].
  rewrite !andb_true_iff in E. destruct E as [[[H1 H2] H3] H4].
  apply Z.leb_le in H1, H3. apply Z.ltb_lt in H2, H4.
  intros [= <-]. repeat split; lia.
Qed.

Lemma coeff_in_range (T : Tensor) (r : Z) :
  sized T -> 0 <= r < rows T -> 0 < cols T -> is_Some (coeff T r 0).
Proof.
  intros Hs Hr Hc. unfold coeff.
  rewrite coeff_index_in_range by lia. cbn [mbind option_bind].
  apply lookup_lt_is_Some_2. unfold sized in Hs. nia.
Qed.

(** X9. [get_output] returns [-1] when no coefficient of the first
    [OUTPUT] rows of column 0 is greater than zero; otherwise it returns
    the first row that holds the greatest of them: no coefficient is
    greater, and every one before it that is a number is smaller.  A NaN
    is never chosen. *)
Theorem get_output_argmax (OUTPUT : Z) (out : Tensor) :
  sized out -> 0 <= OUTPUT <= rows out -> 0 < cols out ->
  exists r,
    get_output OUTPUT out = Some r
    /\ ((r = -1
         /\ forall j w, 0 <= j < OUTPUT -> coeff out j 0 = Some w ->
            f32_gt w F32.zero = false)
        \/ (0 <= r < OUTPUT
            /\ exists v,
                coeff out r 0 = Some v
                /\ f32_gt v F32.zero = true
                /\ (forall j w, 0 <= j < OUTPUT -> coeff out j 0 = Some w ->
                    f32_gt w v = false)
                /\ (forall j w, 0 <= j < r -> coeff out j 0 = Some w ->
                    F32.is_nan w = false -> f32_gt v w = true))).
Proof.
  intros Hs HO Hc. unfold get_output.
  destruct (get_output_loop_spec (Z.to_nat OUTPUT) 0 out (-1) F32.zero)
    as (r & v & Hr & Hnan & Hle & Hmax).
  - lia.
  - intros j Hj. apply coeff_in_range; [exact Hs | lia | exact Hc].
  - apply argmax_upto_start.
  - rewrite Z2Nat.id, Z.add_0_l in * by lia.
    exists r. split; [exact Hr |].
    destruct Hmax as [[-> ->] | (Hrr & Hv & Hpos & Hfirst)].
    + left. split; [reflexivity | exact Hle].
    + right. split; [exact Hrr |]. exists v. repeat split; assumption.
Qed.

Lemma set_label_spec (n : nat) : forall (i label : Z) (out out' : Tensor),
  0 <= i -> sized out ->
  set_label n i label out = Some out' ->
  rows out' = rows out /\ cols out' = cols out /\ sized out'
  /\ (0 < Z.of_nat n -> i + Z.of_nat n <= rows out /\ 0 < cols out)
  /\ (forall j, i <= j < i + Z.of_nat n ->
      coeff out' j 0 = Some (one_hot label j))
  /\ (forall j, 0 <= j < i -> coeff out' j 0 = coeff out j 0).
Proof.
  induction n as [| n IH]; intros i label out out' Hi Hs H.
  - cbn in H. injection H as <-.
    repeat split; try assumption; try lia; intros; first [lia | reflexivity].
  - cbn [set_label] in H. unfold set_coeff in H.
    destruct (coeff_index out i 0) as [k |] eqn:Hk; [| discriminate].
    cbn [mbind option_bind] in H.
    destruct (coeff_index_Some _ _ _ _ Hk) as (Hr & Hc & ->).
    set (v := one_hot label i) in *.
    set (out1 := mkTensor (rows out) (cols out)
                   (<[Z.to_nat (i * cols out + 0) := v]> (data out))) in *.
    assert (Hs1 : sized out1).
    { unfold sized, out1 in *. cbn [rows cols data].
      rewrite length_insert. exact Hs. }
    destruct (IH (i + 1) label out1 out' ltac:(lia) Hs1 H)
      as (Hro & Hco & Hso & Hrange & Hnew & Hold).
    cbn [rows cols out1] in Hro, Hco, Hrange.
    assert (Hlen : Z.of_nat (length (data out)) = rows out * cols out).
    { unfold sized in Hs. rewrite Hs. nia. }
    assert (Hcoeff1 : forall j, 0 <= j < rows out ->
      coeff out1 j 0 = if Z.eq_dec j i then Some v else coeff out j 0).
    { intros j Hj. unfold coeff.
      rewrite !coeff_index_in_range by (cbn [rows cols out1]; lia).
      cbn [mbind option_bind rows cols data out1].
      destruct (Z.eq_dec j i) as [-> | Hne].
      - apply list_lookup_insert_eq. nia.
      - apply list_lookup_insert_ne. nia. }
    repeat split; try assumption.
    + destruct n as [| n]; [lia |]. destruct Hrange as [Hrg _]; lia.
    + lia.
    + intros j Hj. destruct (Z.eq_dec j i) as [-> | Hne].
      * rewrite Hold by lia. rewrite Hcoeff1 by lia.
        destruct (Z.eq_dec i i); [reflexivity | congruence].
      * apply Hnew. lia.
    + intros j Hj. rewrite Hold by lia. rewrite Hcoeff1 by lia.
      destruct (Z.eq_dec j i); [lia | reflexivity].
Qed.

(** X10. The label that [set_input] writes one-hot is the one
    [get_output] reads back; a label outside [0 .. OUTPUT - 1] is written
    as zeros and read back as [-1]. *)
Theorem set_input_get_output (INPUT OUTPUT : Z)
  (normalized : list Z -> list Z) (inp out inp' out' : Tensor)
  (image : list Z) (label : Z) :
  sized out ->
  set_input INPUT OUTPUT normalized inp out image label = Some (inp', out') ->
  get_output OUTPUT out'
  = Some (if (0 <=? label) && (label <? OUTPUT) then label else -1).
Proof.
  intros Hs H. unfold set_input in H.
  destruct ((INPUT <? 0) || _); [discriminate |].
  destruct (set_column _ 0 inp) as [inp1 |]; [| discriminate].
  cbn [mbind option_bind] in H.
  destruct (set_label (Z.to_nat OUTPUT) 0 label out) as [out1 |] eqn:Hl;
    [| discriminate].
  cbn [mbind option_bind] in H. injection H as _ <-.
  destruct (set_label_spec (Z.to_nat OUTPUT) 0 label out out1
              ltac:(lia) Hs Hl)
    as (Hro & Hco & Hso & Hrange & Hnew & _).
  destruct (Z_le_gt_dec OUTPUT 0) as [Hneg | Hpos].
  - unfold get_output. replace (Z.to_nat OUTPUT) with O by lia. cbn.
    replace ((0 <=? label) && (label <? OUTPUT)) with false; [reflexivity |].
    symmetry. apply andb_false_iff.
    destruct (Z_le_gt_dec 0 label);
      [right; apply Z.ltb_ge; lia | left; apply Z.leb_gt; lia].
  - destruct (Hrange ltac:(lia)) as [Hrows Hcols].
    rewrite Z2Nat.id, Z.add_0_l in * by lia.
    assert (Hcase : exists r,
      get_output OUTPUT out1 = Some r
      /\ ((r = -1
           /\ forall j w, 0 <= j < OUTPUT -> coeff out1 j 0 = Some w ->
              f32_gt w F32.zero = false)
          \/ (0 <= r < OUTPUT
              /\ exists v, coeff out1 r 0 = Some v
                           /\ f32_gt v F32.zero = true))).
    { unfold get_output.
      destruct (get_output_loop_spec (Z.to_nat OUTPUT) 0 out1 (-1) F32.zero)
        as (r & v & Hr & _ & Hle & Hmax).
      - lia.
      - intros j Hj. apply coeff_in_range; [exact Hso | lia | lia].
      - apply argmax_upto_start.
      - rewrite Z2Nat.id, Z.add_0_l in * by lia.
        exists r. split; [exact Hr |].
        destruct Hmax as [[-> ->] | (Hrr & Hv & Hgt0 & _)].
        + left. split; [reflexivity | exact Hle].
        + right. split; [exact Hrr |]. exists v. split; assumption. }
    destruct Hcase as (r & Hr & Hcase).
    rewrite Hr. f_equal.
    destruct ((0 <=? label) && (label <? OUTPUT)) eqn:Hin.
    + apply andb_true_iff in Hin as [H0 H1].
      apply Z.leb_le in H0. apply Z.ltb_lt in H1.
      destruct Hcase as [[-> Hnone] | (Hrr & v & Hv & Hgt)].
      * specialize (Hnone label _ ltac:(lia) (Hnew label ltac:(lia))).
        unfold one_hot in Hnone. rewrite Z.eqb_refl in Hnone.
        vm_compute in Hnone. discriminate.
      * rewrite Hnew in Hv by lia. injection Hv as <-.
        unfold one_hot in Hgt.
        destruct (Z.eqb_spec label r) as [-> | _]; [reflexivity |].
        vm_compute in Hgt. discriminate.
    + destruct Hcase as [[-> _] | (Hrr & v & Hv & Hgt)]; [reflexivity |].
      rewrite Hnew in Hv by lia. injection Hv as <-.
      unfold one_hot in Hgt.
      destruct (Z.eqb_spec label r) as [-> | _].
      * rewrite andb_false_iff, Z.leb_gt, Z.ltb_ge in Hin. lia.
      * vm_compute in Hgt. discriminate.
Qed.

Lemma get_output_argmax_witness :
  exists r,
    get_output 3 (mkTensor 3 1 [F32.of_Z 2; F32.of_Z 7; F32.of_Z 7])
    = Some r.
Proof.
  destruct (get_output_argmax 3
              (mkTensor 3 1 [F32.of_Z 2; F32.of_Z 7; F32.of_Z 7]))
    as (r & Hr & _); [reflexivity | cbn; lia | cbn; lia |].
  exists r. exact Hr.
Defined.

Lemma set_input_get_output_witness :
  get_output 3 (mkTensor 3 1 [F32.of_Z 0; F32.of_Z 1; F32.of_Z 0]) = Some 1.
Proof.
  apply (set_input_get_output 2 3 (fun l => l)
           (mkTensor 2 1 [F32.zero; F32.zero])
           (mkTensor 3 1 [F32.zero; F32.zero; F32.zero])
           (mkTensor 2 1 [F32.of_Z 3; F32.of_Z 4])
           (mkTensor 3 1 [F32.of_Z 0; F32.of_Z 1; F32.of_Z 0])
           [F32.of_Z 3; F32.of_Z 4] 1); reflexivity.
Defined.

End CIFAR10Props.

(** ** Attention: the blocks of the heads *)

(** X14. Head [i] of [MultiHeadAttention] attends to the block of [S] rows
    and [D = E / H] columns of the projected [q], [k] and [v] that starts
    at column [i * D].  For [E >= 0] the blocks lie side by side in the
    first [H * D] columns, which are all [E] columns exactly when [H]
    divides [E]: otherwise the last columns of the projections reach no
    head. *)
Theorem mha_head_blocks (q k v mask : Function) (L S E H : Z)
  (bias : bool) (dropout : Z) (i : Z) :
  0 <= i < H ->
  let D := Z.quot E H in
  let Q := linear q (Var E E "MHA.Wq")
             (if bias then Some (Var 1 E "MHA.bq") else None) in
  let K := linear k (Var E E "MHA.Wk")
             (if bias then Some (Var 1 E "MHA.bk") else None) in
  let V := linear v (Var E E "MHA.Wv")
             (if bias then Some (Var 1 E "MHA.bv") else None) in
  attention_heads q k v mask L S E H bias dropout !! Z.to_nat i
  = Some (ScaledDotProductAttention
            (Split Q 0 (i * D) S D) (Split K 0 (i * D) S D)
            (Split V 0 (i * D) S D) mask L S H dropout)
  /\ (0 <= E ->
      0 <= i * D /\ i * D + D <= H * D /\ H * D <= E
      /\ (H * D = E <-> Z.rem E H = 0)).
Proof.
  intros Hi D Q K V. split.
  - unfold attention_heads. cbn zeta. fold D Q K V.
    assert (Hsplit : forall x, split_heads x H S D !! Z.to_nat i
                               = Some (Split x 0 (i * D) S D)).
    { intros x. unfold split_heads.
      rewrite list_lookup_fmap, lookup_seq_lt by lia.
      cbn. rewrite Z2Nat.id by lia. reflexivity. }
    rewrite lookup_zip_with, lookup_zip_with, !Hsplit. reflexivity.
  - intros HE. subst D.
    pose proof (Z.quot_rem' E H) as Hqr.
    pose proof (Z.rem_bound_pos E H HE ltac:(lia)) as Hrem.
    pose proof (Z.quot_pos E H HE ltac:(lia)) as Hq.
    repeat split; try nia.
Qed.

Lemma mha_head_blocks_witness :
  attention_heads (Arg "q") (Arg "k") (Arg "v") Null 3 3 9 2 true 0 !! 1%nat
  = Some (ScaledDotProductAttention
            (Split (linear (Arg "q") (Var 9 9 "MHA.Wq")
                      (Some (Var 1 9 "MHA.bq"))) 0 4 3 4)
            (Split (linear (Arg "k") (Var 9 9 "MHA.Wk")
                      (Some (Var 1 9 "MHA.bk"))) 0 4 3 4)
            (Split (linear (Arg "v") (Var 9 9 "MHA.Wv")
                      (Some (Var 1 9 "MHA.bv"))) 0 4 3 4)
            Null 3 3 2 0).
Proof.
  exact (proj1 (mha_head_blocks (Arg "q") (Arg "k") (Arg "v") Null 3 3 9 2
                  true 0 1 ltac:(lia))).
Defined.

(** ** Positional encoding *)

Lemma div_term_indices_spec (n : nat) : forall (i E : Z),
  0 <= i -> Z.even i = true -> E <= INT_MAX - 1 ->
  E <= i + 2 * Z.of_nat n ->
  Forall (fun j => 0 <= j < div_term_size E) (div_term_indices n i E)
  <-> (i < E -> Z.even E = true).
Proof.
  induction n as [| n IH]; intros i E Hi Hev HE Hn.
  - cbn. split; [intros _ Hlt; lia | constructor].
  - cbn [div_term_indices]. destruct (Z.ltb_spec i E) as [Hlt | Hge].
    + rewrite to_int_id by (unfold is_int, INT_MIN, INT_MAX in *; lia).
      rewrite Forall_cons, IH; try lia.
      2:{ rewrite Z.even_add, Hev. reflexivity. }
      unfold div_term_size.
      apply Z.even_spec in Hev. destruct Hev as [a ->].
      rewrite (Z.mul_comm 2 a), Z.quot_mul by lia.
      split.
      * intros [Hj Hrest] _.
        destruct (Z.ltb_spec (a * 2 + 2) E) as [H2 | H2];
          [apply Hrest; exact H2 |].
        destruct (Z.eq_dec E (a * 2 + 2)) as [-> | Hne].
        -- rewrite Z.even_add, Z.even_mul. cbn. rewrite orb_true_r. reflexivity.
        -- assert (E = a * 2 + 1) by lia. subst E.
           replace (a * 2 + 1) with (1 + a * 2) in Hj by lia.
           rewrite Z.quot_add in Hj by lia.
           change (Z.quot 1 2) with 0 in Hj. lia.
      * intros Heven. specialize (Heven ltac:(lia)).
        apply Z.even_spec in Heven. destruct Heven as [b ->].
        rewrite (Z.mul_comm 2 b), Z.quot_mul by lia.
        split; [lia |]. intros _.
        rewrite Z.even_mul. cbn. rewrite orb_true_r. reflexivity.
    + split; [intros _ Hlt; lia | constructor].
Qed.

(** X15. The loop of the constructor of [PositionalEncoding] that fills
    [div_term] stays inside its [emb_size / 2] coefficients exactly when
    [emb_size] is even: with an odd embedding size its last round writes
    one past the end. *)
Theorem positional_encoding_even (emb_size : Z) :
  0 < emb_size <= INT_MAX - 1 ->
  Forall (fun j => 0 <= j < div_term_size emb_size)
    (div_term_indices (Z.to_nat emb_size) 0 emb_size)
  <-> Z.even emb_size = true.
Proof.
  intros HE. rewrite div_term_indices_spec; try lia; [| reflexivity].
  split; [intros H; apply H; lia | intros H _; exact H].
Qed.

Lemma positional_encoding_even_witness :
  Forall (fun j => 0 <= j < div_term_size 4) (div_term_indices 4 0 4).
Proof.
  apply (positional_encoding_even 4); [unfold INT_MAX; lia | reflexivity].
Defined.

(** ** The unit test harness *)

Section UnitTestProps.

Import UnitTest.

Lemma string_app_cons (x : Ascii.ascii) (a b : string) :
  String x a +:+ b = String x (a +:+ b).
Proof. reflexivity. Qed.

Lemma string_app_nil_l (a : string) : "" +:+ a = a.
Proof. reflexivity. Qed.

Lemma string_app_assoc (a b c : string) : (a +:+ b) +:+ c = a +:+ (b +:+ c).
Proof.
  induction a as [| x a IH]; [reflexivity |].
  rewrite !string_app_cons, IH. reflexivity.
Qed.

Lemma string_app_nil_r (a : string) : a +:+ "" = a.
Proof.
  induction a as [| x a IH]; [reflexivity |].
  rewrite string_app_cons, IH. reflexivity.
Qed.

Lemma string_length_app (a b : string) :
  String.length (a +:+ b) = (String.length a + String.length b)%nat.
Proof.
  induction a as [| x a IH]; [reflexivity |].
  rewrite string_app_cons. cbn. rewrite IH. reflexivity.
Qed.

Lemma string_length_zero (a : string) : String.length a = O -> a = "".
Proof. destruct a; [reflexivity | discriminate]. Qed.

(** The statements that complete before the first exception: the log
    grows by the lines of their failed assertions, and nothing else
    changes. *)
Lemma run_body_app (pre : list statement) : forall rest u,
  idle u -> forallb completes pre = true ->
  run_body (pre ++ rest) u
  = run_body rest
      (mkUnitTest (_done u) (_log u +:+ failure_lines pre) (-1) None).
Proof.
  induction pre as [| s pre IH]; intros rest u [Hl Hf] Hc.
  - cbn [app failure_lines]. rewrite string_app_nil_r.
    destruct u; cbn in *; subst. reflexivity.
  - cbn [forallb] in Hc. apply andb_true_iff in Hc as [Hs Hc].
    destruct s as [line file [b | what] | [[] | what]]; try discriminate.
    + cbn [app run_body run_assert]. destruct b; cbn [negb].
      * rewrite IH; [| split; reflexivity | exact Hc]. reflexivity.
      * rewrite IH; [| split; reflexivity | exact Hc].
        cbn [log set_position _done _log _line _file failure_lines].
        unfold failure_line. rewrite !string_app_assoc. reflexivity.
    + cbn [app run_body]. rewrite IH; [| split; assumption | exact Hc].
      reflexivity.
Qed.

Lemma failure_line_length (line : Z) (file : string) :
  (0 < String.length (failure_line line file))%nat.
Proof.
  unfold failure_line. rewrite !string_length_app. cbn. lia.
Qed.

(** In a body that completes, no line is logged exactly when every
    assertion holds. *)
Lemma failure_lines_length (body : list statement) :
  forallb completes body = true ->
  (String.length (failure_lines body) =? 0)%nat = forallb holds body.
Proof.
  induction body as [| s body IH]; intros Hc; [reflexivity |].
  cbn [forallb] in *. apply andb_true_iff in Hc as [Hs Hc].
  destruct s as [line file [[] | what] | [[] | what]]; try discriminate;
    cbn [failure_lines holds andb]; try (apply IH; exact Hc).
  rewrite string_length_app.
  pose proof (failure_line_length line file).
  apply Nat.eqb_neq. lia.
Qed.

Lemma holds_completes (body : list statement) :
  forallb holds body = true -> forallb completes body = true.
Proof.
  induction body as [| s body IH]; [reflexivity |].
  cbn [forallb]. rewrite !andb_true_iff. intros [Hs Hb].
  split; [| apply IH; exact Hb].
  destruct s as [line file [b | what] | [[] | what]]; try discriminate;
    reflexivity.
Qed.

(** A body in which a statement does not complete splits at the first
    such statement. *)
Lemma first_exception (body : list statement) :
  forallb completes body = false ->
  exists pre s post,
    body = pre ++ s :: post
    /\ forallb completes pre = true /\ completes s = false.
Proof.
  induction body as [| s body IH]; [discriminate |].
  cbn [forallb]. destruct (completes s) eqn:Hs; cbn [andb].
  - intros Hb. destruct (IH Hb) as (pre & s' & post & -> & Hpre & Hs').
    exists (s :: pre), s', post. cbn [forallb app]. rewrite Hs, Hpre.
    repeat split; assumption.
  - intros _. exists [], s, body. repeat split; assumption.
Qed.

Lemma unittest_completed (text : string) (body : list statement) :
  forallb completes body = true ->
  TEST text body
  = header text
    +:+ (if forallb holds body then "OK" +:+ endl
         else "FAILED" +:+ endl +:+ failure_lines body).
Proof.
  intros Hc. unfold TEST, create.
  rewrite <- (app_nil_r body) at 1.
  rewrite run_body_app; [| split; reflexivity | exact Hc].
  cbn [run_body]. unfold end_log, finish. cbn [_done _log negb].
  rewrite string_app_nil_l, failure_lines_length by exact Hc.
  destruct (forallb holds body) eqn:Hh.
  - rewrite <- failure_lines_length in Hh by exact Hc.
    apply Nat.eqb_eq, string_length_zero in Hh. rewrite Hh.
    rewrite !string_app_nil_r. reflexivity.
  - rewrite !string_app_assoc. reflexivity.
Qed.

Lemma unittest_thrown (text : string) (pre post : list statement)
  (s : statement) :
  forallb completes pre = true -> completes s = false ->
  TEST text (pre ++ s :: post)
  = header text +:+ "UNFINISHED" +:+ endl
    +:+ failure_lines pre +:+ exception_line s.
Proof.
  intros Hc Hs. unfold TEST, create.
  rewrite run_body_app; [| split; reflexivity | exact Hc].
  destruct s as [line file [b | what] | [[] | what]]; try discriminate;
    cbn [run_body run_assert]; unfold end_log, log, set_position;
    cbn [exception_line _done _log _line _file negb];
    rewrite ?string_app_nil_l, !string_app_assoc; reflexivity.
Qed.

(** X5. A test prints [OK] exactly when every statement of its body
    completes and every assertion holds. *)
Theorem unittest_ok_iff (text : string) (body : list statement) :
  TEST text body = header text +:+ "OK" +:+ endl
  <-> forallb holds body = true.
Proof.
  split.
  - intros H. destruct (forallb completes body) eqn:Hc.
    + rewrite unittest_completed in H by exact Hc.
      destruct (forallb holds body); [reflexivity |].
      apply String.app_inj in H. discriminate H.
    + destruct (first_exception body Hc) as (pre & s & post & -> & Hpre & Hs).
      rewrite unittest_thrown in H by assumption.
      apply String.app_inj in H. discriminate H.
  - intros Hh. rewrite unittest_completed by (apply holds_completes; exact Hh).
    rewrite Hh. reflexivity.
Qed.

(** X6. When every statement of the body completes and an assertion
    fails, the test prints [FAILED] and then one line for every failed
    assertion, in the order of the body, with its line and file. *)
Theorem unittest_failed (text : string) (body : list statement) :
  forallb completes body = true -> forallb holds body = false ->
  TEST text body
  = header text +:+ "FAILED" +:+ endl
    +:+ failure_lines body.
Proof.
  intros Hc Hh. rewrite unittest_completed by exact Hc. rewrite Hh.
  reflexivity.
Qed.

(** X7. When a statement of the body throws, the test prints
    [UNFINISHED], whatever failed before; the log holds the failed
    assertions before the exception and then [what()], with the position
    of the assertion when its expression threw; the statements after the
    exception do not run. *)
Theorem unittest_unfinished (text : string) (pre post : list statement)
  (s : statement) :
  forallb completes pre = true -> completes s = false ->
  TEST text (pre ++ s :: post)
  = header text +:+ "UNFINISHED" +:+ endl
    +:+ failure_lines pre +:+ exception_line s
  /\ TEST text (pre ++ s :: post) = TEST text (pre ++ [s]).
Proof.
  intros Hc Hs. rewrite !unittest_thrown by assumption.
  split; reflexivity.
Qed.

Lemma unittest_failed_witness :
  TEST "Matrix Map"
    [ASSERT 389 "unittest.cc" (Returns true);
     ASSERT 397 "unittest.cc" (Returns false)]
  = header "Matrix Map" +:+ "FAILED" +:+ endl
    +:+ "397:unittest.cc assert failure" +:+ endl.
Proof.
  exact (unittest_failed "Matrix Map"
           [ASSERT 389 "unittest.cc" (Returns true);
            ASSERT 397 "unittest.cc" (Returns false)] eq_refl eq_refl).
Defined.

Lemma unittest_unfinished_witness :
  TEST "Matrix Storage"
    [ASSERT 435 "unittest.cc" (Returns false);
     Statement (Throws "bad stream");
     ASSERT 436 "unittest.cc" (Returns false)]
  = header "Matrix Storage" +:+ "UNFINISHED" +:+ endl
    +:+ "435:unittest.cc assert failure" +:+ endl
    +:+ "bad stream" +:+ endl.
Proof.
  exact (proj1 (unittest_unfinished "Matrix Storage"
                  [ASSERT 435 "unittest.cc" (Returns false)]
                  [ASSERT 436 "unittest.cc" (Returns false)]
                  (Statement (Throws "bad stream")) eq_refl eq_refl)).
Defined.

End UnitTestProps.
